(** * wssgui: the letter wheel (src/wssgui/letter_wheel.py)

    A shallow embedding of the three classes of the module:
    - [MyQGPixmapItem], one letter tile placed on a circle;
    - [LetterAreaView], the mouse handlers that collect tiles into a word;
    - [LetterArea], the controller that loads a word onto the wheel and
      replays (highlights) a word.

    Modelling conventions.
    - Python objects have identity: tiles and path items live in a heap
      (a list addressed by position) and every container of the program
      (scene, wheel, selection) holds references.  [self.wheel.copy()] is a
      shallow copy, so the flags written through the copy are seen through
      the wheel: the heap makes this aliasing explicit.
    - Python [int] is [Z]; Python [float] is idealised as a real number of
      [R] (exact arithmetic, rounding is not modelled); a division by zero
      raises [ZeroDivisionError] as in Python.
    - Exceptions do not roll the state back: a computation is a function
      from the world to the new world and either a value or the exception.
    - Qt is a collaborator: a [QPainterPath] is the sequence of drawing
      commands issued on it, the scene is the sequence of items added to
      it, and the hit test [itemAt(event.pos())] is the argument of the
      mouse handlers.  Emitted signals are recorded in order. *)

From Stdlib Require Import ZArith List String Ascii Bool Lia Reals Lra.
Import ListNotations.

Set Implicit Arguments.

(** ** Values *)

Definition ref := nat.

Record QPointF := mkPoint { px : R; py : R }.

(** What the program reads of a glyph bitmap: the size of its bounding
    rectangle. *)
Record QPixmap := mkPixmap { width : R; height : R }.

Inductive GlobalColor := red | green | blue.

Definition GlobalColor_eqb (a b : GlobalColor) : bool :=
  match a, b with
  | red, red | green, green | blue, blue => true
  | _, _ => false
  end.

Record QPen := mkPen { color : GlobalColor; pen_width : Z }.

Inductive PathElement :=
| moveTo (p : QPointF)
| lineTo (p : QPointF)
| closeSubpath.

Definition QPainterPath := list PathElement.

Record QGraphicsPathItem := mkPathItem { path : QPainterPath; pen : QPen }.

(** The built-in exceptions the module can raise. *)
Inductive PyExn := IndexError | KeyError | ZeroDivisionError | AttributeError.

Inductive result (A : Type) :=
| Ok (a : A)
| Raise (e : PyExn).
Arguments Ok {A} a.
Arguments Raise {A} e.

Inductive Signal :=
| mouseOverWidget (widget : ref)
| mouseReleaseProc (word : string)
| clearHighlight (b : bool).

(** ** class MyQGPixmapItem *)

Module MyQGPixmapItem.

Record t := mk {
  img : QPixmap;
  idx : Z;
  alpha : ascii;
  half_width : R;
  half_height : R;
  center_x : R;
  center_y : R;
  radius : Z;
  angle : R;
  hit : bool;
  path_item : option ref;       (* False, or a QGraphicsPathItem *)
  pos : QPointF;                (* x(), y(); set by setPos *)
  offset_xy : option QPointF    (* absent until calc_position(offset=True) *)
}.

Definition init (img : QPixmap) (i n : Z) (alpha : ascii)
           (center : QPointF) (radius : Z) : result t :=
  if (n =? 0)%Z then Raise ZeroDivisionError
  else Ok {| img := img;
             idx := i;
             alpha := alpha;
             half_width := (width img / 2)%R;
             half_height := (height img / 2)%R;
             center_x := px center;
             center_y := py center;
             radius := radius;
             angle := (2 * PI * IZR i / IZR n)%R;
             hit := false;
             path_item := None;
             pos := mkPoint 0 0;
             offset_xy := None |}.

Definition setPos (p : QPointF) (s : t) : t :=
  mk (img s) (idx s) (alpha s) (half_width s) (half_height s) (center_x s)
     (center_y s) (radius s) (angle s) (hit s) (path_item s) p (offset_xy s).

Definition set_offset_xy (p : QPointF) (s : t) : t :=
  mk (img s) (idx s) (alpha s) (half_width s) (half_height s) (center_x s)
     (center_y s) (radius s) (angle s) (hit s) (path_item s) (pos s) (Some p).

Definition set_hit (b : bool) (s : t) : t :=
  mk (img s) (idx s) (alpha s) (half_width s) (half_height s) (center_x s)
     (center_y s) (radius s) (angle s) b (path_item s) (pos s) (offset_xy s).

Definition set_path_item (p : option ref) (s : t) : t :=
  mk (img s) (idx s) (alpha s) (half_width s) (half_height s) (center_x s)
     (center_y s) (radius s) (angle s) (hit s) p (pos s) (offset_xy s).

(** [r = None] is the default [r=False]; a zero [r] is falsy too. *)
Definition calc_position (r : option Z) (offset : bool) (s : t) : t :=
  let r := match r with
           | None => radius s
           | Some r' => if (r' =? 0)%Z then radius s else r'
           end in
  let x := (center_x s + IZR r * cos (angle s))%R in
  let x := if negb offset then (x - half_width s)%R else x in
  let y := (center_y s + IZR r * sin (angle s))%R in
  let y := if negb offset then (y - half_height s)%R else y in
  if negb offset then setPos (mkPoint x y) s
  else set_offset_xy (mkPoint x y) s.

End MyQGPixmapItem.

Definition Tile : Type := MyQGPixmapItem.t.

(** ** The heap and the world *)

Inductive Obj :=
| OTile (t : Tile)
| OPath (p : QGraphicsPathItem).

Record World := mkWorld {
  heap : list Obj;
  (* QGraphicsScene, shared by the view and the area *)
  scene : list ref;
  (* LetterAreaView *)
  mouse_pressed : bool;
  selected_widgets_set : list ref;
  selected_widgets_list : list ref;
  has_highlighted : bool;
  paint_path : QPainterPath;
  (* LetterArea *)
  center : QPointF;
  radius : Z;
  last_path_highlighted : option ref;
  letters : list (ascii * QPixmap);
  wheel : option (list ref);       (* absent until make_word *)
  (* signals emitted so far, oldest first *)
  emitted : list Signal
}.

Definition set_heap (x : list Obj) (s : World) : World :=
  mkWorld x (scene s) (mouse_pressed s) (selected_widgets_set s)
          (selected_widgets_list s) (has_highlighted s) (paint_path s)
          (center s) (radius s) (last_path_highlighted s) (letters s)
          (wheel s) (emitted s).

Definition set_scene (x : list ref) (s : World) : World :=
  mkWorld (heap s) x (mouse_pressed s) (selected_widgets_set s)
          (selected_widgets_list s) (has_highlighted s) (paint_path s)
          (center s) (radius s) (last_path_highlighted s) (letters s)
          (wheel s) (emitted s).

Definition set_mouse_pressed (x : bool) (s : World) : World :=
  mkWorld (heap s) (scene s) x (selected_widgets_set s)
          (selected_widgets_list s) (has_highlighted s) (paint_path s)
          (center s) (radius s) (last_path_highlighted s) (letters s)
          (wheel s) (emitted s).

Definition set_selected_widgets_set (x : list ref) (s : World) : World :=
  mkWorld (heap s) (scene s) (mouse_pressed s) x
          (selected_widgets_list s) (has_highlighted s) (paint_path s)
          (center s) (radius s) (last_path_highlighted s) (letters s)
          (wheel s) (emitted s).

Definition set_selected_widgets_list (x : list ref) (s : World) : World :=
  mkWorld (heap s) (scene s) (mouse_pressed s) (selected_widgets_set s)
          x (has_highlighted s) (paint_path s)
          (center s) (radius s) (last_path_highlighted s) (letters s)
          (wheel s) (emitted s).

Definition set_has_highlighted (x : bool) (s : World) : World :=
  mkWorld (heap s) (scene s) (mouse_pressed s) (selected_widgets_set s)
          (selected_widgets_list s) x (paint_path s)
          (center s) (radius s) (last_path_highlighted s) (letters s)
          (wheel s) (emitted s).

Definition set_paint_path (x : QPainterPath) (s : World) : World :=
  mkWorld (heap s) (scene s) (mouse_pressed s) (selected_widgets_set s)
          (selected_widgets_list s) (has_highlighted s) x
          (center s) (radius s) (last_path_highlighted s) (letters s)
          (wheel s) (emitted s).

Definition set_last_path_highlighted (x : option ref) (s : World) : World :=
  mkWorld (heap s) (scene s) (mouse_pressed s) (selected_widgets_set s)
          (selected_widgets_list s) (has_highlighted s) (paint_path s)
          (center s) (radius s) x (letters s)
          (wheel s) (emitted s).

Definition set_wheel (x : option (list ref)) (s : World) : World :=
  mkWorld (heap s) (scene s) (mouse_pressed s) (selected_widgets_set s)
          (selected_widgets_list s) (has_highlighted s) (paint_path s)
          (center s) (radius s) (last_path_highlighted s) (letters s)
          x (emitted s).

Definition set_emitted (x : list Signal) (s : World) : World :=
  mkWorld (heap s) (scene s) (mouse_pressed s) (selected_widgets_set s)
          (selected_widgets_list s) (has_highlighted s) (paint_path s)
          (center s) (radius s) (last_path_highlighted s) (letters s)
          (wheel s) x.

(** ** Computations: state and exceptions *)

Definition Py (A : Type) : Type := World -> World * result A.

Definition ret {A} (a : A) : Py A := fun s => (s, Ok a).

Definition raise {A} (e : PyExn) : Py A := fun s => (s, Raise e).

Definition bind {A B} (m : Py A) (f : A -> Py B) : Py B :=
  fun s =>
    match m s with
    | (s', Ok a) => f a s'
    | (s', Raise e) => (s', Raise e)
    end.

Declare Scope py_scope.
Delimit Scope py_scope with py.
Bind Scope py_scope with Py.
Notation "x <- m ;; k" := (bind m (fun x => k))
  (at level 61, m at next level, right associativity) : py_scope.
Notation "m ;; k" := (bind m (fun _ => k))
  (at level 61, right associativity) : py_scope.
Open Scope py_scope.

Definition get : Py World := fun s => (s, Ok s).

Definition modify (f : World -> World) : Py unit := fun s => (f s, Ok tt).

Definition lift {A} (r : result A) : Py A := fun s => (s, r).

Fixpoint for_each {A} (xs : list A) (body : A -> Py unit) : Py unit :=
  match xs with
  | [] => ret tt
  | x :: xs' => body x ;; for_each xs' body
  end.

(** The world after a computation, and how it ended. *)
Definition exec {A} (m : Py A) (s : World) : World := fst (m s).
Definition outcome {A} (m : Py A) (s : World) : result A := snd (m s).

(** ** Heap access *)

Fixpoint update {A} (l : list A) (n : nat) (x : A) : list A :=
  match l, n with
  | [], _ => []
  | _ :: l', O => x :: l'
  | y :: l', S n' => y :: update l' n' x
  end.

Definition tile_at (h : list Obj) (r : ref) : option Tile :=
  match nth_error h r with
  | Some (OTile t) => Some t
  | _ => None
  end.

Definition path_at (h : list Obj) (r : ref) : option QGraphicsPathItem :=
  match nth_error h r with
  | Some (OPath p) => Some p
  | _ => None
  end.

(** [isinstance(widget, MyQGPixmapItem)], [None] when the pointer is over
    no item. *)
Definition is_tile (h : list Obj) (widget : option ref) : option ref :=
  match widget with
  | Some r => match tile_at h r with Some _ => Some r | None => None end
  | None => None
  end.

(** Allocation of a fresh object. *)
Definition new (o : Obj) : Py ref :=
  fun s => (set_heap (heap s ++ [o]) s, Ok (List.length (heap s))).

(** Reading an attribute of a tile; an object of another class has no such
    attribute. *)
Definition tile (r : ref) : Py Tile :=
  fun s => match tile_at (heap s) r with
           | Some t => (s, Ok t)
           | None => (s, Raise AttributeError)
           end.

(** Writing through a reference. *)
Definition modify_tile (r : ref) (f : Tile -> Tile) : Py unit :=
  t <- tile r ;;
  modify (fun s => set_heap (update (heap s) r (OTile (f t))) s).

Definition get_offset_xy (r : ref) : Py QPointF :=
  t <- tile r ;;
  match MyQGPixmapItem.offset_xy t with
  | Some p => ret p
  | None => raise AttributeError
  end.

(** ** QGraphicsScene *)

Definition addItem (r : ref) : Py unit :=
  modify (fun s => set_scene (scene s ++ [r]) s).

Definition removeItem (r : ref) : Py unit :=
  modify (fun s => set_scene (remove Nat.eq_dec r (scene s)) s).

Definition emit (sig : Signal) : Py unit :=
  modify (fun s => set_emitted (emitted s ++ [sig]) s).

(** A Python [set] of references: membership and insertion by identity. *)
Definition set_in (r : ref) (s : list ref) : bool :=
  existsb (Nat.eqb r) s.

Definition set_add (r : ref) (s : list ref) : list ref :=
  if set_in r s then s else s ++ [r].

(** A list comprehension whose element expression may raise. *)
Fixpoint comprehension {A B} (f : A -> Py B) (xs : list A) : Py (list B) :=
  match xs with
  | [] => ret []
  | x :: xs' => y <- f x ;; ys <- comprehension f xs' ;; ret (y :: ys)
  end.

(** [enumerate(xs)] *)
Definition enumerate {A} (xs : list A) : list (nat * A) :=
  combine (seq 0 (List.length xs)) xs.

(** ** class LetterArea: deselect *)

Definition deselect : Py unit :=
  s <- get ;;
  match last_path_highlighted s with
  | Some p =>
      removeItem p ;;
      modify (set_last_path_highlighted None)
  | None => ret tt
  end.

(** Modelled from the spec: the connection of the view's [clearHighlight]
    signal is made by the application window, which is not part of the
    module.  The spec has a press in the highlighted state clear the replay
    highlight, so the signal is connected to [LetterArea.deselect]; the
    boolean it carries is dropped. *)
Definition clearHighlight_slot (b : bool) : Py unit := deselect.

(** ** class LetterAreaView *)

Definition mousePressEvent (widget : option ref) : Py unit :=
  s <- get ;;
  if has_highlighted s then
    (* Reset the wheel if a word has been highlighted *)
    modify (set_has_highlighted false) ;;
    emit (clearHighlight true) ;;
    clearHighlight_slot true ;;
    modify (set_mouse_pressed false)
  else
    modify (set_mouse_pressed true) ;;
    s <- get ;;
    match is_tile (heap s) widget with
    | Some widget =>
        if negb (set_in widget (selected_widgets_set s)) then
          modify (set_paint_path []) ;;
          modify (set_selected_widgets_set []) ;;
          modify (fun s => set_selected_widgets_set
                             (set_add widget (selected_widgets_set s)) s) ;;
          modify (set_selected_widgets_list []) ;;
          modify (fun s => set_selected_widgets_list
                             (selected_widgets_list s ++ [widget]) s) ;;
          emit (mouseOverWidget widget)
        else ret tt
    | None => ret tt
    end.

(** One turn of the loop that extends [paint_path]. *)
Definition extend_paint_path (e : nat * ref) : Py unit :=
  let (i, item) := e in
  p <- get_offset_xy item ;;
  if Nat.eqb i 0
  then modify (fun s => set_paint_path (paint_path s ++ [moveTo p]) s)
  else modify (fun s => set_paint_path (paint_path s ++ [lineTo p]) s).

(** The first statement under [if self.mouse_pressed]: the tile under the
    pointer joins the selection. *)
Definition track (widget : option ref) : Py unit :=
  s <- get ;;
  match is_tile (heap s) widget with
  | Some widget =>
      if negb (set_in widget (selected_widgets_set s)) then
        modify (fun s => set_selected_widgets_list
                           (selected_widgets_list s ++ [widget]) s) ;;
        modify (fun s => set_selected_widgets_set
                           (set_add widget (selected_widgets_set s)) s) ;;
        emit (mouseOverWidget widget)
      else ret tt
  | None => ret tt
  end.

(** The second statement: a path item is drawn once two tiles are
    selected. *)
Definition draw_live_path : Py unit :=
  s <- get ;;
  if Nat.ltb 1 (List.length (selected_widgets_list s)) then
    for_each (enumerate (selected_widgets_list s)) extend_paint_path ;;
    (* after the loop [item] is the last selected tile *)
    let item := last (selected_widgets_list s) O in
    s <- get ;;
    path_item <- new (OPath (mkPathItem (paint_path s) (mkPen green 3))) ;;
    modify_tile item (MyQGPixmapItem.set_path_item (Some path_item)) ;;
    addItem path_item
  else ret tt.

Definition mouseMoveEvent (widget : option ref) : Py unit :=
  s <- get ;;
  if mouse_pressed s then
    track widget ;;
    draw_live_path
  else ret tt.

(** The test of the release handler: a path item with a green pen. *)
Definition is_green_path (h : list Obj) (item : ref) : bool :=
  match path_at h item with
  | Some p => GlobalColor_eqb (color (pen p)) green
  | None => false
  end.

Definition get_alpha (x : ref) : Py ascii :=
  t <- tile x ;; ret (MyQGPixmapItem.alpha t).

(** The body of the loop over [scene().items()]. *)
Definition sweep (item : ref) : Py unit :=
  s <- get ;;
  if is_green_path (heap s) item then removeItem item else ret tt.

Definition mouseReleaseEvent : Py unit :=
  s <- get ;;
  for_each (scene s) sweep ;;
  (* Reset status variables *)
  s <- get ;;
  alphas <- comprehension get_alpha (selected_widgets_list s) ;;
  let word := string_of_list_ascii alphas in
  emit (mouseReleaseProc word) ;;
  modify (set_selected_widgets_set []) ;;
  modify (set_selected_widgets_list []) ;;
  modify (set_mouse_pressed false) ;;
  modify (set_paint_path []).

(** ** class LetterArea *)

Definition get_letters (create_letter_img : ascii -> QPixmap)
  : list (ascii * QPixmap) :=
  map (fun alpha => (alpha, create_letter_img alpha))
      (list_ascii_of_string "ABCDEFGHIJKLMNOPQRSTUVWXYZ").

(** [LetterArea.__init__]; the glyph rasteriser is the collaborator that
    [create_letter_img] wraps. *)
Definition LetterArea_init (create_letter_img : ascii -> QPixmap) : World :=
  {| heap := [];
     scene := [];
     mouse_pressed := false;
     selected_widgets_set := [];
     selected_widgets_list := [];
     has_highlighted := false;
     paint_path := [];
     center := mkPoint 50 50;
     radius := 80;
     last_path_highlighted := None;
     letters := get_letters create_letter_img;
     wheel := None;
     emitted := [] |}.

(** [d[k]] on a dict. *)
Fixpoint dict_get {V} (d : list (ascii * V)) (k : ascii) : result V :=
  match d with
  | [] => Raise KeyError
  | (k', v) :: d' => if Ascii.eqb k' k then Ok v else dict_get d' k
  end.

(** The comprehension of [make_word]: one new tile per character, [i]
    counting from the index of the first character of [word]. *)
Fixpoint new_letters (i n : Z) (word : list ascii) : Py (list ref) :=
  match word with
  | [] => ret []
  | alpha :: word' =>
      s <- get ;;
      img <- lift (dict_get (letters s) alpha) ;;
      t <- lift (MyQGPixmapItem.init img i n alpha (center s) (radius s)) ;;
      letter <- new (OTile t) ;;
      rest <- new_letters (i + 1) n word' ;;
      ret (letter :: rest)
  end.

Definition place_letter (letter : ref) : Py unit :=
  modify_tile letter (MyQGPixmapItem.calc_position None false) ;;
  s <- get ;;
  modify_tile letter
    (MyQGPixmapItem.calc_position (Some (radius s - 15)%Z) true) ;;
  addItem letter.

Definition make_word (word : string) : Py unit :=
  let word := list_ascii_of_string word in
  letters <- new_letters 0 (Z.of_nat (List.length word)) word ;;
  for_each letters place_letter ;;
  match letters with
  | [] => raise IndexError
  | letter0 :: _ =>
      p0 <- get_offset_xy letter0 ;;
      ps <- comprehension get_offset_xy letters ;;
      let path := moveTo p0 :: map lineTo ps ++ [closeSubpath] in
      item <- new (OPath (mkPathItem path (mkPen red 3))) ;;
      addItem item ;;
      modify (set_wheel (Some letters))
  end.

(** The inner loop of [word_path]: the first tile of [tmp_letters] with the
    character [w] and a clear [hit] flag is flagged and returned. *)
Fixpoint first_unused (w : ascii) (tmp_letters : list ref)
  : Py (option ref) :=
  match tmp_letters with
  | [] => ret None
  | x :: rest =>
      t <- tile x ;;
      if Ascii.eqb (MyQGPixmapItem.alpha t) w && negb (MyQGPixmapItem.hit t)
      then modify_tile x (MyQGPixmapItem.set_hit true) ;; ret (Some x)
      else first_unused w rest
  end.

(** The outer loop of [word_path]. *)
Fixpoint assign (word : list ascii) (tmp_letters selected : list ref)
  : Py (list ref) :=
  match word with
  | [] => ret selected
  | w :: word' =>
      x <- first_unused w tmp_letters ;;
      assign word' tmp_letters
             (match x with
              | Some x => selected ++ [x]
              | None => selected
              end)
  end.

Definition word_path (word : string) : Py unit :=
  (* Clear any existing highlighted word *)
  s <- get ;;
  match last_path_highlighted s with
  | Some _ => deselect
  | None => ret tt
  end ;;
  (* Create the new word *)
  s <- get ;;
  match wheel s with
  | None => raise AttributeError
  | Some the_wheel =>
      let tmp_letters := the_wheel in
      selected <- assign (list_ascii_of_string word) tmp_letters [] ;;
      (* Highlight the new word *)
      match selected with
      | [] => raise IndexError
      | first :: rest =>
          p0 <- get_offset_xy first ;;
          ps <- comprehension get_offset_xy rest ;;
          let path := moveTo p0 :: map lineTo ps in
          path_item <- new (OPath (mkPathItem path (mkPen blue 3))) ;;
          addItem path_item ;;
          for_each the_wheel
            (fun x => modify_tile x (MyQGPixmapItem.set_hit false)) ;;
          (* Store the path item for later removal *)
          modify (set_last_path_highlighted (Some path_item)) ;;
          modify (set_has_highlighted true)
      end
  end.

(** ** Vocabulary of the statements *)

(** The anchor of a tile: its [offset_xy], the vertex paths go through. *)
Definition anchor (h : list Obj) (r : ref) : option QPointF :=
  match tile_at h r with
  | Some t => MyQGPixmapItem.offset_xy t
  | None => None
  end.

Definition anchors (h : list Obj) (rs : list ref) : list QPointF :=
  flat_map (fun r => match anchor h r with
                     | Some p => [p]
                     | None => []
                     end) rs.

(** The polyline through a sequence of points. *)
Definition polyline (ps : list QPointF) : QPainterPath :=
  match ps with
  | [] => []
  | p :: ps' => moveTo p :: map lineTo ps'
  end.

Definition char_at (h : list Obj) (r : ref) : option ascii :=
  option_map MyQGPixmapItem.alpha (tile_at h r).

Definition chars_of (h : list Obj) (rs : list ref) : list ascii :=
  flat_map (fun r => match char_at h r with
                     | Some a => [a]
                     | None => []
                     end) rs.

(** The word a sequence of tiles spells. *)
Definition spelled (h : list Obj) (rs : list ref) : string :=
  string_of_list_ascii (chars_of h rs).

(** The live-drag shapes on the surface: the green path items. *)
Definition live_paths (s : World) : list ref :=
  filter (is_green_path (heap s)) (scene s).

(** The replay shapes on the surface: the blue path items. *)
Definition is_blue_path (h : list Obj) (item : ref) : bool :=
  match path_at h item with
  | Some p => GlobalColor_eqb (color (pen p)) blue
  | None => false
  end.

(** The tile after the two calls of [calc_position] in the loop of
    [make_word], [rad] being the radius of the area. *)
Definition placed (rad : Z) (t : Tile) : Tile :=
  MyQGPixmapItem.calc_position (Some (rad - 15)%Z) true
    (MyQGPixmapItem.calc_position None false t).

(** The tile [MyQGPixmapItem.__init__] builds for character [k] of a word
    of [n] characters, when the character has a glyph. *)
Definition tile_for (s : World) (n : Z) (k : nat) (a : ascii) (t : Tile)
  : Prop :=
  exists img,
    dict_get (letters s) a = Ok img
    /\ MyQGPixmapItem.init img (Z.of_nat k) n a (center s) (radius s) = Ok t.

(** Every character has a glyph in the dict of the area. *)
Definition has_glyphs (s : World) (word : list ascii) : bool :=
  forallb (fun a => match dict_get (letters s) a with
                    | Ok _ => true
                    | Raise _ => false
                    end) word.

(** The closed outline [make_word] draws through a sequence of points. *)
Definition outline (ps : list QPointF) : QPainterPath :=
  match ps with
  | [] => []
  | p0 :: _ => moveTo p0 :: map lineTo ps ++ [closeSubpath]
  end.

(** *** Well-formed worlds *)

(** Every tile of the heap has been given its anchor. *)
Definition anchored (h : list Obj) : bool :=
  forallb (fun o => match o with
                    | OTile t => match MyQGPixmapItem.offset_xy t with
                                 | Some _ => true
                                 | None => false
                                 end
                    | OPath _ => true
                    end) h.

Definition all_tiles (h : list Obj) (rs : list ref) : bool :=
  forallb (fun r => match tile_at h r with
                    | Some _ => true
                    | None => false
                    end) rs.

Fixpoint nodupb (l : list ref) : bool :=
  match l with
  | [] => true
  | x :: l' => negb (set_in x l') && nodupb l'
  end.

(** The selection holds tiles, and its set and its list agree. *)
Definition selection_ok (s : World) : bool :=
  all_tiles (heap s) (selected_widgets_list s)
  && nodupb (selected_widgets_list s)
  && forallb (fun r => set_in r (selected_widgets_list s))
             (selected_widgets_set s)
  && forallb (fun r => set_in r (selected_widgets_set s))
             (selected_widgets_list s).

(** The scene holds allocated objects only. *)
Definition scene_ok (s : World) : bool :=
  forallb (fun r => Nat.ltb r (List.length (heap s))) (scene s).

(** The tiles [rs] exist and none of them is flagged. *)
Definition unflagged (h : list Obj) (rs : list ref) : bool :=
  forallb (fun r => match tile_at h r with
                    | Some t => negb (MyQGPixmapItem.hit t)
                    | None => false
                    end) rs.

(** The world [mouseReleaseEvent] leaves. *)
Definition released (s : World) : World :=
  mkWorld (heap s)
          (filter (fun r => negb (is_green_path (heap s) r)) (scene s))
          false [] [] (has_highlighted s) []
          (center s) (radius s) (last_path_highlighted s) (letters s)
          (wheel s)
          (emitted s
           ++ [mouseReleaseProc (spelled (heap s) (selected_widgets_list s))]).

(** What the mouse handlers leave alone. *)
Definition same_area (s s' : World) : Prop :=
  wheel s' = wheel s
  /\ last_path_highlighted s' = last_path_highlighted s
  /\ letters s' = letters s
  /\ center s' = center s
  /\ radius s' = radius s.

(** *** Gestures *)

(** A press on [widget] followed by moves over [moves]. *)
Definition drag (widget : option ref) (moves : list (option ref))
  : Py unit :=
  mousePressEvent widget ;; for_each moves mouseMoveEvent.

Inductive MouseEvent :=
| Press (widget : option ref)
| Move (widget : option ref)
| Release.

Definition handle (e : MouseEvent) : Py unit :=
  match e with
  | Press widget => mousePressEvent widget
  | Move widget => mouseMoveEvent widget
  | Release => mouseReleaseEvent
  end.

(** The selection after the pointer enters [widget]. *)
Definition enter (h : list Obj) (widget : option ref) (sel : list ref)
  : list ref :=
  match is_tile h widget with
  | Some r => if set_in r sel then sel else sel ++ [r]
  | None => sel
  end.

(** The tiles among the results of a sequence of hit tests. *)
Definition tiles_among (h : list Obj) (ws : list (option ref)) : list ref :=
  flat_map (fun w => match is_tile h w with
                     | Some r => [r]
                     | None => []
                     end) ws.

(** The distinct elements of a sequence, in the order of their first
    occurrence. *)
Fixpoint distinct (l : list ref) : list ref :=
  match l with
  | [] => []
  | x :: l' => x :: filter (fun y => negb (Nat.eqb x y)) (distinct l')
  end.

(** *** The assignment of the spec

    "For each character of word in order, find the first currently-unused
    tile whose character matches, mark it used, and collect it." *)

Definition unused_match (h : list Obj) (c : ascii) (used : list ref)
           (r : ref) : bool :=
  match char_at h r with
  | Some a => Ascii.eqb a c && negb (set_in r used)
  | None => false
  end.

Definition first_free (h : list Obj) (the_wheel : list ref) (c : ascii)
           (used : list ref) : option ref :=
  find (unused_match h c used) the_wheel.

Fixpoint greedy (h : list Obj) (the_wheel used : list ref)
         (word : list ascii) : list ref :=
  match word with
  | [] => []
  | c :: word' =>
      match first_free h the_wheel c used with
      | Some r => r :: greedy h the_wheel (used ++ [r]) word'
      | None => greedy h the_wheel used word'
      end
  end.

(** The heap after [f] has been applied to the tiles [rs], one by one. *)
Definition retile (f : Tile -> Tile) (rs : list ref) (h : list Obj)
  : list Obj :=
  fold_left (fun h r => match tile_at h r with
                        | Some t => update h r (OTile (f t))
                        | None => h
                        end) rs h.

(** The tiles of the wheel a letter can still be matched with. *)
Definition avail (h : list Obj) (the_wheel used : list ref) (c : ascii)
  : nat :=
  List.length (filter (unused_match h c used) the_wheel).

(** Some letter of [word] is on the wheel. *)
Definition some_letter_on (h : list Obj) (the_wheel : list ref)
           (word : list ascii) : bool :=
  existsb (fun c => Nat.ltb 0 (count_occ ascii_dec (chars_of h the_wheel) c))
          word.

Definition count_char (c : ascii) (l : list ascii) : nat :=
  count_occ ascii_dec l c.

(** Every letter of [word] occurs on the wheel at least as often as in
    [word]: the letters can be matched one-to-one against the tiles. *)
Definition matchable (h : list Obj) (the_wheel : list ref)
           (word : list ascii) : bool :=
  forallb (fun c => Nat.leb (count_char c word)
                            (count_char c (chars_of h the_wheel))) word.


(** Unfolding of the field updates of a world. *)
Ltac setters :=
  unfold set_heap, set_scene, set_mouse_pressed, set_selected_widgets_set,
    set_selected_widgets_list, set_has_highlighted, set_paint_path,
    set_last_path_highlighted, set_wheel, set_emitted;
  cbn [heap scene mouse_pressed selected_widgets_set selected_widgets_list
       has_highlighted paint_path center radius last_path_highlighted
       letters wheel emitted].


(** ** The application as a whole *)

(** What the application does with the two objects: it calls the public
    methods of [LetterArea] and Qt delivers mouse events to the view. *)
Inductive Call :=
| call_make_word (word : string)
| call_word_path (word : string)
| call_deselect
| mouse (e : MouseEvent).

Definition perform (c : Call) : Py unit :=
  match c with
  | call_make_word word => make_word word
  | call_word_path word => word_path word
  | call_deselect => deselect
  | mouse e => handle e
  end.

(** [itemAt] returns an item of the scene, or nothing. *)
Definition hit_test (s : World) (c : Call) : bool :=
  match c with
  | mouse (Press (Some r)) | mouse (Move (Some r)) => set_in r (scene s)
  | _ => true
  end.

(** The worlds the application can be in.  An exception raised by a call
    ends that call and leaves the world as the call had made it: the event
    loop goes on. *)
Inductive reachable (create_letter_img : ascii -> QPixmap)
  : World -> Prop :=
| reachable_init :
    reachable create_letter_img (LetterArea_init create_letter_img)
| reachable_call s c :
    reachable create_letter_img s ->
    hit_test s c = true ->
    reachable create_letter_img (exec (perform c) s).

(** What every call keeps true. *)
Record sound (s : World) : Prop := mk_sound {
  (* the items of the scene are allocated, each is there once *)
  sound_scene : forall r, In r (scene s) ->
                          (r < List.length (heap s))%nat;
  sound_scene_nodup : NoDup (scene s);
  (* the tiles of the scene are placed and not flagged *)
  sound_tiles : forall r t,
      In r (scene s) -> tile_at (heap s) r = Some t ->
      MyQGPixmapItem.hit t = false
      /\ MyQGPixmapItem.offset_xy t <> None;
  (* the wheel holds distinct tiles of the scene *)
  sound_wheel : forall wh,
      wheel s = Some wh ->
      NoDup wh
      /\ forall r, In r wh -> In r (scene s) /\ tile_at (heap s) r <> None;
  (* the selection holds distinct tiles of the scene *)
  sound_selection : selection_ok s = true;
  sound_selected : forall r, In r (selected_widgets_list s) ->
                             In r (scene s);
  (* the blue paths of the scene: the recorded replay and no other *)
  sound_replay :
    filter (is_blue_path (heap s)) (scene s)
    = match last_path_highlighted s with
      | Some p => [p]
      | None => []
      end;
  sound_flag : last_path_highlighted s <> None -> has_highlighted s = true
}.

(** The capital letters, the keys of the dict of glyphs. *)
Definition is_capital (a : ascii) : bool :=
  Nat.leb 65 (nat_of_ascii a) && Nat.leb (nat_of_ascii a) 90.

(** A tile without its [path_item] attribute, the one attribute the mouse
    handlers write. *)
Definition sans_path_item (o : option Tile) : option Tile :=
  option_map (MyQGPixmapItem.set_path_item None) o.


(** A computation that leaves the settings of the area alone: the dict of
    glyphs, the centre and the radius. *)
Definition keeps {A} (m : Py A) : Prop :=
  forall s,
    letters (exec m s) = letters s
    /\ center (exec m s) = center s
    /\ radius (exec m s) = radius s.

(** What a call leaves of the objects that were there before it: nothing
    is freed, a path item is never edited, and of a tile at most the
    [path_item] attribute is written. *)
Definition objects_kept (s s' : World) : Prop :=
  (List.length (heap s) <= List.length (heap s'))%nat
  /\ forall r, (r < List.length (heap s))%nat ->
               path_at (heap s') r = path_at (heap s) r
               /\ sans_path_item (tile_at (heap s') r)
                  = sans_path_item (tile_at (heap s) r).

(** A whole gesture: a press, the moves, the release. *)
Definition gesture (widget : option ref) (moves : list (option ref))
  : list Call :=
  mouse (Press widget) :: map (fun w => mouse (Move w)) moves
  ++ [mouse Release].

(** A sequence of calls, each hit test made on the scene of its time; an
    exception ends the sequence. *)
Fixpoint hit_tests (s : World) (cs : list Call) : bool :=
  match cs with
  | [] => true
  | c :: cs' => hit_test s c && hit_tests (exec (perform c) s) cs'
  end.
(** ** Running examples *)

Definition glyph (alpha : ascii) : QPixmap := mkPixmap 26 28.

Definition fresh : World := LetterArea_init glyph.

(** The wheel of the spec's example, and a wheel with a single Z. *)
Definition tractor : World := exec (make_word "TRACTOR") fresh.

Definition zap : World := exec (make_word "ZAP") fresh.

(** The tractor wheel with the replay of CAT showing. *)
Definition tractor_cat : World := exec (word_path "CAT") tractor.

(** A press on the tile C of the tractor wheel; then a move over A. *)
Definition tractor_C : World := exec (mousePressEvent (Some 3%nat)) tractor.

Definition tractor_CA : World := exec (mouseMoveEvent (Some 2%nat)) tractor_C.

(** The replay of CAT dismissed by a press, the button still down. *)
Definition tractor_dismissed : World :=
  exec (drag (Some 3%nat) [Some 2%nat]) tractor_cat.


(** * Properties *)

Unset Implicit Arguments.

(** ** The heap *)

Lemma update_length {A} (l : list A) n x :
  List.length (update l n x) = List.length l.
Proof.
  revert n; induction l as [|y l IH]; intros [|n]; simpl; auto.
Qed.

Lemma nth_error_update_eq {A} (l : list A) n x :
  (n < List.length l)%nat -> nth_error (update l n x) n = Some x.
Proof.
  revert n; induction l as [|y l IH]; intros [|n] H; simpl in *;
    try lia; auto.
  apply IH; lia.
Qed.

Lemma nth_error_update_neq {A} (l : list A) n m x :
  n <> m -> nth_error (update l n x) m = nth_error l m.
Proof.
  revert n m; induction l as [|y l IH]; intros [|n] [|m] H; simpl;
    try congruence; auto.
Qed.

Lemma tile_at_lt h r t : tile_at h r = Some t -> (r < List.length h)%nat.
Proof.
  unfold tile_at. destruct (nth_error h r) eqn:E; try discriminate.
  intros _. apply nth_error_Some. congruence.
Qed.

Lemma path_at_lt h r p : path_at h r = Some p -> (r < List.length h)%nat.
Proof.
  unfold path_at. destruct (nth_error h r) eqn:E; try discriminate.
  intros _. apply nth_error_Some. congruence.
Qed.

Lemma tile_at_update_eq h r t t' :
  tile_at h r = Some t -> tile_at (update h r (OTile t')) r = Some t'.
Proof.
  intros H. unfold tile_at.
  rewrite nth_error_update_eq by (eapply tile_at_lt; eauto). reflexivity.
Qed.

Lemma tile_at_update_neq h r r' o :
  r <> r' -> tile_at (update h r o) r' = tile_at h r'.
Proof. intros H. unfold tile_at. now rewrite nth_error_update_neq. Qed.

Lemma path_at_update_tile h r r' t :
  tile_at h r <> None -> path_at (update h r (OTile t)) r' = path_at h r'.
Proof.
  intros H. unfold path_at. destruct (Nat.eq_dec r r') as [->|N].
  - destruct (tile_at h r') as [t0|] eqn:E; [|congruence].
    rewrite nth_error_update_eq by (eapply tile_at_lt; eauto).
    unfold tile_at in E. destruct (nth_error h r') as [[|]|]; congruence.
  - now rewrite nth_error_update_neq.
Qed.

Lemma tile_at_app_l h h' r :
  (r < List.length h)%nat -> tile_at (h ++ h') r = tile_at h r.
Proof. intros H. unfold tile_at. now rewrite nth_error_app1. Qed.

Lemma path_at_app_l h h' r :
  (r < List.length h)%nat -> path_at (h ++ h') r = path_at h r.
Proof. intros H. unfold path_at. now rewrite nth_error_app1. Qed.

Lemma tile_at_app_path h p r :
  tile_at (h ++ [OPath p]) r = tile_at h r.
Proof.
  unfold tile_at. destruct (Nat.lt_ge_cases r (List.length h)) as [L|G].
  - now rewrite nth_error_app1.
  - rewrite nth_error_app2 by lia.
    replace (nth_error h r) with (@None Obj)
      by (symmetry; apply nth_error_None; lia).
    destruct (r - List.length h)%nat as [|[|k]]; reflexivity.
Qed.

Lemma path_at_app_new h p :
  path_at (h ++ [OPath p]) (List.length h) = Some p.
Proof.
  unfold path_at. rewrite nth_error_app2 by lia.
  now rewrite Nat.sub_diag.
Qed.

(** ** Sets of references *)

Lemma set_in_In r s : set_in r s = true <-> In r s.
Proof.
  unfold set_in. rewrite existsb_exists. split.
  - intros (x & Hx & E). apply Nat.eqb_eq in E. now subst.
  - intros H. exists r. split; auto. apply Nat.eqb_refl.
Qed.

Lemma set_in_false r s : set_in r s = false <-> ~ In r s.
Proof.
  rewrite <- set_in_In. destruct (set_in r s); split; congruence.
Qed.

(** ** Lists *)

Lemma filter_remove (P : ref -> bool) x l :
  filter P (remove Nat.eq_dec x l)
  = filter (fun r => P r && negb (Nat.eqb x r)) l.
Proof.
  induction l as [|y l IH]; simpl; auto.
  destruct (Nat.eq_dec x y) as [->|N].
  - rewrite Nat.eqb_refl, andb_false_r. exact IH.
  - apply Nat.eqb_neq in N. rewrite N, andb_true_r.
    simpl. destruct (P y); simpl; now rewrite IH.
Qed.

Lemma filter_all {A} (l : list A) : filter (fun _ => true) l = l.
Proof. induction l; simpl; congruence. Qed.

Lemma nodupb_NoDup l : nodupb l = true <-> NoDup l.
Proof.
  induction l as [|x l IH]; simpl.
  - split; auto using NoDup_nil.
  - rewrite andb_true_iff, negb_true_iff, set_in_false, IH. split.
    + intros [H1 H2]. now constructor.
    + intros H. inversion H; auto.
Qed.

Lemma all_tiles_spec h rs :
  all_tiles h rs = true <-> forall r, In r rs -> tile_at h r <> None.
Proof.
  unfold all_tiles. rewrite forallb_forall. split; intros H r Hr;
    specialize (H r Hr); destruct (tile_at h r); congruence.
Qed.

Lemma anchored_spec h r t :
  anchored h = true -> tile_at h r = Some t ->
  exists p, MyQGPixmapItem.offset_xy t = Some p.
Proof.
  unfold anchored, tile_at. intros H E.
  destruct (nth_error h r) as [[t'|]|] eqn:N; try discriminate.
  injection E as ->. apply nth_error_In in N.
  rewrite forallb_forall in H. specialize (H _ N). simpl in H.
  destruct (MyQGPixmapItem.offset_xy t); [eauto | discriminate].
Qed.

(** ** Worlds *)

Lemma set_scene_id s : set_scene (scene s) s = s.
Proof. now destruct s. Qed.

Lemma set_paint_path_id s : set_paint_path (paint_path s) s = s.
Proof. now destruct s. Qed.

Lemma set_heap_id s : set_heap (heap s) s = s.
Proof. now destruct s. Qed.

(** ** mouseReleaseEvent *)

Lemma set_scene_twice a b s : set_scene a (set_scene b s) = set_scene a s.
Proof. reflexivity. Qed.

Lemma sweep_loop xs : forall s,
  for_each xs sweep s
  = (set_scene
       (filter (fun r => negb (is_green_path (heap s) r && set_in r xs))
               (scene s)) s,
     Ok tt).
Proof.
  induction xs as [|x xs IH]; intros s.
  - simpl. unfold ret.
    rewrite (filter_ext _ (fun _ => true)), filter_all.
    + now rewrite set_scene_id.
    + intros a. now rewrite andb_false_r.
  - simpl. unfold bind at 1. unfold sweep at 1.
    unfold bind, get. destruct (is_green_path (heap s) x) eqn:G.
    + unfold removeItem, modify. rewrite IH, set_scene_twice.
      change (heap (set_scene _ s)) with (heap s).
      change (scene (set_scene ?a s)) with a.
      rewrite filter_remove.
      rewrite (filter_ext
                 (fun r => negb (is_green_path (heap s) r && set_in r xs)
                           && negb (Nat.eqb x r))
                 (fun r => negb (is_green_path (heap s) r
                                 && set_in r (x :: xs)))); auto.
      intros a. unfold set_in at 2. simpl. fold (set_in a xs).
      rewrite (Nat.eqb_sym a x).
      destruct (Nat.eqb x a) eqn:E; simpl.
      * apply Nat.eqb_eq in E. subst a. now rewrite G, andb_false_r.
      * now rewrite andb_true_r.
    + unfold ret. rewrite IH.
      rewrite (filter_ext
                 (fun r => negb (is_green_path (heap s) r && set_in r xs))
                 (fun r => negb (is_green_path (heap s) r
                                 && set_in r (x :: xs)))); auto.
      intros a. unfold set_in at 2. simpl. fold (set_in a xs).
      destruct (Nat.eqb a x) eqn:E; simpl; auto.
      apply Nat.eqb_eq in E. subst a. now rewrite G.
Qed.

Lemma comprehension_get_alpha rs : forall s,
  all_tiles (heap s) rs = true ->
  comprehension get_alpha rs s = (s, Ok (chars_of (heap s) rs)).
Proof.
  induction rs as [|r rs IH]; intros s H; simpl in *; auto.
  apply andb_true_iff in H. destruct H as [H1 H2].
  unfold bind at 1. unfold get_alpha at 1, bind, tile, char_at.
  destruct (tile_at (heap s) r) as [t|]; [|discriminate].
  unfold ret at 1. rewrite (IH s H2). reflexivity.
Qed.

Lemma mouseReleaseEvent_spec s :
  all_tiles (heap s) (selected_widgets_list s) = true ->
  mouseReleaseEvent s = (released s, Ok tt).
Proof.
  intros H. unfold mouseReleaseEvent.
  unfold bind at 1. unfold get at 1.
  unfold bind at 1. rewrite sweep_loop.
  unfold bind at 1. unfold get at 1.
  unfold bind at 1. rewrite comprehension_get_alpha by exact H.
  rewrite (filter_ext_in
             (fun r => negb (is_green_path (heap s) r && set_in r (scene s)))
             (fun r => negb (is_green_path (heap s) r))).
  - reflexivity.
  - intros a Ha. apply set_in_In in Ha. now rewrite Ha, andb_true_r.
Qed.

(** ** Well-formedness, as propositions *)

Lemma anchored_iff h :
  anchored h = true
  <-> forall r t, tile_at h r = Some t -> MyQGPixmapItem.offset_xy t <> None.
Proof.
  split.
  - intros H r t E. destruct (anchored_spec _ _ _ H E) as [p Hp]. congruence.
  - intros H. unfold anchored. apply forallb_forall. intros [t|p] Hin; auto.
    destruct (In_nth_error _ _ Hin) as [r Hr].
    specialize (H r t). unfold tile_at in H. rewrite Hr in H.
    destruct (MyQGPixmapItem.offset_xy t); auto. now elim H.
Qed.

Lemma selection_ok_iff s :
  selection_ok s = true
  <-> (forall r, In r (selected_widgets_list s) -> tile_at (heap s) r <> None)
      /\ NoDup (selected_widgets_list s)
      /\ (forall r, In r (selected_widgets_set s)
                    <-> In r (selected_widgets_list s)).
Proof.
  unfold selection_ok. rewrite !andb_true_iff, all_tiles_spec, nodupb_NoDup,
    !forallb_forall.
  split.
  - intros [[[H1 H2] H3] H4]. repeat split; auto.
    + intros Hr. apply set_in_In. auto.
    + intros Hr. apply set_in_In. auto.
  - intros (H1 & H2 & H3). repeat split; auto.
    + intros r Hr. apply set_in_In, H3, Hr.
    + intros r Hr. apply set_in_In, H3, Hr.
Qed.

Lemma tile_at_char h r t :
  tile_at h r = Some t -> char_at h r = Some (MyQGPixmapItem.alpha t).
Proof. unfold char_at. now intros ->. Qed.

Lemma char_at_tile h r : char_at h r <> None <-> tile_at h r <> None.
Proof. unfold char_at. destruct (tile_at h r); simpl; split; congruence. Qed.

Lemma is_tile_ext h h' w :
  (forall r, char_at h' r = char_at h r) -> is_tile h' w = is_tile h w.
Proof.
  intros H. destruct w as [r|]; simpl; auto.
  specialize (H r). unfold char_at in H.
  destruct (tile_at h' r), (tile_at h r); simpl in H; congruence.
Qed.

Lemma chars_of_ext h h' rs :
  (forall r, char_at h' r = char_at h r) -> chars_of h' rs = chars_of h rs.
Proof.
  intros H. unfold chars_of. induction rs as [|r rs IH]; simpl; auto.
  now rewrite H, IH.
Qed.

Lemma anchors_ext h h' rs :
  (forall r, anchor h' r = anchor h r) -> anchors h' rs = anchors h rs.
Proof.
  intros H. unfold anchors. induction rs as [|r rs IH]; simpl; auto.
  now rewrite H, IH.
Qed.

(** ** mousePressEvent *)

Lemma press_highlighted s widget :
  has_highlighted s = true ->
  mousePressEvent widget s
  = (set_mouse_pressed false
       (exec deselect
             (set_emitted (emitted s ++ [clearHighlight true])
                          (set_has_highlighted false s))),
     Ok tt).
Proof.
  intros H. unfold mousePressEvent, bind, get. rewrite H.
  unfold modify, emit, modify, clearHighlight_slot, exec, deselect, bind, get.
  simpl. destruct (last_path_highlighted s); reflexivity.
Qed.

Lemma press_tile s r :
  has_highlighted s = false ->
  tile_at (heap s) r <> None ->
  set_in r (selected_widgets_set s) = false ->
  mousePressEvent (Some r) s
  = (mkWorld (heap s) (scene s) true [r] [r] false []
             (center s) (radius s) (last_path_highlighted s) (letters s)
             (wheel s) (emitted s ++ [mouseOverWidget r]),
     Ok tt).
Proof.
  intros H T I. unfold mousePressEvent, bind, get. rewrite H.
  unfold modify. simpl. destruct (tile_at (heap s) r); [|congruence].
  rewrite I. simpl. unfold emit, modify.
  destruct s; simpl in *. now subst.
Qed.

Lemma press_selected s r :
  has_highlighted s = false ->
  set_in r (selected_widgets_set s) = true ->
  mousePressEvent (Some r) s = (set_mouse_pressed true s, Ok tt).
Proof.
  intros H I. unfold mousePressEvent, bind, get. rewrite H.
  unfold modify. simpl. destruct (tile_at (heap s) r); auto.
  now rewrite I.
Qed.

Lemma press_elsewhere s widget :
  has_highlighted s = false ->
  is_tile (heap s) widget = None ->
  mousePressEvent widget s = (set_mouse_pressed true s, Ok tt).
Proof.
  intros H T. unfold mousePressEvent, bind, get. rewrite H.
  unfold modify. simpl. now rewrite T.
Qed.

(** ** mouseMoveEvent *)

Lemma track_spec s widget :
  track widget s
  = (match is_tile (heap s) widget with
     | Some r =>
         if set_in r (selected_widgets_set s) then s
         else set_emitted (emitted s ++ [mouseOverWidget r])
                (set_selected_widgets_set
                   (set_add r (selected_widgets_set s))
                   (set_selected_widgets_list
                      (selected_widgets_list s ++ [r]) s))
     | None => s
     end, Ok tt).
Proof.
  unfold track, bind, get. destruct (is_tile (heap s) widget) as [r|]; auto.
  destruct (set_in r (selected_widgets_set s)); reflexivity.
Qed.

Lemma set_paint_path_twice a b s :
  set_paint_path a (set_paint_path b s) = set_paint_path a s.
Proof. reflexivity. Qed.

Lemma anchors_cons h x xs p :
  anchor h x = Some p -> anchors h (x :: xs) = p :: anchors h xs.
Proof. intros H. unfold anchors. simpl. now rewrite H. Qed.

Lemma anchor_tile h r p :
  anchor h r = Some p ->
  exists t, tile_at h r = Some t /\ MyQGPixmapItem.offset_xy t = Some p.
Proof.
  unfold anchor. destruct (tile_at h r) as [t|]; [|discriminate]. eauto.
Qed.

Lemma anchored_anchor h rs :
  anchored h = true ->
  all_tiles h rs = true ->
  forall r, In r rs -> anchor h r <> None.
Proof.
  intros A T r Hr. rewrite all_tiles_spec in T. specialize (T r Hr).
  unfold anchor. destruct (tile_at h r) as [t|] eqn:E; [|congruence].
  destruct (anchored_spec _ _ _ A E) as [p ->]. discriminate.
Qed.

(** The loop over [enumerate(self.selected_widgets_list)], for tiles that
    have their anchor. *)
Lemma extend_loop_at xs : forall k s,
  (forall r, In r xs -> anchor (heap s) r <> None) ->
  for_each (combine (seq k (List.length xs)) xs) extend_paint_path s
  = (set_paint_path
       (paint_path s ++ match k with
                        | O => polyline (anchors (heap s) xs)
                        | S _ => map lineTo (anchors (heap s) xs)
                        end) s,
     Ok tt).
Proof.
  induction xs as [|x xs IH]; intros k s A.
  - simpl. unfold ret. destruct k; simpl;
      now rewrite app_nil_r, set_paint_path_id.
  - destruct (anchor (heap s) x) as [p|] eqn:Ha.
    2:{ elim (A x); auto. now left. }
    destruct (anchor_tile _ _ _ Ha) as (t & E & Hp).
    rewrite (anchors_cons _ _ _ _ Ha).
    cbn [List.length seq combine for_each].
    unfold bind at 1. unfold extend_paint_path at 1.
    unfold bind, get_offset_xy, bind, tile. rewrite E, Hp. unfold ret.
    destruct k as [|k]; cbn [Nat.eqb]; unfold modify;
      rewrite IH by (intros; apply A; now right);
      rewrite set_paint_path_twice;
      cbn [heap paint_path set_paint_path polyline map];
      now rewrite <- app_assoc.
Qed.

Lemma extend_loop xs : forall k s,
  anchored (heap s) = true ->
  all_tiles (heap s) xs = true ->
  for_each (combine (seq k (List.length xs)) xs) extend_paint_path s
  = (set_paint_path
       (paint_path s ++ match k with
                        | O => polyline (anchors (heap s) xs)
                        | S _ => map lineTo (anchors (heap s) xs)
                        end) s,
     Ok tt).
Proof.
  intros k s A T. apply extend_loop_at. now apply anchored_anchor.
Qed.

Lemma last_In (l : list ref) d : l <> [] -> In (last l d) l.
Proof.
  induction l as [|x l IH]; [congruence|]. intros _.
  destruct l as [|y l]; [now left|]. right. apply IH. congruence.
Qed.

Lemma draw_live_path_at s :
  (forall r, In r (selected_widgets_list s) -> anchor (heap s) r <> None) ->
  let sel := selected_widgets_list s in
  Nat.ltb 1 (List.length sel) = true ->
  exists t,
    tile_at (heap s) (last sel O) = Some t
    /\ draw_live_path s
       = (let path := paint_path s ++ polyline (anchors (heap s) sel) in
          set_scene (scene s ++ [List.length (heap s)])
            (set_heap
               (update
                  (heap s ++ [OPath (mkPathItem path (mkPen green 3))])
                  (last sel O)
                  (OTile (MyQGPixmapItem.set_path_item
                            (Some (List.length (heap s))) t)))
               (set_paint_path path s)),
          Ok tt).
Proof.
  intros A sel L. subst sel.
  assert (NE : selected_widgets_list s <> []).
  { intros E. rewrite E in L. discriminate. }
  pose proof (last_In _ O NE) as Hin.
  destruct (anchor (heap s) (last (selected_widgets_list s) O)) as [p|] eqn:Ha.
  2:{ elim (A _ Hin). exact Ha. }
  destruct (anchor_tile _ _ _ Ha) as (t & E & _).
  exists t. split; auto.
  unfold draw_live_path. unfold bind at 1. unfold get at 1. rewrite L.
  unfold bind at 1. unfold enumerate.
  rewrite extend_loop_at by assumption.
  unfold bind, get, new, modify_tile, bind, tile, addItem, modify.
  cbn [heap set_heap set_paint_path paint_path].
  rewrite tile_at_app_path, E. reflexivity.
Qed.

Lemma draw_live_path_spec s :
  anchored (heap s) = true ->
  all_tiles (heap s) (selected_widgets_list s) = true ->
  let sel := selected_widgets_list s in
  Nat.ltb 1 (List.length sel) = true ->
  exists t,
    tile_at (heap s) (last sel O) = Some t
    /\ draw_live_path s
       = (let path := paint_path s ++ polyline (anchors (heap s) sel) in
          set_scene (scene s ++ [List.length (heap s)])
            (set_heap
               (update
                  (heap s ++ [OPath (mkPathItem path (mkPen green 3))])
                  (last sel O)
                  (OTile (MyQGPixmapItem.set_path_item
                            (Some (List.length (heap s))) t)))
               (set_paint_path path s)),
          Ok tt).
Proof.
  intros A T. apply draw_live_path_at. now apply anchored_anchor.
Qed.

Lemma tile_at_drawn h item t t' p r :
  tile_at h item = Some t ->
  tile_at (update (h ++ [OPath p]) item (OTile t')) r
  = if Nat.eqb r item then Some t' else tile_at h r.
Proof.
  intros E. destruct (Nat.eqb r item) eqn:N.
  - apply Nat.eqb_eq in N. subst r.
    apply tile_at_update_eq with (t := t). now rewrite tile_at_app_path.
  - apply Nat.eqb_neq in N.
    rewrite tile_at_update_neq by congruence. apply tile_at_app_path.
Qed.

Lemma path_at_drawn_old h item t t' p r :
  tile_at h item = Some t ->
  (r < List.length h)%nat ->
  path_at (update (h ++ [OPath p]) item (OTile t')) r = path_at h r.
Proof.
  intros E L. rewrite path_at_update_tile.
  - now apply path_at_app_l.
  - rewrite tile_at_app_path. congruence.
Qed.

Lemma path_at_drawn_new h item t t' p :
  tile_at h item = Some t ->
  path_at (update (h ++ [OPath p]) item (OTile t')) (List.length h) = Some p.
Proof.
  intros E. rewrite path_at_update_tile.
  - apply path_at_app_new.
  - rewrite tile_at_app_path. congruence.
Qed.

Lemma enter_set_in h widget sel r :
  is_tile h widget = Some r ->
  enter h widget sel = if set_in r sel then sel else sel ++ [r].
Proof. unfold enter. now intros ->. Qed.

Lemma set_in_congr r s l :
  (forall x, In x s <-> In x l) -> set_in r s = set_in r l.
Proof.
  intros H. destruct (set_in r l) eqn:E.
  - apply set_in_In. apply H. now apply set_in_In.
  - apply set_in_false. rewrite H. now apply set_in_false.
Qed.

Lemma In_set_add x r s : In x (set_add r s) <-> In x s \/ x = r.
Proof.
  unfold set_add. destruct (set_in r s) eqn:E.
  - apply set_in_In in E. split; [tauto|]. intros [H| ->]; auto.
  - rewrite in_app_iff. simpl. split; intros [H|H]; auto.
    + destruct H; auto. contradiction.
Qed.

Lemma is_tile_Some h widget r :
  is_tile h widget = Some r -> widget = Some r /\ tile_at h r <> None.
Proof.
  destruct widget as [x|]; simpl; [|discriminate].
  destruct (tile_at h x) eqn:E; [|discriminate].
  intros [= ->]. split; congruence.
Qed.

(** The selection after [track]. *)
Lemma track_ok s widget :
  selection_ok s = true ->
  let s1 := exec (track widget) s in
  heap s1 = heap s
  /\ scene s1 = scene s
  /\ paint_path s1 = paint_path s
  /\ mouse_pressed s1 = mouse_pressed s
  /\ has_highlighted s1 = has_highlighted s
  /\ same_area s s1
  /\ selected_widgets_list s1
     = enter (heap s) widget (selected_widgets_list s)
  /\ selection_ok s1 = true
  /\ emitted s1
     = emitted s
       ++ map mouseOverWidget
              (skipn (List.length (selected_widgets_list s))
                     (selected_widgets_list s1)).
Proof.
  intros OK s1. subst s1. unfold exec. rewrite track_spec. cbn [fst].
  pose proof OK as OK'. apply selection_ok_iff in OK'.
  destruct OK' as (T & ND & EQ).
  unfold enter, same_area.
  destruct (is_tile (heap s) widget) as [r|] eqn:I.
  2:{ repeat split; auto. now rewrite skipn_all, app_nil_r. }
  rewrite (set_in_congr r _ _ EQ).
  destruct (set_in r (selected_widgets_list s)) eqn:M.
  { repeat split; auto. now rewrite skipn_all, app_nil_r. }
  setters. repeat split; auto.
  - apply selection_ok_iff. setters.
    destruct (is_tile_Some _ _ _ I) as [_ Tr].
    apply set_in_false in M. repeat split.
    + intros x Hx. apply in_app_iff in Hx. destruct Hx as [Hx|[<-|[]]]; auto.
    + apply NoDup_app; auto.
      * constructor; auto. constructor.
      * intros x Hx [<-|[]]. contradiction.
    + rewrite In_set_add, in_app_iff, EQ. simpl. intuition.
    + rewrite In_set_add, in_app_iff, EQ. simpl. intuition.
  - rewrite skipn_app, skipn_all, Nat.sub_diag. reflexivity.
Qed.

Lemma scene_ok_iff s :
  scene_ok s = true
  <-> forall r, In r (scene s) -> (r < List.length (heap s))%nat.
Proof.
  unfold scene_ok. rewrite forallb_forall.
  split; intros H r Hr; specialize (H r Hr); now apply Nat.ltb_lt.
Qed.

Lemma mouseMoveEvent_released s widget :
  mouse_pressed s = false -> mouseMoveEvent widget s = (s, Ok tt).
Proof. intros H. unfold mouseMoveEvent, bind, get. now rewrite H. Qed.

Lemma mouseMoveEvent_pressed_at s widget :
  mouse_pressed s = true ->
  (forall r, In r (enter (heap s) widget (selected_widgets_list s)) ->
             anchor (heap s) r <> None) ->
  selection_ok s = true ->
  let sel := enter (heap s) widget (selected_widgets_list s) in
  exists s',
    mouseMoveEvent widget s = (s', Ok tt)
    /\ selected_widgets_list s' = sel
    /\ selection_ok s' = true
    /\ (forall r,
          option_map (MyQGPixmapItem.set_path_item None)
                     (tile_at (heap s') r)
          = option_map (MyQGPixmapItem.set_path_item None)
                       (tile_at (heap s) r))
    /\ mouse_pressed s' = true
    /\ has_highlighted s' = has_highlighted s
    /\ same_area s s'
    /\ (forall r, char_at (heap s') r = char_at (heap s) r)
    /\ (forall r, anchor (heap s') r = anchor (heap s) r)
    /\ (forall r, (r < List.length (heap s))%nat ->
                  path_at (heap s') r = path_at (heap s) r)
    /\ (scene_ok s = true -> scene_ok s' = true)
    /\ emitted s'
       = emitted s
         ++ map mouseOverWidget
                (skipn (List.length (selected_widgets_list s)) sel)
    /\ if Nat.ltb 1 (List.length sel) then
         let path := paint_path s ++ polyline (anchors (heap s) sel) in
         scene s' = scene s ++ [List.length (heap s)]
         /\ path_at (heap s') (List.length (heap s))
            = Some (mkPathItem path (mkPen green 3))
         /\ paint_path s' = path
       else
         scene s' = scene s /\ heap s' = heap s
         /\ paint_path s' = paint_path s.
Proof.
  intros P A OK sel.
  destruct (track_ok s widget OK)
    as (Hh & Hsc & Hpp & Hmp & Hhh & Har & Hl & OK1 & Hem).
  set (s1 := exec (track widget) s) in *.
  assert (Htr : track widget s = (s1, Ok tt)).
  { unfold s1, exec. now rewrite track_spec. }
  unfold mouseMoveEvent, bind, get. rewrite P, Htr.
  fold sel in Hl, Hem.
  destruct (Nat.ltb 1 (List.length sel)) eqn:L.
  - assert (A1 : forall r, In r (selected_widgets_list s1) ->
                            anchor (heap s1) r <> None).
    { intros r Hr. rewrite Hh. apply A. rewrite Hl in Hr. exact Hr. }
    assert (L1 : Nat.ltb 1 (List.length (selected_widgets_list s1)) = true)
      by now rewrite Hl.
    destruct (draw_live_path_at s1 A1 L1) as (t & Et & Eq).
    rewrite Eq. cbv zeta. eexists. split; [reflexivity|].
    rewrite Hh, Hpp, Hl, Hsc in *. setters.
    set (item := last sel O) in *.
    set (h' := update _ _ _).
    assert (TA : forall r, tile_at h' r
                           = if Nat.eqb r item
                             then Some (MyQGPixmapItem.set_path_item
                                          (Some (List.length (heap s))) t)
                             else tile_at (heap s) r).
    { intros r. unfold h'. now apply tile_at_drawn with (t := t). }
    assert (CA : forall r, char_at h' r = char_at (heap s) r).
    { intros r. unfold char_at. rewrite TA.
      destruct (Nat.eqb r item) eqn:N; auto.
      apply Nat.eqb_eq in N. subst r. now rewrite Et. }
    assert (AA : forall r, anchor h' r = anchor (heap s) r).
    { intros r. unfold anchor. rewrite TA.
      destruct (Nat.eqb r item) eqn:N; auto.
      apply Nat.eqb_eq in N. subst r. now rewrite Et. }
    assert (LEN : List.length h' = S (List.length (heap s))).
    { unfold h'. rewrite update_length, length_app. simpl. lia. }
    repeat split; auto; try apply Har; try congruence.
    + apply selection_ok_iff in OK1. apply selection_ok_iff. setters.
      rewrite Hh in OK1. destruct OK1 as (T & ND & EQ).
      repeat split; auto; try apply EQ.
      intros r Hr. apply char_at_tile. rewrite CA. apply char_at_tile. auto.
    + intros r. rewrite TA. destruct (Nat.eqb r item) eqn:N; auto.
      apply Nat.eqb_eq in N. subst r. now rewrite Et.
    + intros r Hr. unfold h'. now apply path_at_drawn_old with (t := t).
    + intros SO. apply scene_ok_iff. setters. rewrite LEN.
      rewrite scene_ok_iff in SO. intros r Hr.
      apply in_app_iff in Hr. destruct Hr as [Hr|[<-|[]]]; auto.
      specialize (SO r Hr). lia.
    + unfold h'. now apply path_at_drawn_new with (t := t).
  - unfold draw_live_path, bind, get. rewrite Hl, L. unfold ret.
    eexists. split; [reflexivity|].
    rewrite Hh. repeat split; auto; try apply Har; try congruence.
    + intros SO. apply scene_ok_iff. rewrite Hh, Hsc.
      now apply scene_ok_iff.
Qed.

Lemma enter_In h widget sel r :
  In r (enter h widget sel) -> In r sel \/ is_tile h widget = Some r.
Proof.
  unfold enter. destruct (is_tile h widget) as [x|]; auto.
  destruct (set_in x sel); auto.
  intros H. apply in_app_iff in H. destruct H as [H|[<-|[]]]; auto.
Qed.

Lemma mouseMoveEvent_pressed s widget :
  mouse_pressed s = true ->
  anchored (heap s) = true ->
  selection_ok s = true ->
  let sel := enter (heap s) widget (selected_widgets_list s) in
  exists s',
    mouseMoveEvent widget s = (s', Ok tt)
    /\ selected_widgets_list s' = sel
    /\ selection_ok s' = true
    /\ anchored (heap s') = true
    /\ mouse_pressed s' = true
    /\ has_highlighted s' = has_highlighted s
    /\ same_area s s'
    /\ (forall r, char_at (heap s') r = char_at (heap s) r)
    /\ (forall r, anchor (heap s') r = anchor (heap s) r)
    /\ (forall r, (r < List.length (heap s))%nat ->
                  path_at (heap s') r = path_at (heap s) r)
    /\ (scene_ok s = true -> scene_ok s' = true)
    /\ emitted s'
       = emitted s
         ++ map mouseOverWidget
                (skipn (List.length (selected_widgets_list s)) sel)
    /\ if Nat.ltb 1 (List.length sel) then
         let path := paint_path s ++ polyline (anchors (heap s) sel) in
         scene s' = scene s ++ [List.length (heap s)]
         /\ path_at (heap s') (List.length (heap s))
            = Some (mkPathItem path (mkPen green 3))
         /\ paint_path s' = path
       else
         scene s' = scene s /\ heap s' = heap s
         /\ paint_path s' = paint_path s.
Proof.
  intros P A OK sel.
  assert (AS : forall r, In r sel -> anchor (heap s) r <> None).
  { intros r Hr. unfold anchor.
    assert (T : tile_at (heap s) r <> None).
    { apply enter_In in Hr. destruct Hr as [Hr|Hr].
      - apply selection_ok_iff in OK. destruct OK as (T & _). auto.
      - apply is_tile_Some in Hr. tauto. }
    destruct (tile_at (heap s) r) as [t|] eqn:E; [|congruence].
    destruct (anchored_spec _ _ _ A E) as [p ->]. discriminate. }
  destruct (mouseMoveEvent_pressed_at s widget P AS OK)
    as (s' & E & H1 & H2 & H3 & H4 & H5 & H6 & H7 & H8 & H9 & H10 & H11
        & H12).
  exists s'. repeat split; try assumption; try apply H6.
  apply anchored_iff. intros r t' Et'. specialize (H3 r).
  rewrite Et' in H3. destruct (tile_at (heap s) r) as [t|] eqn:Et;
    [|discriminate].
  apply (f_equal (fun o => match o with
                           | Some x => MyQGPixmapItem.offset_xy x
                           | None => None
                           end)) in H3.
  cbn in H3. rewrite H3. rewrite anchored_iff in A. exact (A _ _ Et).
Qed.

(** ** Gestures *)

Lemma filter_filter {A} (f g : A -> bool) l :
  filter f (filter g l) = filter (fun x => g x && f x) l.
Proof.
  induction l as [|x l IH]; simpl; auto.
  destruct (g x); simpl; [destruct (f x)|]; now rewrite IH.
Qed.

Lemma enter_extends h widget sel :
  exists added, enter h widget sel = sel ++ added.
Proof.
  unfold enter. destruct (is_tile h widget) as [r|].
  - destruct (set_in r sel);
      [exists []; now rewrite app_nil_r | exists [r]; reflexivity].
  - exists []. now rewrite app_nil_r.
Qed.

Lemma enter_fold_distinct h moves : forall sel,
  fold_left (fun sel w => enter h w sel) moves sel
  = sel ++ filter (fun r => negb (set_in r sel))
                  (distinct (tiles_among h moves)).
Proof.
  induction moves as [|w moves IH]; intros sel; simpl.
  - now rewrite app_nil_r.
  - rewrite IH. unfold enter, tiles_among. simpl.
    fold (tiles_among h moves).
    destruct (is_tile h w) as [r|]; simpl; auto.
    destruct (set_in r sel) eqn:M; simpl.
    + f_equal. rewrite filter_filter. apply filter_ext. intros x.
      destruct (Nat.eqb r x) eqn:E; simpl; auto.
      apply Nat.eqb_eq in E. subst x. now rewrite M.
    + rewrite <- app_assoc. simpl. f_equal. f_equal.
      rewrite filter_filter. apply filter_ext. intros x.
      unfold set_in. rewrite existsb_app. simpl.
      rewrite orb_false_r, negb_orb, (Nat.eqb_sym x r).
      apply andb_comm.
Qed.

Lemma distinct_from h r moves :
  fold_left (fun sel w => enter h w sel) moves [r]
  = distinct (r :: tiles_among h moves).
Proof.
  rewrite enter_fold_distinct. simpl. f_equal. apply filter_ext.
  intros x. unfold set_in. simpl.
  now rewrite orb_false_r, (Nat.eqb_sym x r).
Qed.

Lemma fold_enter_ext h h' moves : forall sel,
  (forall r, char_at h' r = char_at h r) ->
  fold_left (fun sel w => enter h' w sel) moves sel
  = fold_left (fun sel w => enter h w sel) moves sel.
Proof.
  induction moves as [|w moves IH]; intros sel H; simpl; auto.
  rewrite IH by assumption. unfold enter.
  now rewrite (is_tile_ext h h' w H).
Qed.

Lemma fold_enter_extends h moves : forall sel,
  exists added,
    fold_left (fun sel w => enter h w sel) moves sel = sel ++ added.
Proof.
  induction moves as [|w moves IH]; intros sel; simpl.
  - exists []. now rewrite app_nil_r.
  - destruct (enter_extends h w sel) as [a Ha]. rewrite Ha.
    destruct (IH (sel ++ a)) as [b Hb]. rewrite Hb.
    exists (a ++ b). now rewrite app_assoc.
Qed.

(** A sequence of moves with the button held. *)
Lemma moves_pressed moves : forall s,
  mouse_pressed s = true ->
  anchored (heap s) = true ->
  selection_ok s = true ->
  exists s' added,
    for_each moves mouseMoveEvent s = (s', Ok tt)
    /\ selected_widgets_list s'
       = fold_left (fun sel w => enter (heap s) w sel) moves
                   (selected_widgets_list s)
    /\ selected_widgets_list s' = selected_widgets_list s ++ added
    /\ emitted s' = emitted s ++ map mouseOverWidget added
    /\ selection_ok s' = true
    /\ anchored (heap s') = true
    /\ mouse_pressed s' = true
    /\ has_highlighted s' = has_highlighted s
    /\ same_area s s'
    /\ (forall r, char_at (heap s') r = char_at (heap s) r)
    /\ (forall r, anchor (heap s') r = anchor (heap s) r).
Proof.
  induction moves as [|w moves IH]; intros s P A OK.
  - exists s, []. simpl. unfold ret, same_area.
    rewrite !app_nil_r. repeat split; auto.
  - destruct (mouseMoveEvent_pressed s w P A OK)
      as (s1 & E1 & L1 & OK1 & A1 & P1 & H1 & F1 & C1 & N1 & _ & _ & M1 & _).
    destruct (IH s1 P1 A1 OK1)
      as (s2 & added & E2 & L2 & X2 & M2 & OK2 & A2 & P2 & H2 & F2 & C2 & N2).
    destruct (enter_extends (heap s) w (selected_widgets_list s)) as [a Ha].
    exists s2, (a ++ added). cbn [for_each]. unfold bind. rewrite E1, E2.
    rewrite L1 in *. rewrite Ha in M1.
    rewrite skipn_app, skipn_all, Nat.sub_diag in M1. simpl in M1.
    unfold same_area in *.
    destruct F1 as (? & ? & ? & ? & ?), F2 as (? & ? & ? & ? & ?).
    repeat split; try tauto; try congruence.
    + rewrite L2. simpl. now apply fold_enter_ext.
    + rewrite X2, Ha. now rewrite app_assoc.
    + rewrite M2, M1, map_app. now rewrite app_assoc.
Qed.

(** Every mouse handler keeps the world well formed, and none raises. *)
Lemma handle_ok e s :
  anchored (heap s) = true ->
  selection_ok s = true ->
  exists s',
    handle e s = (s', Ok tt)
    /\ anchored (heap s') = true
    /\ selection_ok s' = true.
Proof.
  intros A OK. destruct e as [w|w|]; simpl.
  - destruct (has_highlighted s) eqn:H.
    + rewrite press_highlighted by assumption.
      eexists. split; [reflexivity|].
      unfold exec, deselect, bind, get. setters.
      destruct (last_path_highlighted s); simpl; auto.
    + destruct (is_tile (heap s) w) as [r|] eqn:I.
      * destruct (is_tile_Some _ _ _ I) as [-> T].
        destruct (set_in r (selected_widgets_set s)) eqn:M.
        -- rewrite press_selected by assumption. eauto.
        -- rewrite press_tile by assumption. eexists. split; [reflexivity|].
           split; auto. unfold selection_ok, all_tiles. setters.
           unfold set_in. simpl.
           destruct (tile_at (heap s) r); [|congruence].
           now rewrite Nat.eqb_refl.
      * rewrite press_elsewhere by assumption. eauto.
  - destruct (mouse_pressed s) eqn:P.
    + destruct (mouseMoveEvent_pressed s w P A OK) as (s' & E & _ & ? & ? & _).
      eauto.
    + rewrite mouseMoveEvent_released by assumption. eauto.
  - assert (T : all_tiles (heap s) (selected_widgets_list s) = true).
    { apply selection_ok_iff in OK. apply all_tiles_spec. tauto. }
    rewrite mouseReleaseEvent_spec by assumption.
    eexists. split; [reflexivity|]. split; auto.
Qed.

Lemma events_ok events : forall s,
  anchored (heap s) = true ->
  selection_ok s = true ->
  exists s',
    for_each events handle s = (s', Ok tt)
    /\ anchored (heap s') = true
    /\ selection_ok s' = true.
Proof.
  induction events as [|e events IH]; intros s A OK.
  - exists s. auto.
  - destruct (handle_ok e s A OK) as (s1 & E1 & A1 & OK1).
    destruct (IH s1 A1 OK1) as (s2 & E2 & A2 & OK2).
    exists s2. cbn [for_each]. unfold bind. rewrite E1. auto.
Qed.

(** ** make_word *)

Lemma update_middle {A} (pre : list A) x y l :
  update (pre ++ x :: l) (List.length pre) y = pre ++ y :: l.
Proof. induction pre as [|z pre IH]; simpl; congruence. Qed.

Lemma tile_at_middle pre t l :
  tile_at (pre ++ OTile t :: l) (List.length pre) = Some t.
Proof.
  unfold tile_at. rewrite nth_error_app2 by lia.
  now rewrite Nat.sub_diag.
Qed.

Lemma set_heap_twice a b s : set_heap a (set_heap b s) = set_heap a s.
Proof. reflexivity. Qed.

(** The comprehension allocates one tile per character, in order. *)
Lemma new_letters_spec n word : forall i s,
  n <> 0%Z ->
  has_glyphs s word = true ->
  exists ts,
    new_letters (Z.of_nat i) n word s
    = (set_heap (heap s ++ map OTile ts) s,
       Ok (seq (List.length (heap s)) (List.length word)))
    /\ List.length ts = List.length word
    /\ forall k a, nth_error word k = Some a ->
         exists t, nth_error ts k = Some t /\ tile_for s n (i + k) a t.
Proof.
  induction word as [|a word IH]; intros i s N G.
  - exists []. simpl. unfold ret. rewrite app_nil_r, set_heap_id.
    repeat split; auto. intros [|k] a; discriminate.
  - simpl in G. apply andb_true_iff in G. destruct G as [Ga G].
    destruct (dict_get (letters s) a) as [img|] eqn:D; [|discriminate].
    assert (I : exists t, MyQGPixmapItem.init img (Z.of_nat i) n a
                            (center s) (radius s) = Ok t).
    { unfold MyQGPixmapItem.init. apply Z.eqb_neq in N. rewrite N. eauto. }
    destruct I as [t It].
    set (s1 := set_heap (heap s ++ [OTile t]) s).
    assert (G1 : has_glyphs s1 word = true) by exact G.
    destruct (IH (S i) s1 N G1) as (ts & E & L & K).
    exists (t :: ts). split; [|split].
    + cbn [new_letters]. unfold bind at 1. unfold get at 1.
      unfold bind at 1. unfold lift at 1. rewrite D.
      unfold bind at 1. unfold lift at 1. rewrite It.
      unfold bind at 1. unfold new at 1. fold s1.
      unfold bind at 1.
      replace (Z.of_nat i + 1)%Z with (Z.of_nat (S i)) by lia.
      rewrite E. unfold ret, s1. rewrite set_heap_twice.
      cbn [heap set_heap]. rewrite <- app_assoc, length_app.
      cbn [List.length app map seq]. rewrite Nat.add_1_r. reflexivity.
    + simpl. now rewrite L.
    + intros [|k] b Hk; simpl in Hk.
      * injection Hk as <-. exists t. split; auto.
        exists img. rewrite Nat.add_0_r. auto.
      * destruct (K k b Hk) as (t' & Ht' & img' & D' & I').
        exists t'. split; auto. exists img'.
        replace (i + S k)%nat with (S i + k)%nat by lia. auto.
Qed.

Lemma place_letter_spec pre t l s :
  heap s = pre ++ OTile t :: l ->
  place_letter (List.length pre) s
  = (set_scene (scene s ++ [List.length pre])
       (set_heap (pre ++ OTile (placed (radius s) t) :: l) s),
     Ok tt).
Proof.
  intros H. unfold place_letter, bind, modify_tile, bind, tile, get, modify,
    addItem, modify.
  repeat first [ rewrite H | rewrite tile_at_middle | rewrite update_middle
               | progress cbn [heap set_heap radius] ].
  reflexivity.
Qed.

Lemma place_loop ts : forall pre s,
  heap s = pre ++ map OTile ts ->
  @for_each ref (seq (List.length pre) (List.length ts)) place_letter s
  = (set_scene (scene s ++ seq (List.length pre) (List.length ts))
       (set_heap (pre ++ map OTile (map (placed (radius s)) ts)) s),
     Ok tt).
Proof.
  induction ts as [|t ts IH]; intros pre s H.
  - simpl in *. unfold ret. rewrite app_nil_r in H. subst pre.
    rewrite !app_nil_r. rewrite set_heap_id. now rewrite set_scene_id.
  - cbn [List.length seq for_each map]. unfold bind.
    rewrite (place_letter_spec pre t (map OTile ts) s H).
    specialize (IH (pre ++ [OTile (placed (radius s) t)])).
    rewrite length_app in IH. cbn [List.length] in IH.
    rewrite Nat.add_1_r in IH. rewrite IH.
    + cbn [heap scene radius set_heap set_scene].
      rewrite <- !app_assoc. reflexivity.
    + cbn [heap set_heap set_scene]. now rewrite <- app_assoc.
Qed.

Lemma tile_at_tiles pre ts k :
  tile_at (pre ++ map OTile ts) (List.length pre + k) = nth_error ts k.
Proof.
  unfold tile_at. rewrite nth_error_app2 by lia.
  replace (List.length pre + k - List.length pre)%nat with k by lia.
  rewrite nth_error_map. now destruct (nth_error ts k).
Qed.

Lemma get_offset_xy_spec r s p :
  anchor (heap s) r = Some p -> get_offset_xy r s = (s, Ok p).
Proof.
  unfold anchor, get_offset_xy, bind, tile.
  destruct (tile_at (heap s) r); [|discriminate]. now intros ->.
Qed.

Lemma comprehension_get_offset_xy rs : forall s,
  (forall r, In r rs -> anchor (heap s) r <> None) ->
  comprehension get_offset_xy rs s = (s, Ok (anchors (heap s) rs)).
Proof.
  induction rs as [|r rs IH]; intros s H; auto.
  destruct (anchor (heap s) r) as [p|] eqn:E.
  2:{ elim (H r); simpl; auto. }
  cbn [comprehension]. unfold bind.
  rewrite (get_offset_xy_spec r s p E), IH by (intros; apply H; now right).
  now rewrite (anchors_cons _ _ _ _ E).
Qed.

Lemma placed_offset_xy rad t :
  exists p, MyQGPixmapItem.offset_xy (placed rad t) = Some p.
Proof. unfold placed, MyQGPixmapItem.calc_position. simpl. eauto. Qed.

Lemma anchor_placed pre rad ts r :
  In r (seq (List.length pre) (List.length ts)) ->
  anchor (pre ++ map OTile (map (placed rad) ts)) r <> None.
Proof.
  intros H. apply in_seq in H.
  replace r with (List.length pre + (r - List.length pre))%nat by lia.
  unfold anchor. rewrite tile_at_tiles, nth_error_map.
  destruct (nth_error ts (r - List.length pre)) as [t|] eqn:E.
  - cbn [option_map]. destruct (placed_offset_xy rad t) as [p ->].
    discriminate.
  - apply nth_error_None in E. lia.
Qed.

(** The world a successful [make_word] leaves. *)
Lemma make_word_spec word s :
  word <> EmptyString ->
  has_glyphs s (list_ascii_of_string word) = true ->
  let chars := list_ascii_of_string word in
  let n := List.length chars in
  let refs := seq (List.length (heap s)) n in
  exists ts,
    List.length ts = n
    /\ (forall k a, nth_error chars k = Some a ->
          exists t, nth_error ts k = Some t
                    /\ tile_for s (Z.of_nat n) k a t)
    /\ let h1 := heap s ++ map OTile (map (placed (radius s)) ts) in
       make_word word s
       = (set_wheel (Some refs)
            (set_scene (scene s ++ refs ++ [List.length h1])
               (set_heap
                  (h1 ++ [OPath (mkPathItem (outline (anchors h1 refs))
                                            (mkPen red 3))]) s)),
          Ok tt).
Proof.
  intros NE G chars n refs.
  assert (N : Z.of_nat n <> 0%Z).
  { subst n chars. destruct word; [congruence|simpl; lia]. }
  destruct (new_letters_spec (Z.of_nat n) chars 0 s N G) as (ts & E & L & K).
  exists ts. split; [exact L|]. split; [exact K|].
  intros h1. unfold make_word. fold chars. fold n.
  change 0%Z with (Z.of_nat 0). unfold bind at 1. rewrite E.
  unfold bind at 1.
  set (s1 := set_heap (heap s ++ map OTile ts) s).
  assert (H1 : heap s1 = heap s ++ map OTile ts) by reflexivity.
  pose proof (place_loop ts (heap s) s1 H1) as PL.
  rewrite L in PL. subst n refs. rewrite PL.
  unfold s1. rewrite set_heap_twice.
  change (scene (set_heap _ s)) with (scene s).
  change (radius (set_heap _ s)) with (radius s).
  fold h1.
  set (refs := seq (List.length (heap s)) (List.length chars)) in *.
  set (s2 := set_scene (scene s ++ refs) (set_heap h1 s)).
  assert (AN : forall r, In r refs -> anchor (heap s2) r <> None).
  { intros r Hr. cbn [s2 heap set_scene set_heap]. unfold h1.
    apply anchor_placed. now rewrite L. }
  assert (LR : List.length refs = List.length chars) by apply length_seq.
  destruct refs as [|r0 refs'].
  { exfalso. simpl in LR. lia. }
  destruct (anchor (heap s2) r0) as [p0|] eqn:A0.
  2:{ elim (AN r0); simpl; auto. }
  unfold bind at 1. rewrite (get_offset_xy_spec r0 s2 p0 A0).
  unfold bind at 1. rewrite comprehension_get_offset_xy by exact AN.
  unfold bind, new, addItem, modify.
  cbn [s2 heap scene set_heap set_scene].
  rewrite (anchors_cons _ _ _ _ A0).
  cbn [s2 heap set_scene set_heap] in A0.
  cbn [outline]. rewrite <- app_assoc. reflexivity.
Qed.

(** ** The assignment *)

Lemma retile_cons f x rs h :
  retile f (x :: rs) h
  = retile f rs (match tile_at h x with
                 | Some t => update h x (OTile (f t))
                 | None => h
                 end).
Proof. reflexivity. Qed.

Lemma nth_error_retile f rs : forall h r,
  (forall t, f (f t) = f t) ->
  nth_error (retile f rs h) r
  = match nth_error h r with
    | Some (OTile t) => Some (OTile (if set_in r rs then f t else t))
    | o => o
    end.
Proof.
  induction rs as [|x rs IH]; intros h r F.
  - simpl. now destruct (nth_error h r) as [[|]|].
  - rewrite retile_cons, IH by assumption. unfold set_in. cbn [existsb].
    fold (set_in r rs).
    destruct (tile_at h x) as [t|] eqn:E.
    + destruct (Nat.eq_dec x r) as [->|N].
      * rewrite nth_error_update_eq by (eapply tile_at_lt; eauto).
        rewrite Nat.eqb_refl. cbn [orb].
        unfold tile_at in E.
        destruct (nth_error h r) as [[t'|]|]; try discriminate.
        injection E as ->. rewrite F. now destruct (set_in r rs).
      * rewrite nth_error_update_neq by assumption.
        apply Nat.eqb_neq in N. rewrite Nat.eqb_sym in N. now rewrite N.
    + destruct (Nat.eqb r x) eqn:N; auto.
      apply Nat.eqb_eq in N. subst x. unfold tile_at in E.
      now destruct (nth_error h r) as [[|]|].
Qed.

Lemma tile_at_retile f rs h r :
  (forall t, f (f t) = f t) ->
  tile_at (retile f rs h) r
  = option_map (fun t => if set_in r rs then f t else t) (tile_at h r).
Proof.
  intros F. unfold tile_at. rewrite nth_error_retile by assumption.
  now destruct (nth_error h r) as [[|]|].
Qed.

Lemma retile_app f rs rs' h :
  retile f (rs ++ rs') h = retile f rs' (retile f rs h).
Proof. unfold retile. apply fold_left_app. Qed.

Lemma set_hit_idem b t :
  MyQGPixmapItem.set_hit b (MyQGPixmapItem.set_hit b t)
  = MyQGPixmapItem.set_hit b t.
Proof. reflexivity. Qed.

Lemma modify_tile_loop f rs : forall s,
  (forall t, f (f t) = f t) ->
  all_tiles (heap s) rs = true ->
  for_each rs (fun x => modify_tile x f) s
  = (set_heap (retile f rs (heap s)) s, Ok tt).
Proof.
  induction rs as [|x rs IH]; intros s F T.
  - simpl. unfold ret. now rewrite set_heap_id.
  - simpl in T. apply andb_true_iff in T. destruct T as [Tx T].
    destruct (tile_at (heap s) x) as [t|] eqn:E; [|discriminate].
    cbn [for_each]. unfold bind at 1. unfold modify_tile at 1.
    unfold bind, tile, modify. rewrite E.
    rewrite IH; auto.
    + rewrite set_heap_twice. cbn [heap set_heap].
      now rewrite retile_cons, E.
    + cbn [heap set_heap]. apply all_tiles_spec. intros r Hr.
      rewrite all_tiles_spec in T. specialize (T r Hr).
      destruct (Nat.eq_dec x r) as [->|N].
      * erewrite tile_at_update_eq by eauto. discriminate.
      * now rewrite tile_at_update_neq.
Qed.

(** With the tiles [used] flagged, the test of the inner loop is the test
    of the spec. *)
Lemma free_unused_match h used w r t :
  tile_at h r = Some t ->
  MyQGPixmapItem.hit t = false ->
  match tile_at (retile (MyQGPixmapItem.set_hit true) used h) r with
  | Some t' => Ascii.eqb (MyQGPixmapItem.alpha t') w
               && negb (MyQGPixmapItem.hit t')
  | None => false
  end = unused_match h w used r.
Proof.
  intros E H. rewrite tile_at_retile by (intros; apply set_hit_idem).
  unfold unused_match, char_at. rewrite E. cbn [option_map].
  destruct (set_in r used); simpl; now rewrite ?H.
Qed.

Lemma unflagged_spec h rs :
  unflagged h rs = true
  <-> forall r, In r rs ->
        exists t, tile_at h r = Some t /\ MyQGPixmapItem.hit t = false.
Proof.
  unfold unflagged. rewrite forallb_forall. split; intros H r Hr;
    specialize (H r Hr).
  - destruct (tile_at h r) as [t|]; [|discriminate].
    exists t. split; auto. now apply negb_true_iff.
  - destruct H as (t & -> & H). now rewrite H.
Qed.

Lemma first_unused_spec h used w xs : forall s,
  unflagged h xs = true ->
  heap s = retile (MyQGPixmapItem.set_hit true) used h ->
  first_unused w xs s
  = match find (unused_match h w used) xs with
    | Some x =>
        (set_heap (retile (MyQGPixmapItem.set_hit true) (used ++ [x]) h) s,
         Ok (Some x))
    | None => (s, Ok None)
    end.
Proof.
  induction xs as [|x xs IH]; intros s U H; auto.
  simpl in U. apply andb_true_iff in U. destruct U as [Ux U].
  destruct (tile_at h x) as [t|] eqn:E; [|discriminate].
  apply negb_true_iff in Ux.
  cbn [first_unused find]. unfold bind at 1. unfold tile at 1.
  pose proof (free_unused_match h used w x t E Ux) as FM.
  rewrite <- H in FM.
  destruct (tile_at (heap s) x) as [t'|] eqn:E'.
  2:{ rewrite H, tile_at_retile, E in E' by (intros; apply set_hit_idem).
      discriminate. }
  rewrite FM. destruct (unused_match h w used x).
  - unfold bind, modify_tile, bind, tile, modify, ret. rewrite E'.
    rewrite retile_app, <- H, retile_cons, E'. reflexivity.
  - now apply IH.
Qed.

Lemma greedy_subset h wh word : forall used r,
  In r (greedy h wh used word) -> In r wh.
Proof.
  induction word as [|c word IH]; intros used r; simpl; [tauto|].
  unfold first_free. destruct (find (unused_match h c used) wh) eqn:F.
  - intros [<-|H]; eauto. apply find_some in F. tauto.
  - eauto.
Qed.

Lemma assign_spec h wh word : forall used selected s,
  unflagged h wh = true ->
  heap s = retile (MyQGPixmapItem.set_hit true) used h ->
  assign word wh selected s
  = (set_heap (retile (MyQGPixmapItem.set_hit true)
                      (used ++ greedy h wh used word) h) s,
     Ok (selected ++ greedy h wh used word)).
Proof.
  induction word as [|c word IH]; intros used sel s U H.
  - simpl. unfold ret. rewrite !app_nil_r, <- H. now rewrite set_heap_id.
  - cbn [assign greedy]. unfold bind.
    rewrite (first_unused_spec h used c wh s U H). unfold first_free.
    destruct (find (unused_match h c used) wh) as [x|].
    + rewrite (IH (used ++ [x])) by auto.
      rewrite set_heap_twice, <- !app_assoc. reflexivity.
    + now rewrite (IH used) by auto.
Qed.

(** ** word_path *)

Lemma retile_length f rs : forall h,
  List.length (retile f rs h) = List.length h.
Proof.
  induction rs as [|x rs IH]; intros h; auto.
  rewrite retile_cons, IH. destruct (tile_at h x); auto using update_length.
Qed.

Lemma anchor_retile_hit b rs h r :
  anchor (retile (MyQGPixmapItem.set_hit b) rs h) r = anchor h r.
Proof.
  unfold anchor. rewrite tile_at_retile by (intros; apply set_hit_idem).
  destruct (tile_at h r); simpl; auto. now destruct (set_in r rs).
Qed.

Lemma set_hit_restore t :
  MyQGPixmapItem.hit t = false ->
  MyQGPixmapItem.set_hit false (MyQGPixmapItem.set_hit true t) = t
  /\ MyQGPixmapItem.set_hit false t = t.
Proof. destruct t; simpl; intros ->; auto. Qed.

(** Clearing the flags of the wheel undoes the flagging of the loop. *)
Lemma unflag_restores h wh sel p :
  unflagged h wh = true ->
  (forall r, In r sel -> In r wh) ->
  retile (MyQGPixmapItem.set_hit false) wh
         (retile (MyQGPixmapItem.set_hit true) sel h ++ [OPath p])
  = h ++ [OPath p].
Proof.
  intros U S. apply nth_error_ext. intros n.
  rewrite nth_error_retile by (intros; apply set_hit_idem).
  destruct (Nat.lt_ge_cases n (List.length h)) as [L|G].
  - rewrite !nth_error_app1 by (rewrite ?retile_length; lia).
    rewrite nth_error_retile by (intros; apply set_hit_idem).
    destruct (nth_error h n) as [[t|q]|] eqn:E; auto.
    destruct (set_in n wh) eqn:W.
    + apply set_in_In in W. rewrite unflagged_spec in U.
      destruct (U n W) as (t' & Et & Ht). unfold tile_at in Et.
      rewrite E in Et. injection Et as <-.
      destruct (set_hit_restore t Ht) as [R1 R2].
      destruct (set_in n sel); now rewrite ?R1, ?R2.
    + destruct (set_in n sel) eqn:M; auto.
      apply set_in_In in M. apply S in M. apply set_in_In in M. congruence.
  - rewrite !nth_error_app2 by (rewrite ?retile_length; lia).
    rewrite retile_length.
    destruct (n - List.length h)%nat as [|[|k]]; reflexivity.
Qed.

Lemma deselect_spec s :
  deselect s = (exec deselect s, Ok tt)
  /\ heap (exec deselect s) = heap s
  /\ wheel (exec deselect s) = wheel s
  /\ last_path_highlighted (exec deselect s) = None
  /\ scene (exec deselect s)
     = match last_path_highlighted s with
       | Some p => remove Nat.eq_dec p (scene s)
       | None => scene s
       end.
Proof.
  unfold exec, deselect, bind, get.
  destruct (last_path_highlighted s) eqn:E; simpl; auto.
Qed.

(** The world [word_path] leaves: the previous highlight is gone; with no
    tile matched the path cannot be started; otherwise a blue path through
    the matched tiles is on the scene and every flag is clear again. *)
Lemma word_path_spec_at word s wh :
  wheel s = Some wh ->
  unflagged (heap s) wh = true ->
  (forall r, In r wh -> anchor (heap s) r <> None) ->
  let sd := exec deselect s in
  let sel := greedy (heap s) wh [] (list_ascii_of_string word) in
  word_path word s
  = match sel with
    | [] => (sd, Raise IndexError)
    | _ :: _ =>
        (set_has_highlighted true
           (set_last_path_highlighted (Some (List.length (heap s)))
              (set_scene (scene sd ++ [List.length (heap s)])
                 (set_heap
                    (heap s
                     ++ [OPath (mkPathItem
                                  (polyline (anchors (heap s) sel))
                                  (mkPen blue 3))]) sd))),
         Ok tt)
    end.
Proof.
  intros W U A sd sel.
  destruct (deselect_spec s) as (D & Dh & Dw & _ & _). fold sd in D, Dh, Dw.
  unfold word_path. unfold bind at 1. unfold get at 1.
  unfold bind at 1.
  replace (match last_path_highlighted s with
           | Some _ => deselect
           | None => ret tt
           end s) with (sd, Ok tt).
  2:{ destruct (last_path_highlighted s) eqn:E; auto.
      unfold sd, exec, deselect, bind, get. now rewrite E. }
  unfold bind at 1. unfold get at 1. rewrite Dw, W.
  unfold bind at 1.
  rewrite (assign_spec (heap s) wh (list_ascii_of_string word) [] [] sd U)
    by exact Dh.
  cbn [app]. fold sel.
  assert (S : forall r, In r sel -> In r wh).
  { intros r. apply greedy_subset. }
  destruct sel as [|first rest] eqn:Esel.
  { unfold raise. cbn [retile fold_left]. now rewrite <- Dh, set_heap_id. }
  set (hm := retile (MyQGPixmapItem.set_hit true) (first :: rest) (heap s)).
  set (sm := set_heap hm sd).
  assert (AN : forall r, In r (first :: rest) -> anchor (heap sm) r <> None).
  { intros r Hr. cbn [sm heap set_heap]. unfold hm.
    rewrite anchor_retile_hit. apply S in Hr. now apply A. }
  assert (AE : anchors (heap sm) (first :: rest)
               = anchors (heap s) (first :: rest)).
  { apply anchors_ext. intros r. apply anchor_retile_hit. }
  destruct (anchor (heap sm) first) as [p0|] eqn:A0.
  2:{ elim (AN first); simpl; auto. }
  rewrite (anchors_cons _ _ _ _ A0) in AE.
  unfold bind at 1. rewrite (get_offset_xy_spec first sm p0 A0).
  unfold bind at 1.
  rewrite comprehension_get_offset_xy by (intros; apply AN; now right).
  unfold bind at 1. unfold new at 1. unfold bind at 1.
  unfold addItem at 1, modify at 1. unfold bind at 1.
  rewrite modify_tile_loop.
  2:{ intros; apply set_hit_idem. }
  2:{ cbn [sm heap set_heap set_scene]. apply all_tiles_spec. intros r Hr.
      rewrite tile_at_app_path. unfold hm.
      rewrite tile_at_retile by (intros; apply set_hit_idem).
      rewrite unflagged_spec in U. destruct (U r Hr) as (t & -> & _).
      discriminate. }
  unfold bind, modify.
  cbn [sm heap scene set_heap set_scene]. unfold hm at 2.
  rewrite (unflag_restores (heap s) wh (first :: rest) _ U S).
  unfold hm. rewrite retile_length.
  change (polyline (anchors (heap s) (first :: rest)))
    with (polyline (anchors (heap s) (first :: rest))).
  rewrite <- AE. reflexivity.
Qed.

Lemma word_path_spec word s wh :
  wheel s = Some wh ->
  unflagged (heap s) wh = true ->
  anchored (heap s) = true ->
  let sd := exec deselect s in
  let sel := greedy (heap s) wh [] (list_ascii_of_string word) in
  word_path word s
  = match sel with
    | [] => (sd, Raise IndexError)
    | _ :: _ =>
        (set_has_highlighted true
           (set_last_path_highlighted (Some (List.length (heap s)))
              (set_scene (scene sd ++ [List.length (heap s)])
                 (set_heap
                    (heap s
                     ++ [OPath (mkPathItem
                                  (polyline (anchors (heap s) sel))
                                  (mkPen blue 3))]) sd))),
         Ok tt)
    end.
Proof.
  intros W U A. apply word_path_spec_at; auto.
  intros r Hr. rewrite unflagged_spec in U. destruct (U r Hr) as (t & Et & _).
  unfold anchor. rewrite Et.
  destruct (anchored_spec _ _ _ A Et) as [p ->]. discriminate.
Qed.

(** ** The greedy assignment of the spec *)

Lemma greedy_length_le h wh word : forall used,
  (List.length (greedy h wh used word) <= List.length word)%nat.
Proof.
  induction word as [|c word IH]; intros used; simpl; auto.
  destruct (first_free h wh c used); simpl.
  - specialize (IH (used ++ [r])). lia.
  - specialize (IH used). lia.
Qed.

Lemma unused_match_snoc h c used r x :
  unused_match h c (used ++ [r]) x
  = unused_match h c used x && negb (Nat.eqb r x).
Proof.
  unfold unused_match. destruct (char_at h x); auto.
  unfold set_in. rewrite existsb_app. simpl.
  rewrite orb_false_r, negb_orb, (Nat.eqb_sym x r).
  now rewrite andb_assoc.
Qed.

Lemma filter_without (f : ref -> bool) r l :
  NoDup l -> In r l -> f r = true ->
  S (List.length (filter (fun x => f x && negb (Nat.eqb r x)) l))
  = List.length (filter f l).
Proof.
  induction l as [|y l IH]; intros ND I F; [now elim I|].
  inversion ND as [|? ? Ny ND']; subst. simpl.
  destruct I as [->|I].
  - rewrite F, Nat.eqb_refl. simpl. f_equal. f_equal.
    apply filter_ext_in. intros a Ha.
    destruct (Nat.eqb r a) eqn:E; [|now rewrite andb_true_r].
    apply Nat.eqb_eq in E. subst a. contradiction.
  - assert (N : Nat.eqb r y = false).
    { apply Nat.eqb_neq. intros ->. contradiction. }
    rewrite N, andb_true_r. destruct (f y); simpl; auto.
Qed.

Lemma first_free_Some h wh c used r :
  first_free h wh c used = Some r ->
  In r wh /\ char_at h r = Some c /\ ~ In r used
  /\ unused_match h c used r = true.
Proof.
  unfold first_free. intros F. apply find_some in F. destruct F as [I M].
  repeat split; auto; unfold unused_match in M;
    destruct (char_at h r) as [a|]; try discriminate;
    apply andb_true_iff in M; destruct M as [E U].
  - apply Ascii.eqb_eq in E. now subst.
  - apply negb_true_iff, set_in_false in U. exact U.
Qed.

Lemma avail_taken h wh c used r :
  NoDup wh ->
  first_free h wh c used = Some r ->
  S (avail h wh (used ++ [r]) c) = avail h wh used c
  /\ forall c', c' <> c -> avail h wh (used ++ [r]) c' = avail h wh used c'.
Proof.
  intros ND F. destruct (first_free_Some _ _ _ _ _ F) as (I & C & _ & M).
  unfold avail. split.
  - rewrite <- (filter_without (unused_match h c used) r wh ND I M).
    f_equal. f_equal. apply filter_ext. intros x. apply unused_match_snoc.
  - intros c' N. f_equal. apply filter_ext_in. intros x Hx.
    rewrite unused_match_snoc. destruct (Nat.eqb r x) eqn:E;
      [|now rewrite andb_true_r].
    apply Nat.eqb_eq in E. subst x. rewrite andb_false_r.
    unfold unused_match. rewrite C.
    destruct (Ascii.eqb c c') eqn:E'; auto.
    apply Ascii.eqb_eq in E'. congruence.
Qed.

Lemma avail_none h wh c used :
  first_free h wh c used = None -> avail h wh used c = 0%nat.
Proof.
  unfold first_free, avail. intros F.
  rewrite (filter_ext_in _ (fun _ => false)).
  - clear F. induction wh; simpl; auto.
  - intros x Hx. exact (find_none _ _ F x Hx).
Qed.

Lemma count_char_cons c c' l :
  count_char c (c' :: l)
  = if Ascii.eqb c' c then S (count_char c l) else count_char c l.
Proof.
  unfold count_char. simpl. destruct (ascii_dec c' c) as [->|N].
  - now rewrite Ascii.eqb_refl.
  - apply Ascii.eqb_neq in N. now rewrite N.
Qed.

(** Every letter is matched exactly when the wheel has enough free tiles
    of each letter. *)
Lemma greedy_full_iff h wh word : forall used,
  NoDup wh ->
  List.length (greedy h wh used word) = List.length word
  <-> forall c, (count_char c word <= avail h wh used c)%nat.
Proof.
  induction word as [|c word IH]; intros used ND.
  - simpl. split; auto. intros _ c. unfold count_char. simpl. lia.
  - cbn [greedy]. destruct (first_free h wh c used) as [r|] eqn:F.
    + destruct (avail_taken h wh c used r ND F) as [A1 A2].
      cbn [List.length]. specialize (IH (used ++ [r]) ND). split.
      * intros L. injection L as L. rewrite IH in L. intros c'.
        rewrite count_char_cons. destruct (Ascii.eqb c c') eqn:E.
        -- apply Ascii.eqb_eq in E. subst c'. specialize (L c). lia.
        -- apply Ascii.eqb_neq in E. rewrite <- A2 by congruence. apply L.
      * intros H. f_equal. apply IH. intros c'. specialize (H c').
        rewrite count_char_cons in H. destruct (Ascii.eqb c c') eqn:E.
        -- apply Ascii.eqb_eq in E. subst c'. lia.
        -- apply Ascii.eqb_neq in E. rewrite A2 by congruence. exact H.
    + pose proof (greedy_length_le h wh word used) as LE.
      pose proof (avail_none h wh c used F) as Z.
      cbn [List.length]. split; [lia|]. intros H. specialize (H c).
      rewrite count_char_cons, Ascii.eqb_refl in H. lia.
Qed.

Lemma avail_nil h wh c : avail h wh [] c = count_char c (chars_of h wh).
Proof.
  unfold avail, count_char, chars_of.
  induction wh as [|r wh IH]; auto.
  cbn [filter flat_map]. unfold unused_match at 1.
  destruct (char_at h r) as [a|]; auto.
  cbn [set_in existsb negb app]. rewrite andb_true_r.
  cbn [count_occ]. destruct (ascii_dec a c) as [->|N].
  - rewrite Ascii.eqb_refl. cbn [List.length]. now rewrite IH.
  - apply Ascii.eqb_neq in N. now rewrite N.
Qed.

Lemma matchable_iff h wh word :
  matchable h wh word = true
  <-> forall c, (count_char c word <= count_char c (chars_of h wh))%nat.
Proof.
  unfold matchable. rewrite forallb_forall. split.
  - intros H c. destruct (in_dec ascii_dec c word) as [I|N].
    + apply Nat.leb_le. auto.
    + unfold count_char at 1.
      rewrite (proj1 (count_occ_not_In ascii_dec word c) N). lia.
  - intros H c _. apply Nat.leb_le. auto.
Qed.

Lemma greedy_matchable h wh word :
  NoDup wh ->
  List.length (greedy h wh [] word) = List.length word
  <-> matchable h wh word = true.
Proof.
  intros ND. rewrite greedy_full_iff, matchable_iff by assumption.
  split; intros H c; specialize (H c); now rewrite avail_nil in *.
Qed.

Lemma greedy_NoDup h wh word : forall used,
  NoDup (greedy h wh used word)
  /\ forall r, In r (greedy h wh used word) -> ~ In r used.
Proof.
  induction word as [|c word IH]; intros used; simpl.
  - split; [constructor | tauto].
  - destruct (first_free h wh c used) as [r|] eqn:F; [|apply IH].
    destruct (IH (used ++ [r])) as [ND D].
    destruct (first_free_Some _ _ _ _ _ F) as (_ & _ & U & _). split.
    + constructor; auto. intros I. apply (D r I).
      apply in_app_iff. right. now left.
    + intros x [<-|I]; auto. intros Hx. apply (D x I).
      apply in_app_iff. now left.
Qed.

(** When every letter is matched, the tile of letter [k] is the first
    tile of the wheel with that letter that the letters before [k] have
    not taken. *)
Lemma greedy_nth h wh word : forall used k c,
  List.length (greedy h wh used word) = List.length word ->
  nth_error word k = Some c ->
  nth_error (greedy h wh used word) k
  = first_free h wh c (used ++ firstn k (greedy h wh used word)).
Proof.
  induction word as [|c0 word IH]; intros used k c L K.
  - destruct k; discriminate.
  - cbn [greedy] in *. destruct (first_free h wh c0 used) as [r|] eqn:F.
    + cbn [List.length] in L. injection L as L. destruct k as [|k].
      * simpl in K. injection K as <-. simpl. now rewrite app_nil_r.
      * simpl in K. cbn [nth_error firstn].
        rewrite (IH (used ++ [r]) k c L K). now rewrite <- app_assoc.
    + pose proof (greedy_length_le h wh word used). simpl in L. lia.
Qed.

Lemma greedy_nonempty h wh word :
  some_letter_on h wh word = true -> greedy h wh [] word <> [].
Proof.
  unfold some_letter_on. induction word as [|c word IH]; simpl;
    [discriminate|].
  destruct (first_free h wh c []) as [r|] eqn:F; [discriminate|].
  apply avail_none in F. rewrite avail_nil in F. unfold count_char in F.
  rewrite F. simpl. exact IH.
Qed.

(** * The claims *)

Lemma live_paths_released s : live_paths (released s) = [].
Proof.
  unfold live_paths, released. cbn [heap scene].
  rewrite filter_filter.
  rewrite (filter_ext _ (fun _ => false)).
  - induction (scene s); auto.
  - intros r. now destruct (is_green_path (heap s) r).
Qed.

Lemma spelled_length h rs :
  all_tiles h rs = true ->
  String.length (spelled h rs) = List.length rs.
Proof.
  unfold spelled, chars_of, all_tiles, char_at.
  induction rs as [|r rs IH]; simpl; auto.
  destruct (tile_at h r); simpl; [|discriminate].
  intros H. now rewrite IH.
Qed.

(** C5: while a replay highlight is showing ([has_highlighted] is set), a
    press at any location, whatever is under the pointer, removes the
    highlight from the scene and leaves the tracker idle (neither
    highlighted nor pressed); the selection, the drag path and the heap are
    untouched, so no selection starts from that press; the next press on a
    tile starts a selection with that tile as usual. *)
Theorem press_dismisses_highlight s widget :
  has_highlighted s = true ->
  let s' := exec (mousePressEvent widget) s in
  outcome (mousePressEvent widget) s = Ok tt
  /\ has_highlighted s' = false
  /\ mouse_pressed s' = false
  /\ last_path_highlighted s' = None
  /\ (forall p, last_path_highlighted s = Some p ->
        scene s' = remove Nat.eq_dec p (scene s) /\ ~ In p (scene s'))
  /\ selected_widgets_list s' = selected_widgets_list s
  /\ selected_widgets_set s' = selected_widgets_set s
  /\ paint_path s' = paint_path s
  /\ heap s' = heap s
  /\ emitted s' = emitted s ++ [clearHighlight true]
  /\ forall t,
       tile_at (heap s) t <> None ->
       set_in t (selected_widgets_set s) = false ->
       let s'' := exec (mousePressEvent (Some t)) s' in
       outcome (mousePressEvent (Some t)) s' = Ok tt
       /\ mouse_pressed s'' = true
       /\ selected_widgets_list s'' = [t]
       /\ selected_widgets_set s'' = [t]
       /\ emitted s'' = emitted s' ++ [mouseOverWidget t].
Proof.
  intros H s'. subst s'. unfold outcome, exec.
  rewrite (press_highlighted s widget H). cbn [fst snd].
  destruct (deselect_spec
              (set_emitted (emitted s ++ [clearHighlight true])
                           (set_has_highlighted false s)))
    as (_ & Dh & _ & Dl & Ds).
  set (sd := exec deselect _) in *.
  assert (F : has_highlighted (set_mouse_pressed false sd) = false
              /\ selected_widgets_list sd = selected_widgets_list s
              /\ selected_widgets_set sd = selected_widgets_set s
              /\ paint_path sd = paint_path s
              /\ emitted sd = emitted s ++ [clearHighlight true]).
  { unfold sd, exec, deselect, bind, get. cbn [last_path_highlighted
      set_emitted set_has_highlighted].
    destruct (last_path_highlighted s); simpl; auto. }
  destruct F as (F1 & F2 & F3 & F4 & F5).
  assert (N : forall t,
             tile_at (heap s) t <> None ->
             set_in t (selected_widgets_set s) = false ->
             mousePressEvent (Some t) (set_mouse_pressed false sd)
             = (mkWorld (heap sd) (scene sd) true [t] [t] false []
                        (center sd) (radius sd) (last_path_highlighted sd)
                        (letters sd) (wheel sd)
                        (emitted sd ++ [mouseOverWidget t]), Ok tt)).
  { intros t T I. rewrite (press_tile (set_mouse_pressed false sd) t);
      auto.
    - cbn [heap set_mouse_pressed]. now rewrite Dh.
    - cbn [selected_widgets_set set_mouse_pressed]. now rewrite F3. }
  split; [reflexivity|]. split; [exact F1|]. split; [reflexivity|].
  split; [exact Dl|]. split.
  { intros p Hp. cbn [scene set_mouse_pressed]. rewrite Ds.
    cbn [last_path_highlighted set_emitted set_has_highlighted scene].
    rewrite Hp. split; auto. apply remove_In. }
  split; [exact F2|]. split; [exact F3|]. split; [exact F4|].
  split; [exact Dh|]. split; [exact F5|].
  intros t T I. rewrite (N t T I). cbn [fst snd]. repeat split; auto.
Qed.

Lemma press_dismisses_highlight_witness :
  has_highlighted tractor_cat = true
  /\ last_path_highlighted tractor_cat = Some 8%nat
  /\ scene (exec (mousePressEvent (Some 2%nat)) tractor_cat)
     = [0; 1; 2; 3; 4; 5; 6; 7]%nat
  /\ selected_widgets_list (exec (mousePressEvent (Some 2%nat)) tractor_cat)
     = [].
Proof.
  assert (H : has_highlighted tractor_cat = true) by reflexivity.
  split; [exact H|]. split; [reflexivity|].
  destruct (press_dismisses_highlight tractor_cat (Some 2%nat) H)
    as (_ & _ & _ & _ & Sc & Sl & _).
  split.
  - destruct (Sc 8%nat eq_refl) as [E _]. rewrite E. reflexivity.
  - rewrite Sl. reflexivity.
Defined.

(** C9: a release with no tile or a single tile selected raises nothing
    and emits the word all the same, the empty string or the single
    character; it then clears the selection (list and set), the pressed
    flag and the drag path, and no live (green) path is left on the
    scene. *)
Theorem release_short_selection s :
  (List.length (selected_widgets_list s) <= 1)%nat ->
  all_tiles (heap s) (selected_widgets_list s) = true ->
  let s' := exec mouseReleaseEvent s in
  let word := spelled (heap s) (selected_widgets_list s) in
  outcome mouseReleaseEvent s = Ok tt
  /\ emitted s' = emitted s ++ [mouseReleaseProc word]
  /\ String.length word = List.length (selected_widgets_list s)
  /\ (selected_widgets_list s = [] -> word = EmptyString)
  /\ (forall r t, selected_widgets_list s = [r] ->
                  tile_at (heap s) r = Some t ->
                  word = String (MyQGPixmapItem.alpha t) EmptyString)
  /\ selected_widgets_list s' = []
  /\ selected_widgets_set s' = []
  /\ mouse_pressed s' = false
  /\ paint_path s' = []
  /\ live_paths s' = [].
Proof.
  intros L T s' word. subst s' word. unfold outcome, exec.
  rewrite (mouseReleaseEvent_spec s T). cbn [fst snd].
  repeat split; auto.
  - now apply spelled_length.
  - intros ->. reflexivity.
  - intros r t -> E. unfold spelled, chars_of, char_at. simpl.
    now rewrite E.
  - apply live_paths_released.
Qed.

Lemma release_short_selection_witness :
  (List.length (selected_widgets_list tractor_C) <= 1)%nat
  /\ all_tiles (heap tractor_C) (selected_widgets_list tractor_C) = true
  /\ emitted (exec mouseReleaseEvent tractor_C)
     = emitted tractor_C
       ++ [mouseReleaseProc
             (spelled (heap tractor_C) (selected_widgets_list tractor_C))]
  /\ spelled (heap tractor_C) (selected_widgets_list tractor_C)
     = "C"%string.
Proof.
  assert (L : (List.length (selected_widgets_list tractor_C) <= 1)%nat)
    by (vm_compute; lia).
  assert (T : all_tiles (heap tractor_C) (selected_widgets_list tractor_C)
              = true) by (vm_compute; reflexivity).
  split; [exact L|]. split; [exact T|].
  split; [exact (proj1 (proj2 (release_short_selection tractor_C L T)))|].
  vm_compute. reflexivity.
Defined.

Lemma moves_released moves : forall s,
  mouse_pressed s = false -> for_each moves mouseMoveEvent s = (s, Ok tt).
Proof.
  induction moves as [|w moves IH]; intros s P; auto.
  cbn [for_each]. unfold bind.
  rewrite mouseMoveEvent_released by assumption. now apply IH.
Qed.

Lemma selection_ok_empty s :
  selected_widgets_list s = [] -> selection_ok s = true ->
  selected_widgets_set s = [].
Proof.
  intros L OK. apply selection_ok_iff in OK. destruct OK as (_ & _ & EQ).
  destruct (selected_widgets_set s) as [|r l]; auto.
  rewrite L in EQ. elim (proj1 (EQ r)). now left.
Qed.

(** C10, the counterexample: on the TRACTOR wheel a press over no item,
    a move over the first tile and a release emit the word T, not the
    empty string: the press sets [mouse_pressed] before it looks at what is
    under the pointer, so the moves that follow select tiles. *)
Lemma release_after_missed_press :
  is_tile (heap tractor) None = None
  /\ has_highlighted tractor = false
  /\ emitted (exec (drag None [Some 0%nat] ;; mouseReleaseEvent) tractor)
     = [mouseOverWidget 0; mouseReleaseProc "T"].
Proof. vm_compute. repeat split; reflexivity. Qed.

(** C10, amended: every release, in whatever state, raises nothing, emits
    one word-spelled notification with the characters of the selection and
    leaves no live (green) path on the scene.  The word is the empty string
    when the selection is empty, which is the case after a press that was
    consumed to dismiss a replay highlight, whatever the moves, and after a
    press over no tile when no move passed over a tile either. *)
Theorem release_always_emits s :
  all_tiles (heap s) (selected_widgets_list s) = true ->
  let s' := exec mouseReleaseEvent s in
  outcome mouseReleaseEvent s = Ok tt
  /\ emitted s'
     = emitted s
       ++ [mouseReleaseProc (spelled (heap s) (selected_widgets_list s))]
  /\ live_paths s' = []
  /\ (selected_widgets_list s = [] ->
      emitted s' = emitted s ++ [mouseReleaseProc EmptyString])
  /\ (forall s0 widget moves,
        s = exec (drag widget moves) s0 ->
        selected_widgets_list s0 = [] ->
        has_highlighted s0 = true ->
        selected_widgets_list s = [])
  /\ (forall s0 widget moves,
        s = exec (drag widget moves) s0 ->
        selected_widgets_list s0 = [] ->
        has_highlighted s0 = false ->
        anchored (heap s0) = true ->
        selection_ok s0 = true ->
        is_tile (heap s0) widget = None ->
        tiles_among (heap s0) moves = [] ->
        selected_widgets_list s = []).
Proof.
  intros T s'. subst s'. unfold outcome, exec.
  rewrite (mouseReleaseEvent_spec s T). cbn [fst snd emitted released].
  split; [reflexivity|]. split; [reflexivity|].
  split; [apply live_paths_released|]. split; [now intros ->|]. split.
  - intros s0 widget moves -> L H. unfold exec, drag, bind.
    rewrite (press_highlighted s0 widget H).
    rewrite moves_released by reflexivity. cbn [fst].
    unfold exec, deselect, bind, get.
    cbn [last_path_highlighted set_emitted set_has_highlighted].
    destruct (last_path_highlighted s0); exact L.
  - intros s0 widget moves -> L H A OK I TA. unfold exec, drag, bind.
    rewrite (press_elsewhere s0 widget H I).
    destruct (moves_pressed moves (set_mouse_pressed true s0))
      as (s1 & added & E & F & _); auto.
    rewrite E. cbn [fst]. rewrite F.
    cbn [heap selected_widgets_list set_mouse_pressed].
    rewrite enter_fold_distinct, L, TA. reflexivity.
Qed.

Lemma release_always_emits_witness :
  all_tiles (heap tractor_dismissed)
            (selected_widgets_list tractor_dismissed) = true
  /\ selected_widgets_list tractor_dismissed = []
  /\ emitted (exec mouseReleaseEvent tractor_dismissed)
     = emitted tractor_dismissed ++ [mouseReleaseProc EmptyString]
  /\ emitted tractor_dismissed = [clearHighlight true].
Proof.
  assert (T : all_tiles (heap tractor_dismissed)
                        (selected_widgets_list tractor_dismissed) = true)
    by (vm_compute; reflexivity).
  assert (E : selected_widgets_list tractor_dismissed = [])
    by (vm_compute; reflexivity).
  split; [exact T|]. split; [exact E|]. split.
  - exact (proj1 (proj2 (proj2 (proj2
             (release_always_emits tractor_dismissed T)))) E).
  - vm_compute. reflexivity.
Defined.

(** C3: in a world that shows no replay highlight, a press on a tile [t1]
    that is not already selected, moves over any items and a release raise
    nothing; at the release the selection is the sequence of the distinct
    tiles visited, in the order of their first visit, without a repeat,
    and the word emitted is the concatenation of their characters, after one
    tile-entered notification per selected tile.  No sequence of mouse
    events ever puts a tile twice in the selection. *)
Theorem drag_release_spells s t1 moves :
  has_highlighted s = false ->
  anchored (heap s) = true ->
  selection_ok s = true ->
  tile_at (heap s) t1 <> None ->
  set_in t1 (selected_widgets_set s) = false ->
  let visited := distinct (t1 :: tiles_among (heap s) moves) in
  let gesture := drag (Some t1) moves ;; mouseReleaseEvent in
  outcome gesture s = Ok tt
  /\ selected_widgets_list (exec (drag (Some t1) moves) s) = visited
  /\ NoDup visited
  /\ emitted (exec gesture s)
     = emitted s ++ map mouseOverWidget visited
       ++ [mouseReleaseProc (spelled (heap s) visited)]
  /\ selected_widgets_list (exec gesture s) = []
  /\ forall events,
       NoDup (selected_widgets_list (exec (for_each events handle) s)).
Proof.
  intros H A OK T I visited gesture.
  pose proof (press_tile s t1 H T I) as P.
  set (s0 := mkWorld _ _ _ _ _ _ _ _ _ _ _ _ _) in P.
  assert (OK0 : selection_ok s0 = true).
  { unfold selection_ok, all_tiles, set_in. cbn [s0 heap
      selected_widgets_list selected_widgets_set forallb existsb nodupb].
    destruct (tile_at (heap s) t1); [|congruence].
    now rewrite Nat.eqb_refl. }
  destruct (moves_pressed moves s0 eq_refl A OK0)
    as (s1 & added & E & F & X & M & OK1 & A1 & _ & _ & _ & C1 & _).
  cbn [s0 heap selected_widgets_list emitted] in F, X, M.
  rewrite distinct_from in F. fold visited in F.
  assert (D : drag (Some t1) moves s = (s1, Ok tt)).
  { unfold drag, bind. now rewrite P, E. }
  assert (T1 : all_tiles (heap s1) (selected_widgets_list s1) = true).
  { apply selection_ok_iff in OK1. apply all_tiles_spec. tauto. }
  assert (G : gesture s = (released s1, Ok tt)).
  { unfold gesture, bind. rewrite D. now apply mouseReleaseEvent_spec. }
  unfold outcome, exec. rewrite G, D. cbn [fst snd].
  split; [reflexivity|]. split; [exact F|]. split.
  { rewrite <- F. apply selection_ok_iff in OK1. tauto. }
  split.
  { cbn [released emitted]. rewrite M. unfold spelled.
    rewrite (chars_of_ext (heap s) (heap s1)) by exact C1.
    rewrite F. rewrite <- (app_assoc (emitted s)).
    replace ([mouseOverWidget t1] ++ map mouseOverWidget added)
      with (map mouseOverWidget visited)
      by (rewrite <- F, X; reflexivity).
    now rewrite <- app_assoc. }
  split; [reflexivity|].
  intros events. destruct (events_ok events s A OK) as (s2 & E2 & _ & OK2).
  rewrite E2. cbn [fst]. apply selection_ok_iff in OK2. tauto.
Qed.

Lemma drag_release_spells_witness :
  has_highlighted tractor = false
  /\ selected_widgets_list
       (exec (drag (Some 3%nat) [Some 2; Some 3; None; Some 0; Some 2]%nat)
             tractor)
     = distinct (3%nat :: tiles_among (heap tractor)
                            [Some 2; Some 3; None; Some 0; Some 2]%nat)
  /\ distinct (3%nat :: tiles_among (heap tractor)
                           [Some 2; Some 3; None; Some 0; Some 2]%nat)
     = [3; 2; 0]%nat
  /\ spelled (heap tractor) [3; 2; 0]%nat = "CAT"%string.
Proof.
  assert (H : has_highlighted tractor = false) by reflexivity.
  assert (A : anchored (heap tractor) = true) by (vm_compute; reflexivity).
  assert (OK : selection_ok tractor = true) by (vm_compute; reflexivity).
  assert (T : tile_at (heap tractor) 3 <> None)
    by (vm_compute; discriminate).
  assert (I : set_in 3 (selected_widgets_set tractor) = false)
    by reflexivity.
  split; [exact H|]. split.
  - exact (proj1 (proj2 (drag_release_spells tractor 3%nat
                           [Some 2; Some 3; None; Some 0; Some 2]%nat
                           H A OK T I))).
  - split; vm_compute; reflexivity.
Defined.

(** C4, the counterexample: on the TRACTOR wheel, after a press on the
    first tile and moves over the second and the third, two live (green)
    path items are on the scene, the one of the first move still there;
    the second holds five drawing commands, the polyline of the first move
    followed by the polyline of the second. *)
Lemma two_live_paths :
  live_paths (exec (drag (Some 0%nat) [Some 1; Some 2]%nat) tractor)
  = [8; 9]%nat
  /\ option_map (fun p => List.length (path p))
       (path_at (heap (exec (drag (Some 0%nat) [Some 1; Some 2]%nat)
                            tractor)) 9)
     = Some 5%nat.
Proof. vm_compute. split; reflexivity. Qed.

(** C4, amended: during a drag, a move after which the selection has at
    least two tiles appends the polyline through the anchors of the selected
    tiles to the drag path and adds one new green path item drawn from that
    path; the items on the scene before the move, the earlier live paths
    among them, stay as they were, so the live paths are one more; the
    release removes them all. *)
Theorem move_adds_live_path s widget :
  mouse_pressed s = true ->
  anchored (heap s) = true ->
  selection_ok s = true ->
  scene_ok s = true ->
  let sel := enter (heap s) widget (selected_widgets_list s) in
  (2 <= List.length sel)%nat ->
  let s' := exec (mouseMoveEvent widget) s in
  let item := List.length (heap s) in
  let drawn := paint_path s ++ polyline (anchors (heap s) sel) in
  outcome (mouseMoveEvent widget) s = Ok tt
  /\ selected_widgets_list s' = sel
  /\ paint_path s' = drawn
  /\ scene s' = scene s ++ [item]
  /\ path_at (heap s') item = Some (mkPathItem drawn (mkPen green 3))
  /\ (forall r, In r (scene s) -> path_at (heap s') r = path_at (heap s) r)
  /\ live_paths s' = live_paths s ++ [item]
  /\ live_paths (exec mouseReleaseEvent s') = [].
Proof.
  intros P A OK SO sel L s' item drawn.
  destruct (mouseMoveEvent_pressed s widget P A OK)
    as (s1 & E & Hl & OK1 & _ & _ & _ & _ & _ & _ & Hp & _ & _ & D).
  fold sel in Hl, D.
  assert (L' : Nat.ltb 1 (List.length sel) = true) by (apply Nat.ltb_lt; lia).
  rewrite L' in D. cbv zeta in D. destruct D as (Hs & Hi & Hd).
  subst s'. unfold outcome, exec. rewrite E. cbn [fst snd].
  rewrite scene_ok_iff in SO.
  assert (G : is_green_path (heap s1) item = true).
  { unfold is_green_path, item. now rewrite Hi. }
  repeat split; auto.
  - unfold live_paths. rewrite Hs, filter_app. cbn [filter].
    fold item. rewrite G. f_equal. apply filter_ext_in. intros r Hr.
    unfold is_green_path. now rewrite Hp by auto.
  - assert (T1 : all_tiles (heap s1) (selected_widgets_list s1) = true).
    { apply selection_ok_iff in OK1. apply all_tiles_spec. tauto. }
    rewrite (mouseReleaseEvent_spec s1 T1). apply live_paths_released.
Qed.

Lemma move_adds_live_path_witness :
  mouse_pressed tractor_CA = true
  /\ (2 <= List.length (enter (heap tractor_CA) (Some 0%nat)
                               (selected_widgets_list tractor_CA)))%nat
  /\ live_paths (exec (mouseMoveEvent (Some 0%nat)) tractor_CA)
     = live_paths tractor_CA ++ [List.length (heap tractor_CA)]
  /\ live_paths tractor_CA = [8%nat]
  /\ List.length (heap tractor_CA) = 9%nat.
Proof.
  assert (P : mouse_pressed tractor_CA = true) by (vm_compute; reflexivity).
  assert (A : anchored (heap tractor_CA) = true)
    by (vm_compute; reflexivity).
  assert (OK : selection_ok tractor_CA = true) by (vm_compute; reflexivity).
  assert (SO : scene_ok tractor_CA = true) by (vm_compute; reflexivity).
  assert (L : (2 <= List.length
                      (enter (heap tractor_CA) (Some 0%nat)
                             (selected_widgets_list tractor_CA)))%nat)
    by (vm_compute; lia).
  split; [exact P|]. split; [exact L|]. split.
  - exact (proj1 (proj2 (proj2 (proj2 (proj2 (proj2 (proj2
             (move_adds_live_path tractor_CA (Some 0%nat)
                P A OK SO L)))))))).
  - split; vm_compute; reflexivity.
Defined.

Lemma chars_length word :
  List.length (list_ascii_of_string word) = String.length word.
Proof. induction word; simpl; congruence. Qed.

(** The world after a [word_path] that matched at least one tile. *)
Lemma word_path_drawn word s wh :
  wheel s = Some wh ->
  unflagged (heap s) wh = true ->
  anchored (heap s) = true ->
  let sel := greedy (heap s) wh [] (list_ascii_of_string word) in
  let s' := exec (word_path word) s in
  let item := List.length (heap s) in
  sel <> [] ->
  outcome (word_path word) s = Ok tt
  /\ scene s' = scene (exec deselect s) ++ [item]
  /\ path_at (heap s') item
     = Some (mkPathItem (polyline (anchors (heap s) sel)) (mkPen blue 3))
  /\ last_path_highlighted s' = Some item
  /\ has_highlighted s' = true
  /\ (forall r, tile_at (heap s') r = tile_at (heap s) r).
Proof.
  intros W U A sel s' item NE. subst s'. unfold outcome, exec.
  rewrite (word_path_spec word s wh W U A). fold sel.
  destruct sel as [|x l] eqn:E; [congruence|]. cbn [fst snd].
  repeat split; auto.
  - cbn [heap set_has_highlighted set_last_path_highlighted set_scene
         set_heap]. apply path_at_app_new.
  - intros r. cbn [heap set_has_highlighted set_last_path_highlighted
                   set_scene set_heap]. apply tile_at_app_path.
Qed.

(** C1, the counterexample: on a wheel loaded with ZAP, which has a
    single Z, the letters of ZZZ cannot all be matched, and yet
    [word_path "ZZZ"] raises nothing and adds a blue path item to the
    scene; on the TRACTOR wheel, which has no Z, with the replay of CAT
    showing, it raises [IndexError] after it has removed that replay from
    the scene. *)
Lemma word_path_ZZZ_not_refused :
  matchable (heap zap) [0; 1; 2]%nat (list_ascii_of_string "ZZZ") = false
  /\ wheel zap = Some [0; 1; 2]%nat
  /\ outcome (word_path "ZZZ") zap = Ok tt
  /\ scene zap = [0; 1; 2; 3]%nat
  /\ scene (exec (word_path "ZZZ") zap) = [0; 1; 2; 3; 4]%nat
  /\ is_blue_path (heap (exec (word_path "ZZZ") zap)) 4 = true
  /\ outcome (word_path "ZZZ") tractor_cat = Raise IndexError
  /\ scene tractor_cat = [0; 1; 2; 3; 4; 5; 6; 7; 8]%nat
  /\ scene (exec (word_path "ZZZ") tractor_cat)
     = [0; 1; 2; 3; 4; 5; 6; 7]%nat.
Proof. vm_compute. repeat split; reflexivity. Qed.

(** C1, amended: on a loaded wheel, for a word whose letters cannot all be
    matched one-to-one against the tiles but at least one of which is on
    the wheel, [word_path] raises nothing: after the removal of the previous
    replay, if any, it adds a blue path through the tiles the greedy
    assignment did match, at least one and fewer than the word has letters,
    records it as the replay and sets [has_highlighted]; no tile is left
    changed (every [hit] flag is clear again). *)
Theorem word_path_under_match s wh word :
  wheel s = Some wh ->
  nodupb wh = true ->
  unflagged (heap s) wh = true ->
  anchored (heap s) = true ->
  matchable (heap s) wh (list_ascii_of_string word) = false ->
  some_letter_on (heap s) wh (list_ascii_of_string word) = true ->
  let sel := greedy (heap s) wh [] (list_ascii_of_string word) in
  let s' := exec (word_path word) s in
  let item := List.length (heap s) in
  outcome (word_path word) s = Ok tt
  /\ (1 <= List.length sel < String.length word)%nat
  /\ scene s'
     = match last_path_highlighted s with
       | Some p => remove Nat.eq_dec p (scene s)
       | None => scene s
       end ++ [item]
  /\ path_at (heap s') item
     = Some (mkPathItem (polyline (anchors (heap s) sel)) (mkPen blue 3))
  /\ last_path_highlighted s' = Some item
  /\ has_highlighted s' = true
  /\ (forall r, tile_at (heap s') r = tile_at (heap s) r).
Proof.
  intros W ND U A M SL sel s' item.
  pose proof (greedy_nonempty _ _ _ SL) as NE. fold sel in NE.
  destruct (word_path_drawn word s wh W U A NE)
    as (O & Sc & Pa & La & Hh & Ti).
  destruct (deselect_spec s) as (_ & _ & _ & _ & Ds). rewrite Ds in Sc.
  apply nodupb_NoDup in ND.
  repeat split; auto.
  - destruct sel; [congruence|simpl; lia].
  - pose proof (greedy_length_le (heap s) wh (list_ascii_of_string word) [])
      as LE.
    fold sel in LE. rewrite chars_length in LE.
    destruct (Nat.eq_dec (List.length sel) (String.length word)) as [E|N];
      [|lia].
    rewrite <- chars_length in E.
    apply (greedy_matchable _ _ _ ND) in E. congruence.
Qed.

Lemma word_path_under_match_witness :
  matchable (heap zap) [0; 1; 2]%nat (list_ascii_of_string "ZZZ") = false
  /\ some_letter_on (heap zap) [0; 1; 2]%nat (list_ascii_of_string "ZZZ")
     = true
  /\ greedy (heap zap) [0; 1; 2]%nat [] (list_ascii_of_string "ZZZ")
     = [0%nat]
  /\ has_highlighted (exec (word_path "ZZZ") zap) = true.
Proof.
  assert (M : matchable (heap zap) [0; 1; 2]%nat
                        (list_ascii_of_string "ZZZ") = false)
    by (vm_compute; reflexivity).
  assert (SL : some_letter_on (heap zap) [0; 1; 2]%nat
                              (list_ascii_of_string "ZZZ") = true)
    by (vm_compute; reflexivity).
  split; [exact M|]. split; [exact SL|].
  split; [vm_compute; reflexivity|].
  assert (W : wheel zap = Some [0; 1; 2]%nat) by reflexivity.
  assert (U : unflagged (heap zap) [0; 1; 2]%nat = true)
    by (vm_compute; reflexivity).
  assert (A : anchored (heap zap) = true) by (vm_compute; reflexivity).
  exact (proj1 (proj2 (proj2 (proj2 (proj2 (proj2
           (word_path_under_match zap [0; 1; 2]%nat "ZZZ"
              W eq_refl U A M SL))))))).
Defined.

(** C2: on a loaded wheel, for a word whose letters can all be matched,
    the loops of [word_path] compute the greedy assignment of the spec:
    one tile per letter, the tile of letter [k] being the first tile of the
    wheel, in wheel order, with that character that the letters before [k]
    have not taken; the tiles selected are flagged ([hit]) and no other, and
    they are pairwise distinct.  For a non-empty word [word_path] then
    raises nothing and the replay it records is the path through the
    anchors of the selected tiles, in the order of the letters. *)
Theorem word_path_greedy s wh word :
  wheel s = Some wh ->
  nodupb wh = true ->
  unflagged (heap s) wh = true ->
  anchored (heap s) = true ->
  matchable (heap s) wh (list_ascii_of_string word) = true ->
  let chars := list_ascii_of_string word in
  let sel := greedy (heap s) wh [] chars in
  let flagged := retile (MyQGPixmapItem.set_hit true) sel (heap s) in
  assign chars wh [] (exec deselect s)
  = (set_heap flagged (exec deselect s), Ok sel)
  /\ List.length sel = List.length chars
  /\ NoDup sel
  /\ (forall k c, nth_error chars k = Some c ->
        nth_error sel k = first_free (heap s) wh c (firstn k sel))
  /\ (forall r t, tile_at (heap s) r = Some t ->
        tile_at flagged r
        = Some (if set_in r sel then MyQGPixmapItem.set_hit true t else t))
  /\ (word <> EmptyString ->
      let s' := exec (word_path word) s in
      let item := List.length (heap s) in
      outcome (word_path word) s = Ok tt
      /\ last_path_highlighted s' = Some item
      /\ In item (scene s')
      /\ path_at (heap s') item
         = Some (mkPathItem (polyline (anchors (heap s) sel))
                            (mkPen blue 3))
      /\ has_highlighted s' = true
      /\ (forall r, tile_at (heap s') r = tile_at (heap s) r)).
Proof.
  intros W ND U A M chars sel flagged.
  apply nodupb_NoDup in ND.
  assert (L : List.length sel = List.length chars).
  { apply greedy_matchable; assumption. }
  destruct (deselect_spec s) as (_ & Dh & _).
  split.
  { rewrite (assign_spec (heap s) wh chars [] [] (exec deselect s) U)
      by exact Dh. reflexivity. }
  split; [exact L|]. split; [apply greedy_NoDup|]. split.
  { intros k c K. unfold sel. rewrite (greedy_nth _ _ _ [] k c L K).
    reflexivity. }
  split.
  { intros r t E. unfold flagged.
    rewrite tile_at_retile by (intros; apply set_hit_idem).
    now rewrite E. }
  intros NE s' item.
  assert (NS : sel <> []).
  { intros E. rewrite E in L. unfold chars in L.
    destruct word; [congruence|discriminate]. }
  destruct (word_path_drawn word s wh W U A NS)
    as (O & Sc & Pa & La & Hh & Ti).
  repeat split; auto.
  subst s'. rewrite Sc. apply in_app_iff. right. now left.
Qed.

Lemma word_path_greedy_witness :
  wheel tractor = Some [0; 1; 2; 3; 4; 5; 6]%nat
  /\ matchable (heap tractor) [0; 1; 2; 3; 4; 5; 6]%nat
               (list_ascii_of_string "CAT") = true
  /\ greedy (heap tractor) [0; 1; 2; 3; 4; 5; 6]%nat []
            (list_ascii_of_string "CAT") = [3; 2; 0]%nat
  /\ NoDup (greedy (heap tractor) [0; 1; 2; 3; 4; 5; 6]%nat []
                   (list_ascii_of_string "CAT"))
  /\ outcome (assign (list_ascii_of_string "CAT")
                     [0; 1; 2; 3; 4; 5; 6]%nat [])
             (exec deselect tractor)
     = Ok [3; 2; 0]%nat.
Proof.
  assert (W : wheel tractor = Some [0; 1; 2; 3; 4; 5; 6]%nat)
    by reflexivity.
  assert (U : unflagged (heap tractor) [0; 1; 2; 3; 4; 5; 6]%nat = true)
    by (vm_compute; reflexivity).
  assert (A : anchored (heap tractor) = true) by (vm_compute; reflexivity).
  assert (M : matchable (heap tractor) [0; 1; 2; 3; 4; 5; 6]%nat
                        (list_ascii_of_string "CAT") = true)
    by (vm_compute; reflexivity).
  split; [exact W|]. split; [exact M|].
  split; [vm_compute; reflexivity|].
  destruct (word_path_greedy tractor [0; 1; 2; 3; 4; 5; 6]%nat "CAT"
              W eq_refl U A M) as (E & _ & N & _).
  split; [exact N|].
  unfold outcome. rewrite E. vm_compute. reflexivity.
Defined.

(** ** The layout *)

Lemma init_Ok img i n a c rad :
  n <> 0%Z ->
  exists t, MyQGPixmapItem.init img i n a c rad = Ok t.
Proof.
  intros N. unfold MyQGPixmapItem.init. apply Z.eqb_neq in N. rewrite N.
  eauto.
Qed.

(** The fields of a tile after [__init__] and the two calls of
    [calc_position]. *)
Lemma placed_fields img i n a c rad t :
  MyQGPixmapItem.init img i n a c rad = Ok t ->
  let theta := (2 * PI * IZR i / IZR n)%R in
  MyQGPixmapItem.alpha (placed rad t) = a
  /\ MyQGPixmapItem.idx (placed rad t) = i
  /\ MyQGPixmapItem.angle (placed rad t) = theta
  /\ MyQGPixmapItem.hit (placed rad t) = false
  /\ MyQGPixmapItem.pos (placed rad t)
     = mkPoint (px c + IZR rad * cos theta - width img / 2)
               (py c + IZR rad * sin theta - height img / 2)
  /\ (rad <> 15%Z ->
      MyQGPixmapItem.offset_xy (placed rad t)
      = Some (mkPoint (px c + IZR (rad - 15) * cos theta)
                      (py c + IZR (rad - 15) * sin theta))).
Proof.
  unfold MyQGPixmapItem.init. destruct (n =? 0)%Z; [discriminate|].
  intros E. injection E as E. subst t. cbv zeta.
  unfold placed, MyQGPixmapItem.calc_position.
  cbn. split; [reflexivity|]. split; [reflexivity|].
  split; [reflexivity|]. split; [reflexivity|]. split; [reflexivity|].
  intros N. assert (E : (rad - 15 =? 0)%Z = false) by (apply Z.eqb_neq; lia).
  now rewrite E.
Qed.

(** The wheel a successful [make_word] builds. *)
Lemma make_word_wheel word s :
  word <> EmptyString ->
  has_glyphs s (list_ascii_of_string word) = true ->
  let chars := list_ascii_of_string word in
  let n := List.length chars in
  let base := List.length (heap s) in
  let s' := exec (make_word word) s in
  outcome (make_word word) s = Ok tt
  /\ wheel s' = Some (seq base n)
  /\ scene s' = scene s ++ seq base n ++ [(base + n)%nat]
  /\ forall i a, nth_error chars i = Some a ->
       exists img t,
         dict_get (letters s) a = Ok img
         /\ MyQGPixmapItem.init img (Z.of_nat i) (Z.of_nat n) a
                                (center s) (radius s) = Ok t
         /\ tile_at (heap s') (base + i) = Some (placed (radius s) t).
Proof.
  intros NE G chars n base s'.
  destruct (make_word_spec word s NE G) as (ts & L & K & E).
  cbv zeta in E. subst s'. unfold outcome, exec. rewrite E. cbn [fst snd].
  split; [reflexivity|]. split; [reflexivity|]. split.
  { cbn [scene set_wheel set_scene]. rewrite length_app, !length_map.
    now rewrite L. }
  intros i a Hi. destruct (K i a Hi) as (t & Ht & img & D & I).
  exists img, t. split; [exact D|]. split; [exact I|].
  cbn [heap set_wheel set_scene set_heap].
  rewrite tile_at_app_path. unfold base. rewrite tile_at_tiles.
  now rewrite nth_error_map, Ht.
Qed.









(** ** A word with no letter on the wheel *)

Lemma char_on_wheel h wh r c :
  In r wh -> char_at h r = Some c -> In c (chars_of h wh).
Proof.
  intros I C. unfold chars_of. apply in_flat_map. exists r.
  split; auto. rewrite C. now left.
Qed.

Lemma first_free_absent h wh c used :
  count_char c (chars_of h wh) = 0%nat -> first_free h wh c used = None.
Proof.
  intros Z. unfold first_free.
  destruct (find (unused_match h c used) wh) as [r|] eqn:F; auto.
  apply find_some in F. destruct F as [I U]. unfold unused_match in U.
  destruct (char_at h r) as [a|] eqn:C; [|discriminate].
  apply andb_true_iff in U. destruct U as [E _].
  apply Ascii.eqb_eq in E. subst a.
  pose proof (char_on_wheel h wh r c I C) as H.
  apply (count_occ_In ascii_dec) in H. unfold count_char in Z. lia.
Qed.

Lemma greedy_absent h wh word : forall used,
  some_letter_on h wh word = false -> greedy h wh used word = [].
Proof.
  unfold some_letter_on. induction word as [|c word IH]; intros used H.
  - reflexivity.
  - cbn [existsb] in H. apply orb_false_iff in H. destruct H as [Hc H].
    apply Nat.ltb_ge in Hc. cbn [greedy].
    rewrite first_free_absent by (unfold count_char; lia).
    now apply IH.
Qed.

(** ** The keys of the dict of glyphs *)

Lemma dict_get_letters f a :
  dict_get (get_letters f) a
  = if is_capital a then Ok (f a) else Raise KeyError.
Proof.
  destruct a as [b0 b1 b2 b3 b4 b5 b6 b7].
  destruct b0, b1, b2, b3, b4, b5, b6, b7; reflexivity.
Qed.

Lemma has_glyphs_capital f s word :
  letters s = get_letters f ->
  has_glyphs s word = forallb is_capital word.
Proof.
  intros L. unfold has_glyphs. rewrite L.
  induction word as [|a word IH]; cbn [forallb]; auto.
  rewrite IH, dict_get_letters. now destruct (is_capital a).
Qed.

(** ** The assignment reads the letters of the tiles only *)

Lemma find_ext_in {A} (f g : A -> bool) l :
  (forall x, In x l -> f x = g x) -> find f l = find g l.
Proof.
  induction l as [|x l IH]; intros H; simpl; auto.
  rewrite <- (H x) by (simpl; auto). destruct (f x); auto.
  apply IH. intros y Hy. apply H. simpl; auto.
Qed.

Lemma find_skip {A} (f : A -> bool) pre l :
  (forall x, In x pre -> f x = false) -> find f (pre ++ l) = find f l.
Proof.
  induction pre as [|x pre IH]; intros H; simpl; auto.
  rewrite (H x) by (simpl; auto). apply IH. intros y Hy. apply H.
  simpl; auto.
Qed.

Lemma greedy_ext h h' wh word :
  (forall r, char_at h' r = char_at h r) ->
  forall used, greedy h' wh used word = greedy h wh used word.
Proof.
  intros H. induction word as [|c word IH]; intros used; cbn [greedy]; auto.
  assert (F : first_free h' wh c used = first_free h wh c used).
  { unfold first_free. apply find_ext_in. intros r _.
    unfold unused_match. now rewrite H. }
  rewrite F. destruct (first_free h wh c used); now rewrite IH.
Qed.

(** Asked for the letters of the wheel in wheel order, the assignment
    takes the tiles in wheel order. *)
Lemma greedy_self h suf : forall pre,
  NoDup (pre ++ suf) ->
  (forall r, In r suf -> char_at h r <> None) ->
  greedy h (pre ++ suf) pre (chars_of h suf) = suf.
Proof.
  induction suf as [|r suf IH]; intros pre N T.
  - reflexivity.
  - destruct (char_at h r) as [a|] eqn:C.
    2:{ elim (T r); simpl; auto. }
    assert (Ec : chars_of h (r :: suf) = a :: chars_of h suf).
    { unfold chars_of. cbn [flat_map]. now rewrite C. }
    rewrite Ec. cbn [greedy].
    assert (Nr : ~ In r pre).
    { apply NoDup_remove_2 in N. intros I. apply N.
      apply in_app_iff. now left. }
    assert (F : first_free h (pre ++ r :: suf) a pre = Some r).
    { unfold first_free. rewrite find_skip.
      - cbn [find]. unfold unused_match at 1. rewrite C, Ascii.eqb_refl.
        apply set_in_false in Nr. now rewrite Nr.
      - intros x Hx. unfold unused_match.
        destruct (char_at h x); auto.
        apply set_in_In in Hx. rewrite Hx. apply andb_false_r. }
    rewrite F. f_equal.
    replace (pre ++ r :: suf) with ((pre ++ [r]) ++ suf)
      by now rewrite <- app_assoc.
    apply IH.
    + now rewrite <- app_assoc.
    + intros x Hx. apply T. now right.
Qed.

Lemma chars_of_seq h chars : forall base,
  (forall i a, nth_error chars i = Some a ->
               char_at h (base + i) = Some a) ->
  chars_of h (seq base (List.length chars)) = chars.
Proof.
  induction chars as [|a chars IH]; intros base H.
  - reflexivity.
  - cbn [List.length seq]. unfold chars_of. cbn [flat_map].
    pose proof (H 0%nat a eq_refl) as H0. rewrite Nat.add_0_r in H0.
    rewrite H0. cbn [app]. f_equal. apply IH.
    intros i b Hi. replace (S base + i)%nat with (base + S i)%nat by lia.
    now apply H.
Qed.

Lemma anchors_length h rs :
  (forall r, In r rs -> anchor h r <> None) ->
  List.length (anchors h rs) = List.length rs.
Proof.
  unfold anchors. induction rs as [|r rs IH]; intros H; auto.
  cbn [flat_map]. rewrite length_app, IH by (intros; apply H; now right).
  destruct (anchor h r) eqn:A; [reflexivity|].
  elim (H r); auto. now left.
Qed.

Lemma polyline_length ps : List.length (polyline ps) = List.length ps.
Proof. destruct ps; simpl; auto. now rewrite length_map. Qed.

(** * Further properties of the module *)

(** ** The geometry of the wheel *)





(** X2: the first letter of every word is placed due east of the centre:
    its glyph is centred on (center + (radius, 0)) and its anchor is
    (center + (radius - 15, 0)), whatever the length of the word. *)
Theorem make_word_first_tile word s :
  word <> EmptyString ->
  has_glyphs s (list_ascii_of_string word) = true ->
  radius s <> 15%Z ->
  let s' := exec (make_word word) s in
  exists r rest t a img,
    wheel s' = Some (r :: rest)
    /\ tile_at (heap s') r = Some t
    /\ nth_error (list_ascii_of_string word) 0 = Some a
    /\ MyQGPixmapItem.alpha t = a
    /\ dict_get (letters s) a = Ok img
    /\ MyQGPixmapItem.pos t
       = mkPoint (px (center s) + IZR (radius s) - width img / 2)
                 (py (center s) - height img / 2)
    /\ MyQGPixmapItem.offset_xy t
       = Some (mkPoint (px (center s) + IZR (radius s - 15))
                       (py (center s))).
Proof.
  intros NE G R s'.
  destruct (make_word_wheel word s NE G) as (_ & W & _ & K).
  fold s' in W, K.
  destruct (list_ascii_of_string word) as [|a chars] eqn:E.
  { destruct word; [congruence|discriminate]. }
  destruct (K 0%nat a eq_refl) as (img & t0 & D & I & T).
  rewrite Nat.add_0_r in T.
  destruct (placed_fields _ _ _ _ _ _ _ I) as (Fa & _ & _ & _ & P & F).
  cbn [List.length seq] in W.
  exists (List.length (heap s)), (seq (S (List.length (heap s)))
                                     (List.length chars)),
    (placed (radius s) t0), a, img.
  assert (Z0 : (2 * PI * IZR (Z.of_nat 0)
                / IZR (Z.of_nat (List.length (a :: chars))) = 0)%R).
  { cbn [Z.of_nat]. unfold Rdiv. now rewrite Rmult_0_r, Rmult_0_l. }
  rewrite Z0, cos_0, sin_0 in P. rewrite (F R), Z0, cos_0, sin_0.
  rewrite !Rmult_1_r, !Rmult_0_r, !Rplus_0_r in *.
  repeat split; auto.
Qed.

Lemma make_word_first_tile_witness :
  has_glyphs fresh (list_ascii_of_string "ZAP") = true
  /\ radius fresh <> 15%Z
  /\ exists r rest t a img,
       wheel (exec (make_word "ZAP") fresh) = Some (r :: rest)
       /\ tile_at (heap (exec (make_word "ZAP") fresh)) r = Some t
       /\ nth_error (list_ascii_of_string "ZAP") 0 = Some a
       /\ MyQGPixmapItem.alpha t = a
       /\ dict_get (letters fresh) a = Ok img
       /\ MyQGPixmapItem.pos t
          = mkPoint (px (center fresh) + IZR (radius fresh) - width img / 2)
                    (py (center fresh) - height img / 2)
       /\ MyQGPixmapItem.offset_xy t
          = Some (mkPoint (px (center fresh) + IZR (radius fresh - 15))
                          (py (center fresh))).
Proof.
  assert (G : has_glyphs fresh (list_ascii_of_string "ZAP") = true)
    by (vm_compute; reflexivity).
  assert (R : radius fresh <> 15%Z) by (vm_compute; discriminate).
  assert (NE : "ZAP"%string <> EmptyString) by discriminate.
  split; [exact G|]. split; [exact R|].
  exact (make_word_first_tile "ZAP" fresh NE G R).
Defined.

(** X3: the outline [make_word] draws is one red path item, the last item
    added to the scene: a [moveTo] the anchor of the first tile, then a
    [lineTo] the anchor of every tile of the wheel in wheel order, the first
    included, and a [closeSubpath]; one anchor per tile. *)
Theorem make_word_outline word s :
  word <> EmptyString ->
  has_glyphs s (list_ascii_of_string word) = true ->
  let s' := exec (make_word word) s in
  exists wh item,
    wheel s' = Some wh
    /\ scene s' = scene s ++ wh ++ [item]
    /\ path_at (heap s') item
       = Some (mkPathItem (outline (anchors (heap s') wh)) (mkPen red 3))
    /\ List.length (anchors (heap s') wh) = List.length wh
    /\ List.length (outline (anchors (heap s') wh)) = (List.length wh + 2)%nat.
Proof.
  intros NE G s'.
  destruct (make_word_spec word s NE G) as (ts & L & _ & E).
  cbv zeta in E. subst s'. unfold exec. rewrite E. cbn [fst].
  set (n := List.length (list_ascii_of_string word)) in *.
  set (refs := seq (List.length (heap s)) n).
  set (h1 := heap s ++ map OTile (map (placed (radius s)) ts)).
  set (p := mkPathItem _ _).
  cbn [wheel scene heap set_wheel set_scene set_heap].
  assert (AE : anchors (h1 ++ [OPath p]) refs = anchors h1 refs).
  { apply anchors_ext. intros r. unfold anchor.
    now rewrite tile_at_app_path. }
  assert (AL : List.length (anchors h1 refs) = List.length refs).
  { assert (H : forall r, In r refs -> anchor h1 r <> None).
    { intros r Hr. unfold h1. apply anchor_placed. now rewrite L. }
    clear - H. unfold anchors. induction refs as [|r refs IH]; auto.
    cbn [flat_map]. rewrite length_app, IH by (intros; apply H; now right).
    destruct (anchor h1 r) eqn:A; [reflexivity|].
    elim (H r); auto. now left. }
  exists refs, (List.length h1). rewrite AE.
  split; [reflexivity|]. split; [reflexivity|].
  split; [apply path_at_app_new|]. split; [exact AL|].
  assert (N : (0 < n)%nat).
  { unfold n. destruct word; [congruence|simpl; lia]. }
  assert (LR : List.length refs = n) by apply length_seq.
  destruct (anchors h1 refs) as [|a0 l] eqn:A.
  { simpl in AL. lia. }
  cbn [outline List.length]. rewrite length_app, length_map.
  cbn [List.length] in *. unfold ref in *. lia.
Qed.

Lemma make_word_outline_witness :
  has_glyphs fresh (list_ascii_of_string "ZAP") = true
  /\ exists wh item,
       wheel (exec (make_word "ZAP") fresh) = Some wh
       /\ scene (exec (make_word "ZAP") fresh) = scene fresh ++ wh ++ [item]
       /\ path_at (heap (exec (make_word "ZAP") fresh)) item
          = Some (mkPathItem
                    (outline (anchors (heap (exec (make_word "ZAP") fresh))
                                      wh))
                    (mkPen red 3))
       /\ List.length (anchors (heap (exec (make_word "ZAP") fresh)) wh)
          = List.length wh
       /\ List.length
            (outline (anchors (heap (exec (make_word "ZAP") fresh)) wh))
          = (List.length wh + 2)%nat.
Proof.
  assert (G : has_glyphs fresh (list_ascii_of_string "ZAP") = true)
    by (vm_compute; reflexivity).
  assert (NE : "ZAP"%string <> EmptyString) by discriminate.
  split; [exact G|].
  exact (make_word_outline "ZAP" fresh NE G).
Defined.

(** ** What every call keeps true *)

Lemma is_blue_not_tile h r : is_blue_path h r = true -> tile_at h r = None.
Proof.
  unfold is_blue_path, path_at, tile_at.
  destruct (nth_error h r) as [[|]|]; auto; discriminate.
Qed.

Lemma tile_not_green h r : tile_at h r <> None -> is_green_path h r = false.
Proof.
  unfold is_green_path, path_at, tile_at.
  destruct (nth_error h r) as [[|]|]; auto; congruence.
Qed.

Lemma blue_not_green h r :
  is_blue_path h r = true -> is_green_path h r = false.
Proof.
  unfold is_blue_path, is_green_path. destruct (path_at h r) as [p|]; auto.
  destruct (color (pen p)); simpl; congruence.
Qed.

Lemma filter_blue_ext h h' l :
  (forall r, In r l -> path_at h' r = path_at h r) ->
  filter (is_blue_path h') l = filter (is_blue_path h) l.
Proof.
  intros H. apply filter_ext_in. intros r Hr. unfold is_blue_path.
  now rewrite H.
Qed.

Lemma remove_filter r l :
  remove Nat.eq_dec r l = filter (fun y => negb (Nat.eqb r y)) l.
Proof.
  rewrite <- (filter_all (remove Nat.eq_dec r l)), filter_remove.
  apply filter_ext. reflexivity.
Qed.

Lemma filter_comm {A} (f g : A -> bool) l :
  filter f (filter g l) = filter g (filter f l).
Proof.
  rewrite !filter_filter. apply filter_ext. intros x. apply andb_comm.
Qed.

Lemma NoDup_filter_ref (f : ref -> bool) l : NoDup l -> NoDup (filter f l).
Proof.
  induction 1 as [|x l N ND IH]; simpl; [constructor|].
  destruct (f x); auto. constructor; auto.
  intros H. apply filter_In in H. tauto.
Qed.

Lemma selection_tiles s r :
  selection_ok s = true -> In r (selected_widgets_list s) ->
  tile_at (heap s) r <> None.
Proof.
  intros OK. apply selection_ok_iff in OK. destruct OK as (T & _). auto.
Qed.

(** A call that allocates nothing and takes only paths off the scene. *)
Lemma sound_shrink s s' keep :
  sound s ->
  heap s' = heap s ->
  scene s' = filter keep (scene s) ->
  (forall r, tile_at (heap s) r <> None -> keep r = true) ->
  wheel s' = wheel s ->
  selection_ok s' = true ->
  (forall r, In r (selected_widgets_list s') -> In r (scene s)) ->
  filter (is_blue_path (heap s)) (filter keep (scene s))
  = match last_path_highlighted s' with
    | Some p => [p]
    | None => []
    end ->
  (last_path_highlighted s' <> None -> has_highlighted s' = true) ->
  sound s'.
Proof.
  intros [Sc Nd Ti Wh Se Sl Re Fl] Hh Hs Hk Hw OK Hsel Hr Hf.
  constructor; rewrite ?Hh, ?Hs, ?Hw; auto.
  - intros r Hr'. apply filter_In in Hr'. apply Sc. tauto.
  - now apply NoDup_filter_ref.
  - intros r t Hr'. apply filter_In in Hr'. apply Ti. tauto.
  - intros wh W. destruct (Wh wh W) as [N I]. split; auto.
    intros r Hr'. destruct (I r Hr') as [I1 I2]. split; auto.
    apply filter_In. auto.
  - intros r Hr'. apply filter_In. split; auto.
    apply Hk. rewrite <- Hh. now apply selection_tiles.
Qed.

Lemma sound_replay_path s p :
  sound s -> last_path_highlighted s = Some p ->
  tile_at (heap s) p = None.
Proof.
  intros S E. pose proof (sound_replay S) as R. rewrite E in R.
  assert (I : In p (filter (is_blue_path (heap s)) (scene s)))
    by (rewrite R; now left).
  apply filter_In in I. now apply is_blue_not_tile.
Qed.

Lemma filter_blue_removed s p :
  sound s -> last_path_highlighted s = Some p ->
  filter (is_blue_path (heap s))
         (filter (fun y => negb (Nat.eqb p y)) (scene s)) = [].
Proof.
  intros S E. rewrite filter_comm, (sound_replay S), E. simpl.
  now rewrite Nat.eqb_refl.
Qed.

Lemma deselect_sound s : sound s -> sound (exec deselect s).
Proof.
  intros S. destruct (deselect_spec s) as (_ & Dh & Dw & Dl & Ds).
  destruct (last_path_highlighted s) as [p|] eqn:E.
  - apply sound_shrink with (s := s) (keep := fun y => negb (Nat.eqb p y)).
    + exact S.
    + exact Dh.
    + now rewrite Ds, remove_filter.
    + intros r T. apply negb_true_iff, Nat.eqb_neq. intros <-.
      apply T. now apply sound_replay_path.
    + exact Dw.
    + assert (F : selection_ok (exec deselect s) = selection_ok s).
      { unfold exec, deselect, bind, get. now rewrite E. }
      rewrite F. apply (sound_selection S).
    + unfold exec, deselect, bind, get. rewrite E. apply (sound_selected S).
    + rewrite Dl. now apply filter_blue_removed.
    + rewrite Dl. congruence.
  - unfold exec, deselect, bind, get. now rewrite E.
Qed.

Lemma sans_path_item_eq o t' :
  sans_path_item o = sans_path_item (Some t') ->
  exists t, o = Some t
            /\ MyQGPixmapItem.hit t = MyQGPixmapItem.hit t'
            /\ MyQGPixmapItem.offset_xy t = MyQGPixmapItem.offset_xy t'
            /\ MyQGPixmapItem.alpha t = MyQGPixmapItem.alpha t'.
Proof.
  destruct o as [t|]; [|discriminate]. intros E. exists t.
  split; auto. cbn in E. injection E. intros. auto.
Qed.

Lemma sans_path_item_tile h h' r :
  sans_path_item (tile_at h' r) = sans_path_item (tile_at h r) ->
  (tile_at h' r <> None <-> tile_at h r <> None).
Proof.
  destruct (tile_at h' r), (tile_at h r); simpl; split; congruence.
Qed.

Lemma selection_ok_ext s s' :
  (forall r, In r (selected_widgets_list s) ->
             sans_path_item (tile_at (heap s') r)
             = sans_path_item (tile_at (heap s) r)) ->
  selected_widgets_list s' = selected_widgets_list s ->
  selected_widgets_set s' = selected_widgets_set s ->
  selection_ok s = true -> selection_ok s' = true.
Proof.
  intros T L E OK. apply selection_ok_iff in OK.
  apply selection_ok_iff. rewrite L, E. destruct OK as (O1 & O2 & O3).
  repeat split; auto; try apply O3.
  intros r Hr. apply (sans_path_item_tile _ _ _ (T r Hr)). auto.
Qed.

(** A call that allocates objects and adds some of them to the scene. *)
Lemma sound_grow s s' news :
  sound s ->
  (List.length (heap s) <= List.length (heap s'))%nat ->
  (forall r, (r < List.length (heap s))%nat ->
             path_at (heap s') r = path_at (heap s) r
             /\ sans_path_item (tile_at (heap s') r)
                = sans_path_item (tile_at (heap s) r)) ->
  scene s' = scene s ++ news ->
  NoDup news ->
  (forall r, In r news ->
             (List.length (heap s) <= r < List.length (heap s'))%nat) ->
  (forall r t, In r news -> tile_at (heap s') r = Some t ->
               MyQGPixmapItem.hit t = false
               /\ MyQGPixmapItem.offset_xy t <> None) ->
  (forall wh, wheel s' = Some wh ->
              wheel s = Some wh
              \/ (NoDup wh
                  /\ forall r, In r wh ->
                               In r news /\ tile_at (heap s') r <> None)) ->
  selection_ok s' = true ->
  (forall r, In r (selected_widgets_list s') -> In r (scene s')) ->
  filter (is_blue_path (heap s)) (scene s)
  ++ filter (is_blue_path (heap s')) news
  = match last_path_highlighted s' with
    | Some p => [p]
    | None => []
    end ->
  (last_path_highlighted s' <> None -> has_highlighted s' = true) ->
  sound s'.
Proof.
  intros [Sc Nd Ti Wh Se Sl Re Fl] Le Old Hs Nn Bn Tn Hw OK Hsel Hr Hf.
  constructor; auto.
  - intros r Hr'. rewrite Hs in Hr'. apply in_app_iff in Hr'.
    destruct Hr' as [H|H]; [specialize (Sc r H); lia | apply Bn, H].
  - rewrite Hs. apply NoDup_app; auto.
    intros r H1 H2. specialize (Sc r H1). specialize (Bn r H2). lia.
  - intros r t Hr' Et. rewrite Hs in Hr'. apply in_app_iff in Hr'.
    destruct Hr' as [H|H]; [|eauto].
    destruct (Old r (Sc r H)) as [_ E]. rewrite Et in E. symmetry in E.
    destruct (sans_path_item_eq _ _ E) as (t0 & E0 & Eh & Eo & _).
    destruct (Ti r t0 H E0) as [T1 T2]. split; congruence.
  - intros wh W. destruct (Hw wh W) as [W0|[N I]].
    + destruct (Wh wh W0) as [N I]. split; auto. intros r Hr'.
      destruct (I r Hr') as [I1 I2]. split.
      * rewrite Hs. apply in_app_iff. now left.
      * destruct (Old r (Sc r I1)) as [_ E].
        now apply (sans_path_item_tile _ _ _ E).
    + split; auto. intros r Hr'. destruct (I r Hr') as [I1 I2].
      split; auto. rewrite Hs. apply in_app_iff. now right.
  - rewrite Hs, filter_app, <- Hr. f_equal.
    apply filter_blue_ext. intros r H. now apply Old, Sc.
Qed.

(** A call that touches neither the heap nor the scene. *)
Lemma sound_view s s' :
  sound s ->
  heap s' = heap s ->
  scene s' = scene s ->
  wheel s' = wheel s ->
  last_path_highlighted s' = last_path_highlighted s ->
  selection_ok s' = true ->
  (forall r, In r (selected_widgets_list s') -> In r (scene s)) ->
  (last_path_highlighted s' <> None -> has_highlighted s' = true) ->
  sound s'.
Proof.
  intros S Hh Hs Hw Hl OK Hsel Hf.
  apply sound_shrink with (s := s) (keep := fun _ => true); auto.
  - now rewrite filter_all.
  - rewrite filter_all, Hl. apply (sound_replay S).
Qed.

Lemma release_sound s :
  sound s ->
  mouseReleaseEvent s = (released s, Ok tt) /\ sound (released s).
Proof.
  intros S. split.
  - apply mouseReleaseEvent_spec. pose proof (sound_selection S) as OK.
    apply selection_ok_iff in OK. apply all_tiles_spec. tauto.
  - apply sound_shrink
      with (s := s) (keep := fun r => negb (is_green_path (heap s) r)).
    + exact S.
    + reflexivity.
    + reflexivity.
    + intros r T. now rewrite tile_not_green.
    + reflexivity.
    + reflexivity.
    + intros r [].
    + cbn [last_path_highlighted released]. rewrite <- (sound_replay S).
      rewrite filter_filter. apply filter_ext. intros r.
      destruct (is_blue_path (heap s) r) eqn:B.
      * now rewrite (blue_not_green _ _ B).
      * now rewrite andb_false_r.
    + exact (sound_flag S).
Qed.

Lemma press_sound s widget :
  sound s ->
  hit_test s (mouse (Press widget)) = true ->
  outcome (mousePressEvent widget) s = Ok tt
  /\ sound (exec (mousePressEvent widget) s).
Proof.
  intros S Hit. unfold outcome, exec.
  destruct (has_highlighted s) eqn:H.
  - rewrite press_highlighted by assumption. cbn [fst snd].
    split; [reflexivity|].
    set (s0 := set_emitted _ _).
    destruct (deselect_spec s0) as (_ & Dh & Dw & Dl & Ds).
    assert (F : selected_widgets_list (exec deselect s0)
                = selected_widgets_list s
                /\ selected_widgets_set (exec deselect s0)
                   = selected_widgets_set s).
    { unfold exec, deselect, bind, get, s0.
      cbn [last_path_highlighted set_emitted set_has_highlighted].
      destruct (last_path_highlighted s); auto. }
    destruct F as [F1 F2].
    destruct (last_path_highlighted s) as [p|] eqn:E.
    + apply sound_shrink
        with (s := s) (keep := fun y => negb (Nat.eqb p y)).
      * exact S.
      * exact Dh.
      * cbn [scene set_mouse_pressed]. rewrite Ds.
        cbn [s0 last_path_highlighted scene set_emitted
             set_has_highlighted].
        now rewrite E, remove_filter.
      * intros r T. apply negb_true_iff, Nat.eqb_neq. intros <-.
        apply T. now apply sound_replay_path.
      * exact Dw.
      * apply (selection_ok_ext s);
          [ intros r _; cbn [heap set_mouse_pressed]; now rewrite Dh
          | exact F1 | exact F2 | apply (sound_selection S) ].
      * intros r Hr. cbn [selected_widgets_list set_mouse_pressed] in Hr.
        rewrite F1 in Hr. now apply (sound_selected S).
      * cbn [last_path_highlighted set_mouse_pressed]. rewrite Dl.
        now apply filter_blue_removed.
      * cbn [last_path_highlighted set_mouse_pressed]. rewrite Dl.
        congruence.
    + apply sound_view with (s := s).
      * exact S.
      * exact Dh.
      * cbn [scene set_mouse_pressed]. rewrite Ds.
        cbn [s0 last_path_highlighted scene set_emitted
             set_has_highlighted].
        now rewrite E.
      * exact Dw.
      * cbn [last_path_highlighted set_mouse_pressed]. now rewrite Dl.
      * apply (selection_ok_ext s);
          [ intros r _; cbn [heap set_mouse_pressed]; now rewrite Dh
          | exact F1 | exact F2 | apply (sound_selection S) ].
      * intros r Hr. cbn [selected_widgets_list set_mouse_pressed] in Hr.
        rewrite F1 in Hr. now apply (sound_selected S).
      * cbn [last_path_highlighted set_mouse_pressed]. rewrite Dl.
        congruence.
  - assert (L : last_path_highlighted s = None).
    { destruct (last_path_highlighted s) eqn:E; auto.
      assert (X : has_highlighted s = true)
        by (apply (sound_flag S); congruence).
      congruence. }
    destruct (is_tile (heap s) widget) as [r|] eqn:I.
    + destruct (is_tile_Some _ _ _ I) as [-> T].
      cbn [hit_test] in Hit. apply set_in_In in Hit.
      destruct (set_in r (selected_widgets_set s)) eqn:M.
      * rewrite press_selected by assumption. cbn [fst snd].
        split; [reflexivity|].
        apply sound_view with (s := s); try reflexivity; try exact S.
        -- apply (sound_selection S).
        -- apply (sound_selected S).
        -- apply (sound_flag S).
      * rewrite press_tile by assumption. cbn [fst snd].
        split; [reflexivity|].
        apply sound_view with (s := s); try reflexivity; try exact S.
        -- unfold selection_ok, all_tiles, set_in.
           cbn [heap selected_widgets_list selected_widgets_set forallb
                existsb nodupb].
           destruct (tile_at (heap s) r); [|congruence].
           now rewrite Nat.eqb_refl.
        -- intros x [<-|[]]. exact Hit.
        -- cbn [last_path_highlighted]. congruence.
    + rewrite press_elsewhere by assumption. cbn [fst snd].
      split; [reflexivity|].
      apply sound_view with (s := s); try reflexivity; try exact S.
      * apply (sound_selection S).
      * apply (sound_selected S).
      * apply (sound_flag S).
Qed.

Lemma path_not_tile h r p : path_at h r = Some p -> tile_at h r = None.
Proof.
  unfold path_at, tile_at. destruct (nth_error h r) as [[|]|]; congruence.
Qed.

Lemma entered_on_scene s widget r :
  sound s ->
  hit_test s (mouse (Move widget)) = true ->
  In r (enter (heap s) widget (selected_widgets_list s)) ->
  In r (scene s) /\ anchor (heap s) r <> None.
Proof.
  intros S Hit Hr.
  assert (I : In r (scene s) /\ tile_at (heap s) r <> None).
  { apply enter_In in Hr. destruct Hr as [Hr|Hr].
    - split; [now apply (sound_selected S)|].
      apply selection_tiles; auto. apply (sound_selection S).
    - destruct (is_tile_Some _ _ _ Hr) as [-> T]. split; auto.
      cbn [hit_test] in Hit. now apply set_in_In. }
  destruct I as [I T]. split; auto. unfold anchor.
  destruct (tile_at (heap s) r) as [t|] eqn:E; [|congruence].
  apply (@sound_tiles s S r t I E).
Qed.

Lemma move_sound s widget :
  sound s ->
  hit_test s (mouse (Move widget)) = true ->
  outcome (mouseMoveEvent widget) s = Ok tt
  /\ sound (exec (mouseMoveEvent widget) s).
Proof.
  intros S Hit. unfold outcome, exec.
  destruct (mouse_pressed s) eqn:P.
  2:{ rewrite mouseMoveEvent_released by assumption. auto. }
  assert (AS : forall r,
             In r (enter (heap s) widget (selected_widgets_list s)) ->
             anchor (heap s) r <> None).
  { intros r Hr. now apply (entered_on_scene s widget r S Hit). }
  destruct (mouseMoveEvent_pressed_at s widget P AS (sound_selection S))
    as (s' & E & Hl & OK' & Hsans & _ & Hh & Har & _ & _ & Hpath & _ & _
        & D).
  rewrite E. cbn [fst snd]. split; [reflexivity|].
  destruct Har as (Hw & Hla & _).
  assert (SelScene : forall r, In r (selected_widgets_list s') ->
                               In r (scene s)).
  { intros r Hr. rewrite Hl in Hr.
    now apply (entered_on_scene s widget r S Hit). }
  destruct (Nat.ltb 1 (List.length
                         (enter (heap s) widget (selected_widgets_list s)))).
  - cbv zeta in D. destruct D as (Hs & Hn & _).
    pose proof (path_at_lt _ _ _ Hn) as Ln.
    apply sound_grow with (s := s) (news := [List.length (heap s)]).
    + exact S.
    + lia.
    + intros r Hr. split; auto.
    + exact Hs.
    + constructor; [intros []|constructor].
    + intros r [<-|[]]. lia.
    + intros r t [<-|[]] Et. rewrite (path_not_tile _ _ _ Hn) in Et.
      discriminate.
    + intros wh W. left. congruence.
    + exact OK'.
    + intros r Hr. rewrite Hs. apply in_app_iff. left. auto.
    + cbn [filter]. unfold is_blue_path at 2. rewrite Hn. cbn.
      rewrite app_nil_r, Hla. apply (sound_replay S).
    + rewrite Hla, Hh. apply (sound_flag S).
  - destruct D as (Hs & Hhp & _).
    apply sound_view with (s := s); auto.
    + rewrite Hla, Hh. apply (sound_flag S).
Qed.

Lemma word_path_no_wheel word s :
  wheel s = None ->
  word_path word s = (exec deselect s, Raise AttributeError).
Proof.
  intros W.
  destruct (deselect_spec s) as (D & Dh & Dw & _ & _).
  unfold word_path. unfold bind at 1. unfold get at 1.
  unfold bind at 1.
  replace (match last_path_highlighted s with
           | Some _ => deselect
           | None => ret tt
           end s) with (exec deselect s, Ok tt).
  2:{ destruct (last_path_highlighted s) eqn:E; auto.
      unfold exec, deselect, bind, get. now rewrite E. }
  unfold bind at 1. unfold get at 1. rewrite Dw, W. reflexivity.
Qed.

Lemma sound_wheel_ready s wh :
  sound s -> wheel s = Some wh ->
  unflagged (heap s) wh = true
  /\ forall r, In r wh -> anchor (heap s) r <> None.
Proof.
  intros S W. destruct (sound_wheel S W) as (_ & Hw). split.
  - apply unflagged_spec. intros r Hr. destruct (Hw r Hr) as (I & T).
    destruct (tile_at (heap s) r) as [t|] eqn:E; [|congruence].
    exists t. split; auto. apply (@sound_tiles s S r t I E).
  - intros r Hr. destruct (Hw r Hr) as (I & T). unfold anchor.
    destruct (tile_at (heap s) r) as [t|] eqn:E; [|congruence].
    apply (@sound_tiles s S r t I E).
Qed.

Lemma word_path_sound word s : sound s -> sound (exec (word_path word) s).
Proof.
  intros S. pose proof (deselect_sound s S) as Sd.
  destruct (deselect_spec s) as (D & Dh & Dw & Dl & _).
  unfold exec at 1.
  destruct (wheel s) as [wh|] eqn:W.
  2:{ now rewrite word_path_no_wheel. }
  destruct (sound_wheel_ready s wh S W) as (U & A).
  rewrite (word_path_spec_at word s wh W U A). cbv zeta.
  destruct (greedy (heap s) wh [] (list_ascii_of_string word))
    as [|first rest]; [exact Sd|].
  cbn [fst].
  set (sd := exec deselect s) in *.
  set (p := mkPathItem (polyline (anchors (heap s) (first :: rest)))
                       (mkPen blue 3)).
  apply sound_grow with (s := sd) (news := [List.length (heap s)]).
  - exact Sd.
  - setters. rewrite Dh, length_app. lia.
  - intros r Hr. rewrite Dh in Hr. setters. rewrite Dh.
    now rewrite path_at_app_l, tile_at_app_l.
  - setters. reflexivity.
  - constructor; [intros []|constructor].
  - intros r [<-|[]]. setters. rewrite Dh, length_app. cbn. lia.
  - intros r t [<-|[]]. setters. rewrite tile_at_app_path.
    intros E. apply tile_at_lt in E. lia.
  - intros wh' W'. left. exact W'.
  - apply selection_ok_ext with (s := sd); try reflexivity.
    + intros r _. setters. now rewrite tile_at_app_path, Dh.
    + apply (sound_selection Sd).
  - intros r Hr. setters. apply in_app_iff. left.
    now apply (sound_selected Sd).
  - rewrite (sound_replay Sd), Dl. setters. cbn [filter app].
    unfold is_blue_path. rewrite path_at_app_new. reflexivity.
  - intros _. reflexivity.
Qed.

(** *** make_word, however it ends *)

Lemma dict_get_raise {V} (d : list (ascii * V)) k e :
  dict_get d k = Raise e -> e = KeyError.
Proof.
  induction d as [|[k' v] d IH]; simpl.
  - congruence.
  - destruct (Ascii.eqb k' k); [discriminate|exact IH].
Qed.

(** A character without a glyph stops the comprehension: the tiles built
    for the characters before it are dropped with the list. *)
Lemma new_letters_KeyError n word : forall i s,
  n <> 0%Z ->
  has_glyphs s word = false ->
  exists ts,
    new_letters i n word s
    = (set_heap (heap s ++ map OTile ts) s, Raise KeyError).
Proof.
  induction word as [|a word IH]; intros i s N G.
  - discriminate.
  - cbn [new_letters]. unfold bind at 1. unfold get at 1.
    unfold bind at 1. unfold lift at 1.
    destruct (dict_get (letters s) a) as [img|e] eqn:D.
    + assert (I : exists t, MyQGPixmapItem.init img i n a
                              (center s) (radius s) = Ok t).
      { unfold MyQGPixmapItem.init. apply Z.eqb_neq in N. rewrite N. eauto. }
      destruct I as [t It].
      unfold bind at 1. unfold lift at 1. rewrite It.
      unfold bind at 1. unfold new at 1.
      set (s1 := set_heap (heap s ++ [OTile t]) s).
      assert (G1 : has_glyphs s1 word = false).
      { simpl in G. rewrite D in G. exact G. }
      destruct (IH (i + 1)%Z s1 N G1) as (ts & E).
      exists (t :: ts). unfold bind at 1. rewrite E.
      unfold s1. rewrite set_heap_twice. cbn [heap set_heap].
      now rewrite <- app_assoc.
    + exists []. rewrite (dict_get_raise _ _ _ D).
      cbn [map]. now rewrite app_nil_r, set_heap_id.
Qed.

Lemma make_word_KeyError word s :
  has_glyphs s (list_ascii_of_string word) = false ->
  exists ts,
    make_word word s = (set_heap (heap s ++ map OTile ts) s, Raise KeyError).
Proof.
  intros G.
  assert (N : Z.of_nat (List.length (list_ascii_of_string word)) <> 0%Z).
  { destruct (list_ascii_of_string word); [discriminate|simpl; lia]. }
  destruct (new_letters_KeyError _ _ 0%Z s N G) as (ts & E).
  exists ts. unfold make_word. unfold bind at 1. now rewrite E.
Qed.

Lemma make_word_empty s : make_word "" s = (s, Raise IndexError).
Proof. reflexivity. Qed.

Lemma has_glyphs_cases s word :
  has_glyphs s word = true \/ has_glyphs s word = false.
Proof. destruct (has_glyphs s word); auto. Qed.

Lemma filter_none {A} (f : A -> bool) l :
  (forall x, In x l -> f x = false) -> filter f l = [].
Proof.
  induction l as [|x l IH]; intros H; simpl; auto.
  rewrite (H x) by (simpl; auto). apply IH. intros y Hy. apply H.
  simpl; auto.
Qed.

Lemma placed_unflagged s n k a t :
  tile_for s n k a t -> MyQGPixmapItem.hit (placed (radius s) t) = false.
Proof.
  intros (img & _ & I). apply (placed_fields _ _ _ _ _ _ _ I).
Qed.

Lemma make_word_sound word s : sound s -> sound (exec (make_word word) s).
Proof.
  intros S. unfold exec.
  destruct word as [|c0 word0] eqn:Ew.
  { now rewrite make_word_empty. }
  rewrite <- Ew. assert (NE : word <> EmptyString) by congruence.
  clear Ew c0 word0.
  destruct (has_glyphs_cases s (list_ascii_of_string word)) as [G|G].
  - destruct (make_word_spec word s NE G) as (ts & L & K & E).
    cbv zeta in E. rewrite E. cbn [fst]. clear E.
    set (chars := list_ascii_of_string word) in *.
    set (h1 := heap s ++ map OTile (map (placed (radius s)) ts)).
    set (refs := seq (List.length (heap s)) (List.length chars)).
    set (p := mkPathItem (outline (anchors h1 refs)) (mkPen red 3)).
    assert (L1 : List.length h1
                 = (List.length (heap s) + List.length chars)%nat).
    { unfold h1. now rewrite length_app, !length_map, L. }
    assert (T : forall r, In r refs ->
                exists t, tile_at h1 r = Some t
                          /\ MyQGPixmapItem.hit t = false
                          /\ MyQGPixmapItem.offset_xy t <> None).
    { intros r Hr. apply in_seq in Hr.
      replace r with (List.length (heap s) + (r - List.length (heap s)))%nat
        by lia.
      set (k := (r - List.length (heap s))%nat).
      unfold h1. rewrite tile_at_tiles.
      destruct (nth_error chars k) as [a|] eqn:Ea.
      2:{ apply nth_error_None in Ea. lia. }
      destruct (K k a Ea) as (t & Ht & TF).
      exists (placed (radius s) t). split; [|split].
      - now apply map_nth_error.
      - exact (placed_unflagged _ _ _ _ _ TF).
      - destruct (placed_offset_xy (radius s) t) as [q ->]. discriminate. }
    apply sound_grow with (s := s) (news := refs ++ [List.length h1]).
    + exact S.
    + setters. rewrite length_app, L1. lia.
    + intros r Hr. setters. unfold h1. rewrite <- app_assoc.
      now rewrite path_at_app_l, tile_at_app_l.
    + setters. reflexivity.
    + rewrite L1. unfold refs. rewrite <- seq_S. apply seq_NoDup.
    + intros r Hr. rewrite L1 in Hr. unfold refs in Hr.
      rewrite <- seq_S in Hr. apply in_seq in Hr. setters.
      rewrite length_app, L1. cbn [List.length]. lia.
    + intros r t Hr. setters. rewrite tile_at_app_path. intros Et.
      apply in_app_iff in Hr. destruct Hr as [Hr|[<-|[]]].
      * destruct (T r Hr) as (t' & Et' & Hh & Ho).
        rewrite Et in Et'. injection Et' as <-. auto.
      * apply tile_at_lt in Et. lia.
    + intros wh W. right. setters. injection W as <-. split.
      * apply seq_NoDup.
      * intros r Hr. split; [apply in_app_iff; auto|].
        rewrite tile_at_app_path. destruct (T r Hr) as (t & -> & _).
        discriminate.
    + apply selection_ok_ext with (s := s); try reflexivity.
      * intros r Hr. setters. rewrite tile_at_app_path. unfold h1.
        rewrite tile_at_app_l; auto.
        apply (sound_scene S). now apply (sound_selected S).
      * apply (sound_selection S).
    + intros r Hr. setters. apply in_app_iff. left.
      now apply (sound_selected S).
    + setters. rewrite filter_app. unfold ref in *.
      rewrite (@filter_none nat (is_blue_path (h1 ++ [OPath p])) refs).
      2:{ intros r Hr. destruct (T r Hr) as (t & Et & _).
          destruct (is_blue_path (h1 ++ [OPath p]) r) eqn:B; auto.
          apply is_blue_not_tile in B. rewrite tile_at_app_path in B.
          congruence. }
      assert (B : is_blue_path (h1 ++ [OPath p]) (List.length h1) = false).
      { unfold is_blue_path. now rewrite path_at_app_new. }
      cbn [filter app]. rewrite B, app_nil_r.
      apply (sound_replay S).
    + apply (sound_flag S).
  - destruct (make_word_KeyError word s G) as (ts & E). rewrite E.
    cbn [fst].
    apply sound_grow with (s := s) (news := []).
    + exact S.
    + setters. rewrite length_app. lia.
    + intros r Hr. setters. now rewrite path_at_app_l, tile_at_app_l.
    + setters. now rewrite app_nil_r.
    + constructor.
    + intros r [].
    + intros r t [].
    + intros wh W. left. exact W.
    + apply selection_ok_ext with (s := s); try reflexivity.
      * intros r Hr. setters. rewrite tile_at_app_l; auto.
        apply (sound_scene S). now apply (sound_selected S).
      * apply (sound_selection S).
    + intros r Hr. setters. now apply (sound_selected S).
    + cbn [filter]. rewrite app_nil_r. apply (sound_replay S).
    + apply (sound_flag S).
Qed.

(** ** The settings of the area *)

Create HintDb keeps.

Lemma keeps_ret {A} (a : A) : keeps (ret a).
Proof. intros s. auto. Qed.

Lemma keeps_raise {A} e : keeps (@raise A e).
Proof. intros s. auto. Qed.

Lemma keeps_get : keeps get.
Proof. intros s. auto. Qed.

Lemma keeps_lift {A} (r : result A) : keeps (lift r).
Proof. intros s. auto. Qed.

Lemma keeps_bind {A B} (m : Py A) (f : A -> Py B) :
  keeps m -> (forall a, keeps (f a)) -> keeps (bind m f).
Proof.
  intros Hm Hf s. unfold exec, bind. specialize (Hm s). unfold exec in Hm.
  destruct (m s) as [s1 [a|e]]; cbn [fst] in *; auto.
  destruct (Hf a s1) as (H1 & H2 & H3). unfold exec in *.
  destruct Hm as (M1 & M2 & M3). repeat split; congruence.
Qed.

Lemma keeps_modify (f : World -> World) :
  (forall s, letters (f s) = letters s /\ center (f s) = center s
             /\ radius (f s) = radius s) ->
  keeps (modify f).
Proof. intros H s. apply H. Qed.

#[global] Hint Resolve keeps_ret keeps_raise keeps_get keeps_lift keeps_bind
  : keeps.
#[global] Hint Extern 1 (keeps (modify _)) =>
  (apply keeps_modify; intros; repeat split; reflexivity) : keeps.
#[global] Hint Extern 2 (keeps (match ?x with _ => _ end)) =>
  destruct x : keeps.

Lemma keeps_for_each {A} (xs : list A) (body : A -> Py unit) :
  (forall x, keeps (body x)) -> keeps (for_each xs body).
Proof. intros H. induction xs; simpl; auto with keeps. Qed.

Lemma keeps_comprehension {A B} (f : A -> Py B) (xs : list A) :
  (forall x, keeps (f x)) -> keeps (comprehension f xs).
Proof. intros H. induction xs; simpl; auto 6 with keeps. Qed.

Lemma keeps_new o : keeps (new o).
Proof. intros s. auto. Qed.

Lemma keeps_tile r : keeps (tile r).
Proof. intros s. unfold exec, tile. destruct (tile_at (heap s) r); auto. Qed.

#[global] Hint Resolve keeps_for_each keeps_comprehension keeps_new
  keeps_tile : keeps.

Lemma keeps_modify_tile r f : keeps (modify_tile r f).
Proof. unfold modify_tile. auto with keeps. Qed.

Lemma keeps_get_offset_xy r : keeps (get_offset_xy r).
Proof. unfold get_offset_xy. auto with keeps. Qed.

Lemma keeps_get_alpha r : keeps (get_alpha r).
Proof. unfold get_alpha. auto with keeps. Qed.

Lemma keeps_addItem r : keeps (addItem r).
Proof. unfold addItem. auto with keeps. Qed.

Lemma keeps_removeItem r : keeps (removeItem r).
Proof. unfold removeItem. auto with keeps. Qed.

Lemma keeps_emit sig : keeps (emit sig).
Proof. unfold emit. auto with keeps. Qed.

#[global] Hint Resolve keeps_modify_tile keeps_get_offset_xy keeps_get_alpha
  keeps_addItem keeps_removeItem keeps_emit : keeps.

Lemma keeps_deselect : keeps deselect.
Proof. unfold deselect. auto 8 with keeps. Qed.

#[global] Hint Resolve keeps_deselect : keeps.

Lemma keeps_mousePressEvent widget : keeps (mousePressEvent widget).
Proof.
  unfold mousePressEvent, clearHighlight_slot. auto 30 with keeps.
Qed.

Lemma keeps_extend_paint_path e : keeps (extend_paint_path e).
Proof. destruct e. unfold extend_paint_path. auto 8 with keeps. Qed.

#[global] Hint Resolve keeps_extend_paint_path : keeps.

Lemma keeps_mouseMoveEvent widget : keeps (mouseMoveEvent widget).
Proof.
  unfold mouseMoveEvent, track, draw_live_path. auto 30 with keeps.
Qed.

Lemma keeps_mouseReleaseEvent : keeps mouseReleaseEvent.
Proof.
  unfold mouseReleaseEvent.
  assert (H : forall item, keeps (sweep item)).
  { intros item. unfold sweep. auto 8 with keeps. }
  auto 30 with keeps.
Qed.

Lemma keeps_new_letters n word : forall i, keeps (new_letters i n word).
Proof.
  induction word as [|a word IH]; intros i; cbn [new_letters];
    auto 12 with keeps.
Qed.

Lemma keeps_make_word word : keeps (make_word word).
Proof.
  unfold make_word.
  assert (H : forall r, keeps (place_letter r)).
  { intros r. unfold place_letter. auto 10 with keeps. }
  pose proof keeps_new_letters. auto 30 with keeps.
Qed.

Lemma keeps_first_unused w tmp : keeps (first_unused w tmp).
Proof. induction tmp as [|x tmp IH]; cbn [first_unused]; auto 8 with keeps. Qed.

Lemma keeps_assign word tmp : forall selected,
  keeps (assign word tmp selected).
Proof.
  pose proof keeps_first_unused.
  induction word as [|w word IH]; intros sel; cbn [assign];
    auto 8 with keeps.
Qed.

Lemma keeps_word_path word : keeps (word_path word).
Proof.
  unfold word_path. pose proof keeps_assign. auto 40 with keeps.
Qed.

Lemma keeps_perform c : keeps (perform c).
Proof.
  destruct c as [word|word| |[w|w|]]; cbn [perform handle].
  - apply keeps_make_word.
  - apply keeps_word_path.
  - apply keeps_deselect.
  - apply keeps_mousePressEvent.
  - apply keeps_mouseMoveEvent.
  - apply keeps_mouseReleaseEvent.
Qed.

(** ** Every world the application reaches *)

Lemma sound_init f : sound (LetterArea_init f).
Proof.
  constructor; cbn.
  - intros r [].
  - constructor.
  - intros r t [].
  - discriminate.
  - reflexivity.
  - intros r [].
  - reflexivity.
  - congruence.
Qed.

Lemma perform_sound c s :
  sound s -> hit_test s c = true -> sound (exec (perform c) s).
Proof.
  intros S Hit. destruct c as [word|word| |[w|w|]]; cbn [perform handle].
  - now apply make_word_sound.
  - now apply word_path_sound.
  - now apply deselect_sound.
  - now apply press_sound.
  - now apply move_sound.
  - destruct (release_sound s S) as (E & S'). unfold exec. now rewrite E.
Qed.

Lemma reachable_sound f s : reachable f s -> sound s.
Proof.
  induction 1 as [|s c _ IH Hit].
  - apply sound_init.
  - now apply perform_sound.
Qed.

Lemma reachable_settings f s :
  reachable f s ->
  letters s = get_letters f
  /\ center s = mkPoint 50 50
  /\ radius s = 80%Z.
Proof.
  induction 1 as [|s c _ (L & C & R) _].
  - repeat split.
  - destruct (keeps_perform c s) as (L' & C' & R').
    repeat split; congruence.
Qed.

Lemma mouse_sound e s :
  sound s -> hit_test s (mouse e) = true -> outcome (handle e) s = Ok tt.
Proof.
  intros S Hit. destruct e as [w|w|]; cbn [handle].
  - now apply press_sound.
  - now apply move_sound.
  - destruct (release_sound s S) as (E & _). unfold outcome. now rewrite E.
Qed.

(** The worlds of the running examples are reachable. *)
Lemma tractor_reachable : reachable glyph tractor.
Proof.
  exact (@reachable_call glyph fresh (call_make_word "TRACTOR")
           (reachable_init glyph) eq_refl).
Qed.

Lemma tractor_cat_reachable : reachable glyph tractor_cat.
Proof.
  exact (@reachable_call glyph tractor (call_word_path "CAT")
           tractor_reachable eq_refl).
Qed.

Lemma tractor_C_reachable : reachable glyph tractor_C.
Proof.
  assert (H : hit_test tractor (mouse (Press (Some 3%nat))) = true)
    by (vm_compute; reflexivity).
  exact (@reachable_call glyph tractor (mouse (Press (Some 3%nat)))
           tractor_reachable H).
Qed.

Lemma tractor_CA_reachable : reachable glyph tractor_CA.
Proof.
  assert (H : hit_test tractor_C (mouse (Move (Some 2%nat))) = true)
    by (vm_compute; reflexivity).
  exact (@reachable_call glyph tractor_C (mouse (Move (Some 2%nat)))
           tractor_C_reachable H).
Qed.

(** ** What a call leaves of the objects *)

Lemma objects_kept_refl s : objects_kept s s.
Proof. split; auto. Qed.

Lemma objects_kept_heap s s' : heap s' = heap s -> objects_kept s s'.
Proof. intros E. unfold objects_kept. rewrite E. auto. Qed.

Lemma objects_kept_app s s' more :
  heap s' = heap s ++ more -> objects_kept s s'.
Proof.
  intros E. unfold objects_kept. rewrite E. split.
  - rewrite length_app. lia.
  - intros r Hr. now rewrite path_at_app_l, tile_at_app_l.
Qed.

Lemma objects_kept_trans s1 s2 s3 :
  objects_kept s1 s2 -> objects_kept s2 s3 -> objects_kept s1 s3.
Proof.
  intros (L1 & F1) (L2 & F2). split; [lia|].
  intros r Hr. destruct (F1 r Hr) as (P1 & T1).
  destruct (F2 r ltac:(lia)) as (P2 & T2). split; congruence.
Qed.

Lemma deselect_flag s :
  has_highlighted (exec deselect s) = has_highlighted s.
Proof.
  unfold exec, deselect, bind, get.
  destruct (last_path_highlighted s); reflexivity.
Qed.

Lemma press_scene s widget :
  heap (exec (mousePressEvent widget) s) = heap s
  /\ scene (exec (mousePressEvent widget) s)
     = (if has_highlighted s then scene (exec deselect s) else scene s)
  /\ has_highlighted (exec (mousePressEvent widget) s) = false.
Proof.
  unfold exec at 1 2 4.
  destruct (has_highlighted s) eqn:H.
  - rewrite press_highlighted by assumption. cbn [fst].
    set (s0 := set_emitted _ _).
    destruct (deselect_spec s0) as (_ & Dh & _ & _ & Ds).
    destruct (deselect_spec s) as (_ & _ & _ & _ & Ds').
    split; [exact Dh|]. split.
    + cbn [scene set_mouse_pressed]. rewrite Ds, Ds'. reflexivity.
    + cbn [has_highlighted set_mouse_pressed]. now rewrite deselect_flag.
  - destruct (is_tile (heap s) widget) as [r|] eqn:I.
    + destruct (is_tile_Some _ _ _ I) as [-> T].
      destruct (set_in r (selected_widgets_set s)) eqn:M.
      * rewrite press_selected by assumption. auto.
      * rewrite press_tile by assumption. auto.
    + rewrite press_elsewhere by assumption. auto.
Qed.

(** A move adds at most one item to the scene, a green path. *)
Lemma move_scene s widget :
  sound s ->
  hit_test s (mouse (Move widget)) = true ->
  let s' := exec (mouseMoveEvent widget) s in
  objects_kept s s'
  /\ has_highlighted s' = has_highlighted s
  /\ exists news,
       scene s' = scene s ++ news
       /\ forall r, In r news ->
                    (List.length (heap s) <= r)%nat
                    /\ is_green_path (heap s') r = true.
Proof.
  intros S Hit s'. subst s'. unfold exec.
  destruct (mouse_pressed s) eqn:P.
  2:{ rewrite mouseMoveEvent_released by assumption. cbn [fst].
      split; [apply objects_kept_refl|]. split; [reflexivity|]. exists [].
      rewrite app_nil_r. split; auto. intros r []. }
  assert (AS : forall r,
             In r (enter (heap s) widget (selected_widgets_list s)) ->
             anchor (heap s) r <> None).
  { intros r Hr. now apply (entered_on_scene s widget r S Hit). }
  destruct (mouseMoveEvent_pressed_at s widget P AS (sound_selection S))
    as (s' & E & _ & _ & Hsans & _ & Hf & _ & _ & _ & Hpath & _ & _ & D).
  rewrite E. cbn [fst].
  destruct (Nat.ltb 1 (List.length
                         (enter (heap s) widget (selected_widgets_list s)))).
  - cbv zeta in D. destruct D as (Hs & Hn & _).
    pose proof (path_at_lt _ _ _ Hn) as Ln. split; [|split].
    + split; [lia|]. intros r Hr. split; [now apply Hpath|apply Hsans].
    + exact Hf.
    + exists [List.length (heap s)]. split; [exact Hs|].
      intros r [<-|[]]. split; [lia|].
      unfold is_green_path. now rewrite Hn.
  - destruct D as (Hs & Hh & _). split; [|split].
    + now apply objects_kept_heap.
    + exact Hf.
    + exists []. rewrite app_nil_r. split; auto. intros r [].
Qed.

Lemma word_path_heap word s :
  sound s -> exists more, heap (exec (word_path word) s) = heap s ++ more.
Proof.
  intros S. destruct (deselect_spec s) as (_ & Dh & _).
  unfold exec at 1.
  destruct (wheel s) as [wh|] eqn:W.
  2:{ rewrite word_path_no_wheel by assumption. exists [].
      cbn [fst]. now rewrite app_nil_r. }
  destruct (sound_wheel_ready s wh S W) as (U & A).
  rewrite (word_path_spec_at word s wh W U A). cbv zeta.
  destruct (greedy (heap s) wh [] (list_ascii_of_string word)).
  - exists []. cbn [fst]. now rewrite app_nil_r.
  - eexists. cbn [fst]. setters. reflexivity.
Qed.

Lemma make_word_heap word s :
  exists more, heap (exec (make_word word) s) = heap s ++ more.
Proof.
  unfold exec.
  destruct word as [|c0 word0] eqn:Ew.
  { exists []. rewrite make_word_empty. cbn [fst]. now rewrite app_nil_r. }
  rewrite <- Ew. assert (NE : word <> EmptyString) by congruence.
  clear Ew c0 word0.
  destruct (has_glyphs_cases s (list_ascii_of_string word)) as [G|G].
  - destruct (make_word_spec word s NE G) as (ts & _ & _ & E).
    cbv zeta in E. rewrite E. cbn [fst]. setters.
    rewrite <- app_assoc. eexists. reflexivity.
  - destruct (make_word_KeyError word s G) as (ts & E). rewrite E.
    eexists. reflexivity.
Qed.

Lemma perform_frame c s :
  sound s -> hit_test s c = true ->
  objects_kept s (exec (perform c) s)
  /\ ((exists more, heap (exec (perform c) s) = heap s ++ more)
      \/ exists w, c = mouse (Move w)).
Proof.
  intros S Hit.
  assert (X : forall s', (exists more, heap s' = heap s ++ more) ->
                         objects_kept s s'
                         /\ ((exists more, heap s' = heap s ++ more)
                             \/ exists w, c = mouse (Move w))).
  { intros s' (more & E). split; [now apply objects_kept_app with more|].
    left. now exists more. }
  assert (Y : forall s', heap s' = heap s ->
                         exists more, heap s' = heap s ++ more).
  { intros s' E. exists []. now rewrite app_nil_r. }
  destruct c as [word|word| |[w|w|]]; cbn [perform handle].
  - apply X, make_word_heap.
  - now apply X, word_path_heap.
  - apply X, Y. apply deselect_spec.
  - apply X, Y. apply press_scene.
  - split; [now apply move_scene|]. right. now exists w.
  - destruct (release_sound s S) as (E & _). unfold exec. rewrite E.
    apply X, Y. reflexivity.
Qed.

(** ** Whole gestures *)

Lemma filter_negb_all {A} (f : A -> bool) l :
  filter f l = [] -> filter (fun x => negb (f x)) l = l.
Proof.
  induction l as [|x l IH]; simpl; auto.
  destruct (f x); [discriminate|]. intros H. simpl. now rewrite IH.
Qed.

Lemma perform_mouse e s :
  sound s -> hit_test s (mouse e) = true ->
  perform (mouse e) s = (exec (perform (mouse e)) s, Ok tt).
Proof.
  intros S Hit. pose proof (mouse_sound e s S Hit) as O.
  unfold outcome in O. unfold exec. cbn [perform].
  destruct (handle e s) as [s' o]. cbn [fst snd] in *. now subst o.
Qed.

(** The moves of a gesture add green path items to the scene and nothing
    else. *)
Lemma moves_scene rest moves : forall s,
  sound s ->
  hit_tests s (map (fun w => mouse (Move w)) moves ++ rest) = true ->
  exists s' news,
    for_each (map (fun w => mouse (Move w)) moves ++ rest) perform s
    = for_each rest perform s'
    /\ sound s'
    /\ hit_tests s' rest = true
    /\ objects_kept s s'
    /\ has_highlighted s' = has_highlighted s
    /\ scene s' = scene s ++ news
    /\ forall r, In r news -> is_green_path (heap s') r = true.
Proof.
  induction moves as [|w moves IH]; intros s S Hit.
  - exists s, []. rewrite app_nil_r. cbn [map app] in *.
    split; [reflexivity|]. split; [exact S|]. split; [exact Hit|].
    split; [apply objects_kept_refl|]. split; [reflexivity|].
    split; [reflexivity|]. intros r [].
  - cbn [map app hit_tests] in Hit. apply andb_true_iff in Hit.
    destruct Hit as [Hit Hits].
    pose proof (perform_mouse (Move w) s S Hit) as E.
    pose proof (perform_sound (mouse (Move w)) s S Hit) as S1.
    set (s1 := exec (perform (mouse (Move w))) s) in *.
    destruct (move_scene s w S Hit) as (K1 & F1 & news1 & Sc1 & G1).
    cbv zeta in K1, F1, Sc1, G1.
    change (exec (mouseMoveEvent w) s) with s1 in K1, F1, Sc1, G1.
    destruct (IH s1 S1 Hits) as (s2 & news2 & E2 & S2 & H2 & K2 & F2 & Sc2
                                 & G2).
    exists s2, (news1 ++ news2). split; [|split; [|split; [|split]]].
    + cbn [map app for_each]. unfold bind. rewrite E. exact E2.
    + exact S2.
    + exact H2.
    + exact (objects_kept_trans _ _ _ K1 K2).
    + split; [congruence|]. split.
      * rewrite Sc2, Sc1. now rewrite app_assoc.
      * intros r Hr. apply in_app_iff in Hr. destruct Hr as [Hr|Hr].
        -- destruct (G1 r Hr) as (_ & Gr). unfold is_green_path in *.
           destruct (path_at (heap s1) r) as [p|] eqn:Pr; [|discriminate].
           pose proof (path_at_lt _ _ _ Pr) as Lr.
           destruct K2 as (_ & K2). destruct (K2 r Lr) as (P2 & _).
           now rewrite P2, Pr.
        -- now apply G2.
Qed.

(** ** Replays *)

(** The world after a [word_path] that matched at least one tile. *)
Lemma word_path_drawn_at word s wh :
  sound s ->
  wheel s = Some wh ->
  greedy (heap s) wh [] (list_ascii_of_string word) <> [] ->
  let s' := exec (word_path word) s in
  let sel := greedy (heap s) wh [] (list_ascii_of_string word) in
  outcome (word_path word) s = Ok tt
  /\ heap s'
     = heap s ++ [OPath (mkPathItem (polyline (anchors (heap s) sel))
                                    (mkPen blue 3))]
  /\ scene s' = scene (exec deselect s) ++ [List.length (heap s)]
  /\ last_path_highlighted s' = Some (List.length (heap s))
  /\ wheel s' = Some wh
  /\ has_highlighted s' = true.
Proof.
  intros S W NE s' sel. subst s'.
  destruct (sound_wheel_ready s wh S W) as (U & A).
  destruct (deselect_spec s) as (_ & _ & Dw & _).
  pose proof (word_path_spec_at word s wh W U A) as E0. cbv zeta in E0.
  fold sel in E0. set (sd := exec deselect s) in *.
  destruct sel as [|first rest] eqn:E; [now elim NE|].
  unfold outcome, exec. rewrite E0.
  cbn [fst snd]. setters. rewrite Dw. repeat split; auto.
Qed.

Lemma remove_last_new (l : list ref) n :
  (forall r, In r l -> (r < n)%nat) -> remove Nat.eq_dec n (l ++ [n]) = l.
Proof.
  intros H. rewrite remove_app. cbn [remove].
  destruct (Nat.eq_dec n n) as [_|N]; [|now elim N].
  rewrite app_nil_r. apply notin_remove. intros I. apply H in I. lia.
Qed.

Lemma make_word_chars word s :
  word <> EmptyString ->
  has_glyphs s (list_ascii_of_string word) = true ->
  chars_of (heap (exec (make_word word) s))
           (seq (List.length (heap s))
                (List.length (list_ascii_of_string word)))
  = list_ascii_of_string word.
Proof.
  intros NE G.
  destruct (make_word_wheel word s NE G) as (_ & _ & _ & K).
  cbv zeta in K. apply chars_of_seq. intros i a Hi.
  destruct (K i a Hi) as (img & t & _ & I & T).
  unfold char_at. rewrite T. cbn [option_map]. f_equal.
  apply (placed_fields _ _ _ _ _ _ _ I).
Qed.

(** ** Invariants of the application *)

(** X4: no call rebinds the settings of the area: in every world the
    application reaches the dict of glyphs is the one [get_letters] built,
    the centre is (50, 50) and the radius is 80 (so the anchors lie on the
    circle of radius 65, and [radius - 15] is never the 0 that
    [calc_position] would replace by the full radius). *)
Theorem settings_never_change f s :
  reachable f s ->
  letters s = get_letters f
  /\ center s = mkPoint 50 50
  /\ radius s = 80%Z
  /\ (radius s - 15)%Z = 65%Z.
Proof.
  intros R. destruct (reachable_settings f s R) as (L & C & Rd).
  repeat split; auto. rewrite Rd. reflexivity.
Qed.

Lemma settings_never_change_witness :
  reachable glyph tractor_cat
  /\ letters tractor_cat = get_letters glyph
  /\ center tractor_cat = mkPoint 50 50
  /\ radius tractor_cat = 80%Z
  /\ (radius tractor_cat - 15)%Z = 65%Z.
Proof.
  split; [exact tractor_cat_reachable|].
  exact (settings_never_change glyph tractor_cat tractor_cat_reachable).
Defined.

(** X5: at most one replay highlight is on the scene, whatever was called
    before: the blue path items of the scene are exactly the item recorded
    in [last_path_highlighted], and while one is recorded the view's
    [has_highlighted] flag is set, so that the next press dismisses it. *)
Theorem replay_highlight_unique f s :
  reachable f s ->
  filter (is_blue_path (heap s)) (scene s)
  = match last_path_highlighted s with
    | Some p => [p]
    | None => []
    end
  /\ (List.length (filter (is_blue_path (heap s)) (scene s)) <= 1)%nat
  /\ (last_path_highlighted s <> None -> has_highlighted s = true).
Proof.
  intros R. pose proof (reachable_sound f s R) as S.
  split; [apply (sound_replay S)|]. split; [|apply (sound_flag S)].
  rewrite (sound_replay S). destruct (last_path_highlighted s); simpl; lia.
Qed.

Lemma replay_highlight_unique_witness :
  reachable glyph tractor_cat
  /\ (filter (is_blue_path (heap tractor_cat)) (scene tractor_cat)
      = match last_path_highlighted tractor_cat with
        | Some p => [p]
        | None => []
        end
      /\ (List.length (filter (is_blue_path (heap tractor_cat))
                              (scene tractor_cat)) <= 1)%nat
      /\ (last_path_highlighted tractor_cat <> None ->
          has_highlighted tractor_cat = true))
  /\ last_path_highlighted tractor_cat = Some 8%nat.
Proof.
  split; [exact tractor_cat_reachable|].
  split; [|vm_compute; reflexivity].
  exact (replay_highlight_unique glyph tractor_cat tractor_cat_reachable).
Defined.

(** X6: after every call, also one that raised, every tile on the scene
    has its [hit] flag clear and its anchor [offset_xy] set, and the wheel,
    once there is one, is a list of distinct tiles that are on the scene:
    [word_path] always starts from a wheel with no tile used. *)
Theorem tiles_ready_after_every_call f s :
  reachable f s ->
  (forall r t, In r (scene s) -> tile_at (heap s) r = Some t ->
               MyQGPixmapItem.hit t = false
               /\ MyQGPixmapItem.offset_xy t <> None)
  /\ (forall wh, wheel s = Some wh ->
                 NoDup wh
                 /\ unflagged (heap s) wh = true
                 /\ forall r, In r wh ->
                              In r (scene s) /\ anchor (heap s) r <> None).
Proof.
  intros R. pose proof (reachable_sound f s R) as S. split.
  - intros r t. apply (@sound_tiles s S r t).
  - intros wh W. destruct (sound_wheel S W) as (N & H).
    destruct (sound_wheel_ready s wh S W) as (U & A).
    split; [exact N|]. split; [exact U|].
    intros r Hr. split; [now apply H|now apply A].
Qed.

Lemma tiles_ready_after_every_call_witness :
  reachable glyph tractor_cat
  /\ ((forall r t, In r (scene tractor_cat) ->
                   tile_at (heap tractor_cat) r = Some t ->
                   MyQGPixmapItem.hit t = false
                   /\ MyQGPixmapItem.offset_xy t <> None)
      /\ (forall wh, wheel tractor_cat = Some wh ->
                     NoDup wh
                     /\ unflagged (heap tractor_cat) wh = true
                     /\ forall r, In r wh ->
                                  In r (scene tractor_cat)
                                  /\ anchor (heap tractor_cat) r <> None))
  /\ wheel tractor_cat = Some [0; 1; 2; 3; 4; 5; 6]%nat.
Proof.
  split; [exact tractor_cat_reachable|].
  split; [|vm_compute; reflexivity].
  exact (tiles_ready_after_every_call glyph tractor_cat
           tractor_cat_reachable).
Defined.

(** X7: the scene never holds an item twice nor a dangling reference, and
    the selection of the view is always a list of distinct tiles of the
    scene whose elements are those of the set kept beside it, also when
    calls of [make_word] and [word_path] come between the mouse events. *)
Theorem selection_on_scene f s :
  reachable f s ->
  NoDup (scene s)
  /\ (forall r, In r (scene s) -> (r < List.length (heap s))%nat)
  /\ NoDup (selected_widgets_list s)
  /\ (forall r, In r (selected_widgets_set s)
                <-> In r (selected_widgets_list s))
  /\ (forall r, In r (selected_widgets_list s) ->
                In r (scene s) /\ tile_at (heap s) r <> None).
Proof.
  intros R. pose proof (reachable_sound f s R) as S.
  destruct (proj1 (selection_ok_iff s) (sound_selection S)) as (T & N & E).
  split; [apply (sound_scene_nodup S)|].
  split; [apply (sound_scene S)|].
  split; [exact N|]. split; [exact E|].
  intros r Hr. split; [now apply (sound_selected S)|now apply T].
Qed.

Lemma selection_on_scene_witness :
  reachable glyph tractor_CA
  /\ (NoDup (scene tractor_CA)
      /\ (forall r, In r (scene tractor_CA) ->
                    (r < List.length (heap tractor_CA))%nat)
      /\ NoDup (selected_widgets_list tractor_CA)
      /\ (forall r, In r (selected_widgets_set tractor_CA)
                    <-> In r (selected_widgets_list tractor_CA))
      /\ (forall r, In r (selected_widgets_list tractor_CA) ->
                    In r (scene tractor_CA)
                    /\ tile_at (heap tractor_CA) r <> None))
  /\ selected_widgets_list tractor_CA = [3; 2]%nat.
Proof.
  split; [exact tractor_CA_reachable|].
  split; [|vm_compute; reflexivity].
  exact (selection_on_scene glyph tractor_CA tractor_CA_reachable).
Defined.

(** X8: a mouse handler never raises: in every world the application
    reaches, a press, a move or a release over an item of the scene or over
    nothing returns normally, whatever calls came before (a failed
    [make_word] or [word_path] included). *)
Theorem mouse_events_never_raise f s e :
  reachable f s ->
  hit_test s (mouse e) = true ->
  outcome (handle e) s = Ok tt.
Proof.
  intros R Hit. apply mouse_sound; auto. exact (reachable_sound f s R).
Qed.

Lemma mouse_events_never_raise_witness :
  reachable glyph tractor_CA
  /\ hit_test tractor_CA (mouse (Move (Some 7%nat))) = true
  /\ outcome (handle (Move (Some 7%nat))) tractor_CA = Ok tt.
Proof.
  assert (H : hit_test tractor_CA (mouse (Move (Some 7%nat))) = true)
    by (vm_compute; reflexivity).
  split; [exact tractor_CA_reachable|]. split; [exact H|].
  exact (mouse_events_never_raise glyph tractor_CA (Move (Some 7%nat))
           tractor_CA_reachable H).
Defined.

(** ** The outcomes of the calls *)

(** X9: the dict [get_letters] builds has the 26 capital letters as its
    keys and no other: looking up a capital gives the image
    [create_letter_img] drew for that letter, any other character raises
    [KeyError]. *)
Theorem get_letters_keys create_letter_img alpha :
  dict_get (get_letters create_letter_img) alpha
  = if is_capital alpha then Ok (create_letter_img alpha)
    else Raise KeyError.
Proof.
  unfold get_letters. cbn [list_ascii_of_string map].
  destruct alpha as [b0 b1 b2 b3 b4 b5 b6 b7].
  destruct b0, b1, b2, b3, b4, b5, b6, b7; reflexivity.
Qed.

(** X10: how [make_word] ends, in every world the application reaches: a
    word with a character that is no capital letter raises [KeyError], the
    empty word raises [IndexError] (at [letters[0]]), any other word is
    laid out; and a call that raises leaves the scene, the wheel and the
    view as they were: the tiles built before the error are on no list. *)
Theorem make_word_outcome f s word :
  reachable f s ->
  outcome (make_word word) s
  = (if forallb is_capital (list_ascii_of_string word)
     then match word with
          | EmptyString => Raise IndexError
          | String _ _ => Ok tt
          end
     else Raise KeyError)
  /\ (outcome (make_word word) s <> Ok tt ->
      exists ts,
        exec (make_word word) s = set_heap (heap s ++ map OTile ts) s).
Proof.
  intros R. destruct (reachable_settings f s R) as (L & _).
  rewrite <- (has_glyphs_capital f s _ L). unfold outcome, exec.
  destruct word as [|c0 word0] eqn:Ew.
  { rewrite make_word_empty. cbn. split; [reflexivity|]. intros _.
    exists []. cbn [map]. now rewrite app_nil_r, set_heap_id. }
  rewrite <- Ew. assert (NE : word <> EmptyString) by congruence.
  destruct (has_glyphs_cases s (list_ascii_of_string word)) as [G|G];
    rewrite G.
  - destruct (make_word_spec word s NE G) as (ts & _ & _ & E).
    cbv zeta in E. rewrite E. cbn [fst snd]. split; [reflexivity|].
    intros H. now elim H.
  - destruct (make_word_KeyError word s G) as (ts & E). rewrite E.
    cbn [fst snd]. split; [reflexivity|]. intros _. now exists ts.
Qed.

Lemma make_word_outcome_witness :
  reachable glyph tractor_cat
  /\ (outcome (make_word "CaT") tractor_cat
      = (if forallb is_capital (list_ascii_of_string "CaT")
         then match "CaT"%string with
              | EmptyString => Raise IndexError
              | String _ _ => Ok tt
              end
         else Raise KeyError)
      /\ (outcome (make_word "CaT") tractor_cat <> Ok tt ->
          exists ts,
            exec (make_word "CaT") tractor_cat
            = set_heap (heap tractor_cat ++ map OTile ts) tractor_cat))
  /\ forallb is_capital (list_ascii_of_string "CaT") = false
  /\ scene (exec (make_word "CaT") tractor_cat) = scene tractor_cat.
Proof.
  split; [exact tractor_cat_reachable|].
  split; [|split; vm_compute; reflexivity].
  exact (make_word_outcome glyph tractor_cat "CaT" tractor_cat_reachable).
Defined.

(** X11: [make_word] only adds: the items of the scene stay where they
    are, the tiles and the outline of an earlier word included, no object
    is changed, the new wheel is made of new tiles only, and the selection,
    the flags of the view, the replay highlight and the signals sent are as
    before. *)
Theorem make_word_keeps_earlier_items word s :
  word <> EmptyString ->
  has_glyphs s (list_ascii_of_string word) = true ->
  let s' := exec (make_word word) s in
  (exists news, scene s' = scene s ++ news
                /\ forall r, In r news -> (List.length (heap s) <= r)%nat)
  /\ (forall r, (r < List.length (heap s))%nat ->
                nth_error (heap s') r = nth_error (heap s) r)
  /\ (forall wh r, wheel s' = Some wh -> In r wh ->
                   (List.length (heap s) <= r)%nat)
  /\ selected_widgets_list s' = selected_widgets_list s
  /\ selected_widgets_set s' = selected_widgets_set s
  /\ mouse_pressed s' = mouse_pressed s
  /\ has_highlighted s' = has_highlighted s
  /\ last_path_highlighted s' = last_path_highlighted s
  /\ emitted s' = emitted s.
Proof.
  intros NE G s'. subst s'. unfold exec.
  destruct (make_word_spec word s NE G) as (ts & L & _ & E).
  cbv zeta in E. rewrite E. cbn [fst]. clear E. setters.
  set (n := List.length (list_ascii_of_string word)) in *.
  set (h1 := heap s ++ map OTile (map (placed (radius s)) ts)).
  assert (L1 : List.length h1 = (List.length (heap s) + n)%nat).
  { unfold h1. now rewrite length_app, !length_map, L. }
  split; [|split; [|split]]; [| | |repeat split].
  - eexists. split; [reflexivity|]. intros r Hr.
    apply in_app_iff in Hr. destruct Hr as [Hr|[<-|[]]].
    + apply in_seq in Hr. lia.
    + lia.
  - intros r Hr. unfold h1. rewrite <- app_assoc.
    now rewrite nth_error_app1.
  - intros wh r W Hr. injection W as <-. apply in_seq in Hr. lia.
Qed.

Lemma make_word_keeps_earlier_items_witness :
  has_glyphs tractor_CA (list_ascii_of_string "ZAP") = true
  /\ ((exists news,
         scene (exec (make_word "ZAP") tractor_CA)
         = scene tractor_CA ++ news
         /\ forall r, In r news ->
                      (List.length (heap tractor_CA) <= r)%nat)
      /\ (forall r, (r < List.length (heap tractor_CA))%nat ->
                    nth_error (heap (exec (make_word "ZAP") tractor_CA)) r
                    = nth_error (heap tractor_CA) r)
      /\ (forall wh r,
             wheel (exec (make_word "ZAP") tractor_CA) = Some wh ->
             In r wh -> (List.length (heap tractor_CA) <= r)%nat)
      /\ selected_widgets_list (exec (make_word "ZAP") tractor_CA)
         = selected_widgets_list tractor_CA
      /\ selected_widgets_set (exec (make_word "ZAP") tractor_CA)
         = selected_widgets_set tractor_CA
      /\ mouse_pressed (exec (make_word "ZAP") tractor_CA)
         = mouse_pressed tractor_CA
      /\ has_highlighted (exec (make_word "ZAP") tractor_CA)
         = has_highlighted tractor_CA
      /\ last_path_highlighted (exec (make_word "ZAP") tractor_CA)
         = last_path_highlighted tractor_CA
      /\ emitted (exec (make_word "ZAP") tractor_CA) = emitted tractor_CA)
  /\ scene (exec (make_word "ZAP") tractor_CA)
     = [0; 1; 2; 3; 4; 5; 6; 7; 8; 9; 10; 11; 12]%nat
  /\ wheel (exec (make_word "ZAP") tractor_CA) = Some [9; 10; 11]%nat.
Proof.
  assert (G : has_glyphs tractor_CA (list_ascii_of_string "ZAP") = true)
    by (vm_compute; reflexivity).
  assert (NE : "ZAP"%string <> EmptyString) by discriminate.
  split; [exact G|].
  split; [|split; vm_compute; reflexivity].
  exact (make_word_keeps_earlier_items "ZAP" tractor_CA NE G).
Defined.

(** X12: how [word_path] ends, in every world the application reaches:
    before any [make_word] it raises [AttributeError] (there is no
    [wheel]); with a wheel that has none of the letters of the word it
    raises [IndexError] (at [selected[0]]); otherwise it returns normally.
    A call that raises has still removed the previous replay highlight,
    and has done nothing else. *)
Theorem word_path_outcome f s word :
  reachable f s ->
  outcome (word_path word) s
  = match wheel s with
    | None => Raise AttributeError
    | Some wh =>
        if some_letter_on (heap s) wh (list_ascii_of_string word)
        then Ok tt
        else Raise IndexError
    end
  /\ (outcome (word_path word) s <> Ok tt ->
      exec (word_path word) s = exec deselect s).
Proof.
  intros R. pose proof (reachable_sound f s R) as S.
  unfold outcome, exec at 1.
  destruct (wheel s) as [wh|] eqn:W.
  2:{ rewrite word_path_no_wheel by assumption. cbn [fst snd]. auto. }
  destruct (sound_wheel_ready s wh S W) as (U & A).
  rewrite (word_path_spec_at word s wh W U A). cbv zeta.
  destruct (some_letter_on (heap s) wh (list_ascii_of_string word)) eqn:O.
  - apply greedy_nonempty in O.
    destruct (greedy (heap s) wh [] (list_ascii_of_string word));
      [congruence|].
    cbn [fst snd]. split; [reflexivity|]. intros H. now elim H.
  - rewrite (greedy_absent _ _ _ [] O). cbn [fst snd]. auto.
Qed.

Lemma word_path_outcome_witness :
  reachable glyph tractor_cat
  /\ (outcome (word_path "ZIP") tractor_cat
      = match wheel tractor_cat with
        | None => Raise AttributeError
        | Some wh =>
            if some_letter_on (heap tractor_cat) wh
                 (list_ascii_of_string "ZIP")
            then Ok tt
            else Raise IndexError
        end
      /\ (outcome (word_path "ZIP") tractor_cat <> Ok tt ->
          exec (word_path "ZIP") tractor_cat = exec deselect tractor_cat))
  /\ outcome (word_path "ZIP") tractor_cat = Raise IndexError
  /\ scene (exec (word_path "ZIP") tractor_cat)
     = [0; 1; 2; 3; 4; 5; 6; 7]%nat.
Proof.
  split; [exact tractor_cat_reachable|].
  split; [|split; vm_compute; reflexivity].
  exact (word_path_outcome glyph tractor_cat "ZIP" tractor_cat_reachable).
Defined.

(** ** What the calls leave alone *)

(** X13: no call frees, moves or relabels an object that is there: after
    any call every path item has the path and the pen it was created with,
    and every tile has the attributes it had (letter, angle, position,
    anchor, clear [hit] flag), except for [path_item], which is written by
    [mouseMoveEvent] and by no other call. *)
Theorem placed_objects_stable f s c :
  reachable f s ->
  hit_test s c = true ->
  let s' := exec (perform c) s in
  (forall r p, path_at (heap s) r = Some p -> path_at (heap s') r = Some p)
  /\ (forall r t,
         tile_at (heap s) r = Some t ->
         exists t',
           tile_at (heap s') r = Some t'
           /\ MyQGPixmapItem.set_path_item None t'
              = MyQGPixmapItem.set_path_item None t
           /\ MyQGPixmapItem.alpha t' = MyQGPixmapItem.alpha t
           /\ MyQGPixmapItem.pos t' = MyQGPixmapItem.pos t
           /\ MyQGPixmapItem.offset_xy t' = MyQGPixmapItem.offset_xy t
           /\ MyQGPixmapItem.hit t' = MyQGPixmapItem.hit t)
  /\ ((forall r t, tile_at (heap s) r = Some t ->
                   tile_at (heap s') r = Some t)
      \/ exists w, c = mouse (Move w)).
Proof.
  intros R Hit s'. pose proof (reachable_sound f s R) as S.
  destruct (perform_frame c s S Hit) as ((_ & K) & M). fold s' in K, M.
  split; [|split].
  - intros r p Hp. destruct (K r (path_at_lt _ _ _ Hp)) as (P & _).
    congruence.
  - intros r t Ht. destruct (K r (tile_at_lt _ _ _ Ht)) as (_ & T).
    rewrite Ht in T. unfold sans_path_item in T.
    destruct (tile_at (heap s') r) as [t'|]; [|discriminate].
    cbn [option_map] in T.
    apply (f_equal (fun o => match o with
                             | Some x => x
                             | None => MyQGPixmapItem.set_path_item None t
                             end)) in T.
    cbv beta iota in T. exists t'.
    split; [reflexivity|]. split; [exact T|].
    split; [exact (f_equal MyQGPixmapItem.alpha T)|].
    split; [exact (f_equal MyQGPixmapItem.pos T)|].
    split; [exact (f_equal MyQGPixmapItem.offset_xy T)
           |exact (f_equal MyQGPixmapItem.hit T)].
  - destruct M as [(more & E)|M]; [left|now right].
    intros r t Ht. rewrite E, tile_at_app_l; auto.
    exact (tile_at_lt _ _ _ Ht).
Qed.

Lemma placed_objects_stable_witness :
  reachable glyph tractor_C
  /\ hit_test tractor_C (mouse (Move (Some 2%nat))) = true
  /\ ((forall r p, path_at (heap tractor_C) r = Some p ->
                   path_at (heap (exec (perform (mouse (Move (Some 2%nat))))
                                       tractor_C)) r = Some p)
      /\ (forall r t,
             tile_at (heap tractor_C) r = Some t ->
             exists t',
               tile_at (heap (exec (perform (mouse (Move (Some 2%nat))))
                                   tractor_C)) r = Some t'
               /\ MyQGPixmapItem.set_path_item None t'
                  = MyQGPixmapItem.set_path_item None t
               /\ MyQGPixmapItem.alpha t' = MyQGPixmapItem.alpha t
               /\ MyQGPixmapItem.pos t' = MyQGPixmapItem.pos t
               /\ MyQGPixmapItem.offset_xy t' = MyQGPixmapItem.offset_xy t
               /\ MyQGPixmapItem.hit t' = MyQGPixmapItem.hit t)
      /\ ((forall r t,
              tile_at (heap tractor_C) r = Some t ->
              tile_at (heap (exec (perform (mouse (Move (Some 2%nat))))
                                  tractor_C)) r = Some t)
          \/ exists w, mouse (Move (Some 2%nat)) = mouse (Move w)))
  /\ option_map MyQGPixmapItem.path_item (tile_at (heap tractor_C) 2)
     = Some None
  /\ option_map MyQGPixmapItem.path_item (tile_at (heap tractor_CA) 2)
     = Some (Some 8%nat).
Proof.
  assert (H : hit_test tractor_C (mouse (Move (Some 2%nat))) = true)
    by (vm_compute; reflexivity).
  split; [exact tractor_C_reachable|]. split; [exact H|].
  split; [|split; vm_compute; reflexivity].
  exact (placed_objects_stable glyph tractor_C (mouse (Move (Some 2%nat)))
           tractor_C_reachable H).
Defined.

(** X14: [deselect] removes the replay highlight but leaves the flag
    [has_highlighted] of the view set: after a call of [deselect] by the
    application (a second call changes nothing more) the next press is
    still taken as the press that dismisses a highlight: it emits
    [clearHighlight], starts no selection and leaves the button state
    released, wherever it lands. *)
Theorem press_after_deselect_is_consumed s widget :
  has_highlighted s = true ->
  let s1 := exec deselect s in
  let s2 := exec (mousePressEvent widget) s1 in
  exec deselect s1 = s1
  /\ has_highlighted s1 = true
  /\ outcome (mousePressEvent widget) s1 = Ok tt
  /\ selected_widgets_list s2 = selected_widgets_list s
  /\ selected_widgets_set s2 = selected_widgets_set s
  /\ mouse_pressed s2 = false
  /\ has_highlighted s2 = false
  /\ scene s2 = scene s1
  /\ emitted s2 = emitted s ++ [clearHighlight true].
Proof.
  intros H s1 s2.
  assert (H1 : has_highlighted s1 = true).
  { unfold s1. now rewrite deselect_flag. }
  assert (I : forall x, last_path_highlighted x = None ->
                        exec deselect x = x).
  { intros x Hx. unfold exec, deselect, bind, get. now rewrite Hx. }
  destruct (deselect_spec s) as (_ & _ & _ & Dl & _). fold s1 in Dl.
  split; [now apply I|]. split; [exact H1|].
  unfold s2, outcome, exec at 1 2 3 4 5 6.
  rewrite (press_highlighted s1 widget H1). cbn [fst snd].
  rewrite I by exact Dl.
  split; [reflexivity|]. cbn.
  assert (F : selected_widgets_list s1 = selected_widgets_list s
              /\ selected_widgets_set s1 = selected_widgets_set s
              /\ emitted s1 = emitted s).
  { unfold s1, exec, deselect, bind, get.
    destruct (last_path_highlighted s); auto. }
  destruct F as (F1 & F2 & F3). rewrite F1, F2, F3. repeat split.
Qed.

Lemma press_after_deselect_is_consumed_witness :
  has_highlighted tractor_cat = true
  /\ (exec deselect (exec deselect tractor_cat) = exec deselect tractor_cat
      /\ has_highlighted (exec deselect tractor_cat) = true
      /\ outcome (mousePressEvent (Some 3%nat)) (exec deselect tractor_cat)
         = Ok tt
      /\ selected_widgets_list
           (exec (mousePressEvent (Some 3%nat)) (exec deselect tractor_cat))
         = selected_widgets_list tractor_cat
      /\ selected_widgets_set
           (exec (mousePressEvent (Some 3%nat)) (exec deselect tractor_cat))
         = selected_widgets_set tractor_cat
      /\ mouse_pressed
           (exec (mousePressEvent (Some 3%nat)) (exec deselect tractor_cat))
         = false
      /\ has_highlighted
           (exec (mousePressEvent (Some 3%nat)) (exec deselect tractor_cat))
         = false
      /\ scene
           (exec (mousePressEvent (Some 3%nat)) (exec deselect tractor_cat))
         = scene (exec deselect tractor_cat)
      /\ emitted
           (exec (mousePressEvent (Some 3%nat)) (exec deselect tractor_cat))
         = emitted tractor_cat ++ [clearHighlight true])
  /\ selected_widgets_list tractor_cat = [].
Proof.
  assert (H : has_highlighted tractor_cat = true) by (vm_compute; reflexivity).
  split; [exact H|]. split; [|vm_compute; reflexivity].
  exact (press_after_deselect_is_consumed tractor_cat (Some 3%nat) H).
Defined.

(** X15: a whole gesture leaves no trace on the scene: from a world the
    application reaches with no live path showing, a press, any moves and
    the release return normally and leave the scene as it was (without
    the replay highlight if the press dismissed one), with no live path,
    an empty selection, an empty drag path and the button released;
    the items are in their former order. *)
Theorem gesture_restores_scene f s widget moves :
  reachable f s ->
  live_paths s = [] ->
  hit_tests s (gesture widget moves) = true ->
  let s' := exec (for_each (gesture widget moves) perform) s in
  outcome (for_each (gesture widget moves) perform) s = Ok tt
  /\ scene s' = (if has_highlighted s then scene (exec deselect s)
                 else scene s)
  /\ live_paths s' = []
  /\ selected_widgets_list s' = []
  /\ selected_widgets_set s' = []
  /\ paint_path s' = []
  /\ mouse_pressed s' = false
  /\ has_highlighted s' = false.
Proof.
  intros R Live Hits s'. pose proof (reachable_sound f s R) as S.
  unfold gesture in *. cbn [hit_tests] in Hits.
  apply andb_true_iff in Hits. destruct Hits as [Hit Hits].
  pose proof (perform_mouse (Press widget) s S Hit) as E1.
  pose proof (perform_sound (mouse (Press widget)) s S Hit) as S1.
  destruct (press_scene s widget) as (Hh & Hs & Hf).
  set (s1 := exec (perform (mouse (Press widget))) s) in *.
  change (exec (mousePressEvent widget) s) with s1 in Hh, Hs, Hf.
  destruct (moves_scene [mouse Release] moves s1 S1 Hits)
    as (s2 & news & E2 & S2 & _ & (_ & K) & F2 & Sc2 & G2).
  destruct (release_sound s2 S2) as (E3 & _).
  assert (E : for_each (mouse (Press widget)
                        :: map (fun w => mouse (Move w)) moves
                           ++ [mouse Release]) perform s
              = (released s2, Ok tt)).
  { cbn [for_each]. unfold bind at 1. rewrite E1, E2.
    cbn [for_each perform handle]. unfold bind. now rewrite E3. }
  assert (Live1 : filter (is_green_path (heap s1)) (scene s1) = []).
  { rewrite Hh, Hs. destruct (has_highlighted s); [|exact Live].
    destruct (deselect_spec s) as (_ & _ & _ & _ & ->).
    destruct (last_path_highlighted s) as [p|]; [|exact Live].
    rewrite remove_filter, filter_comm. unfold live_paths in Live.
    now rewrite Live. }
  assert (Old : filter (fun r => negb (is_green_path (heap s2) r)) (scene s1)
                = scene s1).
  { apply filter_negb_all. rewrite <- Live1. apply filter_ext_in.
    intros r Hr. unfold is_green_path.
    destruct (K r (sound_scene S1 r Hr)) as (-> & _). reflexivity. }
  assert (Es : s' = released s2).
  { subst s'. unfold exec. now rewrite E. }
  split; [unfold outcome; now rewrite E|]. rewrite Es.
  split; [|split].
  - cbn [scene released]. rewrite Sc2, filter_app, Old.
    rewrite (filter_none _ news).
    2:{ intros r Hr. now rewrite (G2 r Hr). }
    now rewrite app_nil_r.
  - apply live_paths_released.
  - cbn. repeat split. congruence.
Qed.

Lemma gesture_restores_scene_witness :
  reachable glyph tractor_cat
  /\ live_paths tractor_cat = []
  /\ hit_tests tractor_cat (gesture (Some 3%nat) [Some 2%nat; None]) = true
  /\ (outcome (for_each (gesture (Some 3%nat) [Some 2%nat; None]) perform)
              tractor_cat = Ok tt
      /\ scene (exec (for_each (gesture (Some 3%nat) [Some 2%nat; None])
                               perform) tractor_cat)
         = (if has_highlighted tractor_cat
            then scene (exec deselect tractor_cat)
            else scene tractor_cat)
      /\ live_paths (exec (for_each (gesture (Some 3%nat) [Some 2%nat; None])
                                    perform) tractor_cat) = []
      /\ selected_widgets_list
           (exec (for_each (gesture (Some 3%nat) [Some 2%nat; None])
                           perform) tractor_cat) = []
      /\ selected_widgets_set
           (exec (for_each (gesture (Some 3%nat) [Some 2%nat; None])
                           perform) tractor_cat) = []
      /\ paint_path
           (exec (for_each (gesture (Some 3%nat) [Some 2%nat; None])
                           perform) tractor_cat) = []
      /\ mouse_pressed
           (exec (for_each (gesture (Some 3%nat) [Some 2%nat; None])
                           perform) tractor_cat) = false
      /\ has_highlighted
           (exec (for_each (gesture (Some 3%nat) [Some 2%nat; None])
                           perform) tractor_cat) = false)
  /\ scene tractor_cat = [0; 1; 2; 3; 4; 5; 6; 7; 8]%nat
  /\ scene (exec deselect tractor_cat) = [0; 1; 2; 3; 4; 5; 6; 7]%nat.
Proof.
  assert (L : live_paths tractor_cat = []) by (vm_compute; reflexivity).
  assert (H : hit_tests tractor_cat (gesture (Some 3%nat) [Some 2%nat; None])
              = true) by (vm_compute; reflexivity).
  split; [exact tractor_cat_reachable|]. split; [exact L|].
  split; [exact H|]. split; [|split; vm_compute; reflexivity].
  exact (gesture_restores_scene glyph tractor_cat (Some 3%nat)
           [Some 2%nat; None] tractor_cat_reachable L H).
Defined.

(** ** Replays *)

(** X16: a second replay takes the place of the first and does not depend
    on it: after two calls of [word_path] for words that each have a letter
    on the wheel, the scene is the scene without any replay highlight plus
    the second path item alone, and that item is the path a single call
    for the second word would have drawn: through the tiles the greedy
    assignment picks on a wheel with no tile used. *)
Theorem word_path_replaces f s wh w1 w2 :
  reachable f s ->
  wheel s = Some wh ->
  some_letter_on (heap s) wh (list_ascii_of_string w1) = true ->
  some_letter_on (heap s) wh (list_ascii_of_string w2) = true ->
  let s1 := exec (word_path w1) s in
  let s2 := exec (word_path w2) s1 in
  let first := List.length (heap s) in
  let second := S (List.length (heap s)) in
  outcome (word_path w2) s1 = Ok tt
  /\ last_path_highlighted s1 = Some first
  /\ last_path_highlighted s2 = Some second
  /\ scene s2 = scene (exec deselect s) ++ [second]
  /\ ~ In first (scene s2)
  /\ path_at (heap s2) second
     = Some (mkPathItem
               (polyline (anchors (heap s)
                            (greedy (heap s) wh []
                                    (list_ascii_of_string w2))))
               (mkPen blue 3)).
Proof.
  intros R W O1 O2 s1 s2 first second.
  pose proof (reachable_sound f s R) as S.
  apply greedy_nonempty in O1. apply greedy_nonempty in O2.
  destruct (word_path_drawn_at w1 s wh S W O1)
    as (_ & H1 & Sc1 & L1 & W1 & _).
  fold s1 in H1, Sc1, L1, W1.
  assert (S1 : sound s1) by now apply word_path_sound.
  pose proof (deselect_sound s S) as Sd.
  destruct (deselect_spec s) as (_ & Dh & _).
  assert (C : forall r, char_at (heap s1) r = char_at (heap s) r).
  { intros r. unfold char_at. now rewrite H1, tile_at_app_path. }
  assert (A : forall r, anchor (heap s1) r = anchor (heap s) r).
  { intros r. unfold anchor. now rewrite H1, tile_at_app_path. }
  assert (O2' : greedy (heap s1) wh [] (list_ascii_of_string w2) <> []).
  { now rewrite (greedy_ext _ _ _ _ C). }
  destruct (word_path_drawn_at w2 s1 wh S1 W1 O2')
    as (Ok2 & H2 & Sc2 & L2 & _).
  fold s2 in H2, Sc2, L2.
  assert (Len : List.length (heap s1) = second).
  { rewrite H1, length_app. cbn [List.length]. unfold second. lia. }
  assert (Sd1 : scene (exec deselect s1) = scene (exec deselect s)).
  { destruct (deselect_spec s1) as (_ & _ & _ & _ & ->).
    rewrite L1, Sc1. apply remove_last_new.
    intros r Hr. apply (sound_scene Sd) in Hr. now rewrite Dh in Hr. }
  rewrite Len in *. rewrite Sd1 in Sc2.
  split; [exact Ok2|]. split; [exact L1|]. split; [exact L2|].
  split; [exact Sc2|]. split.
  - rewrite Sc2. intros I. apply in_app_iff in I.
    destruct I as [I|[I|[]]].
    + apply (sound_scene Sd) in I. rewrite Dh in I. unfold first in I. lia.
    + unfold first, second in I. lia.
  - rewrite H2, <- Len, path_at_app_new.
    now rewrite (greedy_ext _ _ _ _ C), (anchors_ext _ _ _ A).
Qed.

Lemma word_path_replaces_witness :
  reachable glyph tractor
  /\ wheel tractor = Some [0; 1; 2; 3; 4; 5; 6]%nat
  /\ (outcome (word_path "ART") (exec (word_path "CAT") tractor) = Ok tt
      /\ last_path_highlighted (exec (word_path "CAT") tractor)
         = Some (List.length (heap tractor))
      /\ last_path_highlighted
           (exec (word_path "ART") (exec (word_path "CAT") tractor))
         = Some (S (List.length (heap tractor)))
      /\ scene (exec (word_path "ART") (exec (word_path "CAT") tractor))
         = scene (exec deselect tractor) ++ [S (List.length (heap tractor))]
      /\ ~ In (List.length (heap tractor))
              (scene (exec (word_path "ART")
                           (exec (word_path "CAT") tractor)))
      /\ path_at (heap (exec (word_path "ART")
                             (exec (word_path "CAT") tractor)))
                 (S (List.length (heap tractor)))
         = Some (mkPathItem
                   (polyline
                      (anchors (heap tractor)
                         (greedy (heap tractor) [0; 1; 2; 3; 4; 5; 6]%nat []
                                 (list_ascii_of_string "ART"))))
                   (mkPen blue 3)))
  /\ scene (exec (word_path "ART") (exec (word_path "CAT") tractor))
     = [0; 1; 2; 3; 4; 5; 6; 7; 9]%nat
  /\ greedy (heap tractor) [0; 1; 2; 3; 4; 5; 6]%nat []
            (list_ascii_of_string "ART") = [2; 1; 0]%nat.
Proof.
  assert (W : wheel tractor = Some [0; 1; 2; 3; 4; 5; 6]%nat)
    by (vm_compute; reflexivity).
  assert (O1 : some_letter_on (heap tractor) [0; 1; 2; 3; 4; 5; 6]%nat
                              (list_ascii_of_string "CAT") = true)
    by (vm_compute; reflexivity).
  assert (O2 : some_letter_on (heap tractor) [0; 1; 2; 3; 4; 5; 6]%nat
                              (list_ascii_of_string "ART") = true)
    by (vm_compute; reflexivity).
  split; [exact tractor_reachable|]. split; [exact W|].
  split; [|split; vm_compute; reflexivity].
  exact (word_path_replaces glyph tractor [0; 1; 2; 3; 4; 5; 6]%nat
           "CAT" "ART" tractor_reachable W O1 O2).
Defined.

(** X17: replaying the word that was loaded visits every tile once, in
    wheel order: after [make_word] of a word of capital letters,
    [word_path] of the same word returns normally, the greedy assignment
    selects the whole wheel in its order, and the replay path has one
    vertex per letter, the anchors of the tiles in wheel order. *)
Theorem replay_of_loaded_word f s word :
  reachable f s ->
  word <> EmptyString ->
  forallb is_capital (list_ascii_of_string word) = true ->
  let s1 := exec (make_word word) s in
  let s2 := exec (word_path word) s1 in
  exists wh item,
    wheel s1 = Some wh
    /\ outcome (word_path word) s1 = Ok tt
    /\ greedy (heap s1) wh [] (list_ascii_of_string word) = wh
    /\ last_path_highlighted s2 = Some item
    /\ path_at (heap s2) item
       = Some (mkPathItem (polyline (anchors (heap s1) wh)) (mkPen blue 3))
    /\ List.length (polyline (anchors (heap s1) wh)) = String.length word.
Proof.
  intros R NE Cap s1 s2.
  destruct (reachable_settings f s R) as (L & _).
  assert (G : has_glyphs s (list_ascii_of_string word) = true).
  { now rewrite (has_glyphs_capital f s _ L). }
  assert (R1 : reachable f s1).
  { exact (@reachable_call f s (call_make_word word) R eq_refl). }
  pose proof (reachable_sound f s1 R1) as S1.
  destruct (make_word_wheel word s NE G) as (_ & W & _ & _).
  cbv zeta in W. fold s1 in W.
  pose proof (make_word_chars word s NE G) as Ch. fold s1 in Ch.
  set (chars := list_ascii_of_string word) in *.
  set (wh := seq (List.length (heap s)) (List.length chars)) in *.
  destruct (sound_wheel_ready s1 wh S1 W) as (_ & A).
  assert (Gs : greedy (heap s1) wh [] chars = wh).
  { assert (X : greedy (heap s1) ([] ++ wh) [] (chars_of (heap s1) wh) = wh).
    { apply (greedy_self (heap s1) wh []).
      - apply seq_NoDup.
      - intros r Hr. apply char_at_tile. specialize (A r Hr).
        unfold anchor in A. destruct (tile_at (heap s1) r); congruence. }
    cbn [app] in X. now rewrite Ch in X. }
  assert (Nw : greedy (heap s1) wh [] chars <> []).
  { rewrite Gs. unfold wh, chars.
    destruct word; [congruence|discriminate]. }
  destruct (word_path_drawn_at word s1 wh S1 W Nw)
    as (Ok2 & H2 & _ & L2 & _).
  fold chars in H2. rewrite Gs in H2. fold s2 in H2, L2.
  exists wh, (List.length (heap s1)).
  split; [exact W|]. split; [exact Ok2|]. split; [exact Gs|].
  split; [exact L2|]. split.
  - rewrite H2. apply path_at_app_new.
  - rewrite polyline_length, anchors_length by exact A.
    unfold wh. rewrite length_seq. apply chars_length.
Qed.

Lemma replay_of_loaded_word_witness :
  reachable glyph fresh
  /\ forallb is_capital (list_ascii_of_string "TRACTOR") = true
  /\ (exists wh item,
         wheel (exec (make_word "TRACTOR") fresh) = Some wh
         /\ outcome (word_path "TRACTOR") (exec (make_word "TRACTOR") fresh)
            = Ok tt
         /\ greedy (heap (exec (make_word "TRACTOR") fresh)) wh []
                   (list_ascii_of_string "TRACTOR") = wh
         /\ last_path_highlighted
              (exec (word_path "TRACTOR") (exec (make_word "TRACTOR") fresh))
            = Some item
         /\ path_at (heap (exec (word_path "TRACTOR")
                                (exec (make_word "TRACTOR") fresh))) item
            = Some (mkPathItem
                      (polyline
                         (anchors (heap (exec (make_word "TRACTOR") fresh))
                                  wh))
                      (mkPen blue 3))
         /\ List.length
              (polyline (anchors (heap (exec (make_word "TRACTOR") fresh))
                                 wh))
            = String.length "TRACTOR")
  /\ greedy (heap tractor) [0; 1; 2; 3; 4; 5; 6]%nat []
            (list_ascii_of_string "TRACTOR") = [0; 1; 2; 3; 4; 5; 6]%nat.
Proof.
  assert (C : forallb is_capital (list_ascii_of_string "TRACTOR") = true)
    by (vm_compute; reflexivity).
  assert (NE : "TRACTOR"%string <> EmptyString) by discriminate.
  split; [exact (reachable_init glyph)|]. split; [exact C|].
  split; [|vm_compute; reflexivity].
  exact (replay_of_loaded_word glyph fresh "TRACTOR" (reachable_init glyph)
           NE C).
Defined.

(** ** The radius that counts as missing *)



